(** * bayesflow: conditional-distribution nodes

    A shallow embedding of [bayesflow/models/__init__.py] and
    [bayesflow/models/matrix_decompositions.py].

    Python objects live in a store: a node is an index into [nodes], a
    posterior (Q distribution) an index into [qdists], and the global numpy
    generator is the [rng] component.  Methods are state transformers that
    may raise; the state reached when an exception escapes is kept, as in
    Python.  Floating-point scalars are idealised as real numbers.  numpy,
    TensorFlow and the bayesflow modules outside [models/] are an interface
    ([Backend]); the code of the two source files is written against it. *)

From Stdlib Require Import Reals Lra ZArith String List.
From stdpp Require Import base list gmap strings.
Import ListNotations.

Open Scope string_scope.

(** ** Python values and exceptions *)

Inductive exn : Type :=
| AssertionError
| AttributeError (attr : string)
| KeyError (key : string)
| TypeError (msg : string)
| ValueError (msg : string)
| IndexError
| PyException (msg : string)
| LibraryError (msg : string).

Inductive result (A : Type) : Type :=
| Val (a : A)
| Raise (e : exn).
Arguments Val {A} a.
Arguments Raise {A} e.

Definition result_bind {A B : Type} (r : result A) (f : A -> result B) : result B :=
  match r with
  | Val a => f a
  | Raise e => Raise e
  end.

Declare Scope result_scope.
Delimit Scope result_scope with res.
Notation "x <~ r ;; k" := (result_bind r (fun x => k))
  (at level 100, r at next level, right associativity) : result_scope.

(** A shape is a tuple of dimensions. *)
Definition shape : Type := list nat.

Inductive np_dtype : Type := float16 | float32 | float64 | int32 | int64 | bool_.

Global Instance np_dtype_eq_dec : EqDecision np_dtype.
Proof. solve_decision. Defined.

Inductive binop : Type := Add | Sub | Mul | Div.

(** Keyword arguments and dicts: association lists in insertion order. *)
Definition kwargs (V : Type) : Type := list (string * V).

Fixpoint kw_get {V : Type} (k : string) (d : kwargs V) : option V :=
  match d with
  | [] => None
  | (k', v) :: d' => if String.eqb k k' then Some v else kw_get k d'
  end.

(** [d[k] = v] *)
Fixpoint dict_set {V : Type} (k : string) (v : V) (d : kwargs V) : kwargs V :=
  match d with
  | [] => [(k, v)]
  | (k', v') :: d' =>
      if String.eqb k k' then (k, v) :: d' else (k', v') :: dict_set k v d'
  end.

(** Binding a keyword to a named parameter of a method: a parameter that
    receives no keyword is a [TypeError]. *)
Definition param {V : Type} (k : string) (d : kwargs V) : result V :=
  match kw_get k d with
  | Some v => Val v
  | None => Raise (TypeError ("missing argument " +:+ k))
  end.

(** [a, b = t] *)
Definition unpack2 (t : shape) : result (nat * nat) :=
  match t with
  | [a; b] => Val (a, b)
  | _ => Raise (ValueError "unpack")
  end.

(** [t[i]] on a tuple *)
Definition tuple_get (t : shape) (i : nat) : result nat :=
  match nth_error t i with
  | Some x => Val x
  | None => Raise IndexError
  end.

(** [assert(b)] *)
Definition py_assert (b : bool) : result unit :=
  if b then Val tt else Raise AssertionError.

(** ** Posteriors

    The Q-distribution classes are defined in [bayesflow.models.q_distributions];
    the node code reads the attributes below. *)

Record qdist_ (array : Type) : Type := mk_qdist {
  q_observed : bool;            (* isinstance(q, ObservedQDistribution) *)
  q_output_shape : shape;
  q_mean : array;
  q_variance : array;
  q_sample : array;
  q_probs : option array;
  q_entropy : R                 (* q.entropy() *)
}.
Arguments mk_qdist {array}.
Arguments q_observed {array}.
Arguments q_output_shape {array}.
Arguments q_mean {array}.
Arguments q_variance {array}.
Arguments q_sample {array}.
Arguments q_probs {array}.
Arguments q_entropy {array}.

(** ** The numeric libraries *)

Class Backend : Type := {
  array : Type;                 (* numpy arrays and TensorFlow tensors *)
  raw : Type;                   (* constants handed to a constructor *)
  rng_state : Type;             (* numpy's global generator *)
  (* Python and numpy *)
  str_hash : string -> Z;                          (* s.__hash__() *)
  raw_dtype : raw -> option np_dtype;                 (* value.dtype, when it exists *)
  np_asarray : raw -> np_dtype -> result array;       (* np.asarray(value, dtype=d) *)
  np_astype : array -> np_dtype -> result array;      (* np.asarray(a, dtype=d) *)
  np_shape : array -> shape;                       (* a.shape *)
  np_zeros : shape -> array;                       (* an array of zeros *)
  np_scalar : R -> array;                          (* a Python float as operand *)
  np_binop : binop -> array -> array -> result array;
  np_dot : array -> array -> result array;
  np_T : array -> array;                           (* a.T *)
  np_cumsum0 : array -> result array;              (* np.cumsum(a, axis=0) *)
  np_tril_ones : nat -> array;                     (* np.float32(np.tril(np.ones((n, n)))) *)
  np_arange : nat -> array;                        (* np.arange(n) *)
  np_take : array -> array -> result array;        (* a[idx] *)
  np_random_initial : rng_state;
  np_random_seed : Z -> rng_state;
  np_random_randn : shape -> rng_state -> result array * rng_state;
  (* np.random.choice(a, size=(n,), p=weights); p=None is the uniform law *)
  np_random_choice :
    array -> nat -> option array -> rng_state -> result array * rng_state;
  (* TensorFlow *)
  tf_binop : binop -> array -> array -> result array;
  tf_square : array -> result array;
  tf_log : array -> result array;
  tf_matmul : bool -> array -> array -> result array;   (* first argument: transpose_a *)
  tf_transpose : array -> result array;
  tf_reduce_sum : array -> result R;
  tf_reduce_sum_axis : array -> nat -> result array;
  tf_unpack : array -> result (list array);
  tf_getitem : array -> nat -> result array;
  (* bayesflow.dists, bayesflow.util, bayesflow.models.q_distributions *)
  gaussian_log_density :
    array -> array -> option array -> option array -> result array;
      (* (x, mean, stddev, variance) *)
  logsumexp : array -> array -> result array;
  q_initialize_to_value : qdist_ array -> option array -> result (qdist_ array)
}.

Abbreviation qdist := (qdist_ array).

(** Modelled from the spec: [ObservedQDistribution(value)], whose class is in
    [bayesflow.models.q_distributions]: mean = the observed value,
    variance = 0 (an array of zeros of the value's shape), entropy = 0; its
    shape is the value's; the observed value is also its sample. *)
Definition ObservedQDistribution `{Backend} (value : array) : qdist :=
  {| q_observed := true;
     q_output_shape := np_shape value;
     q_mean := value;
     q_variance := np_zeros (np_shape value);
     q_sample := value;
     q_probs := None;
     q_entropy := 0%R |}.

(** ** Nodes *)

Inductive kind : Type :=
| FlatDistribution
| NoisyGaussianMatrixProduct
| NoisyCumulativeSum
| NoisyLatentFeatures
| GMMClustering
| MultiplicativeGaussianNoise.

Global Instance kind_eq_dec : EqDecision kind.
Proof. solve_decision. Defined.

Definition class_name (c : kind) : string :=
  match c with
  | FlatDistribution => "FlatDistribution"
  | NoisyGaussianMatrixProduct => "NoisyGaussianMatrixProduct"
  | NoisyCumulativeSum => "NoisyCumulativeSum"
  | NoisyLatentFeatures => "NoisyLatentFeatures"
  | GMMClustering => "GMMClustering"
  | MultiplicativeGaussianNoise => "MultiplicativeGaussianNoise"
  end.

Abbreviation node_id := nat.
Abbreviation q_ref := nat.

(** What a constructor receives for an input: a node, [None], or a constant. *)
Inductive pyarg `{Backend} : Type :=
| ArgNode (p : node_id)
| ArgNone
| ArgRaw (v : raw).
Arguments ArgNode {_} p.
Arguments ArgNone {_}.
Arguments ArgRaw {_} v.

Record node `{Backend} : Type := mk_node {
  cls : kind;
  name : string;
  minibatch_scale_factor : option R;
  input_nodes : kwargs node_id;
  output_shape : shape;
  dtype : np_dtype;
  ancestors : gset node_id;
  _sampled_value : option array;
  _sampled_value_seed : option Z;
  _q_distribution : option q_ref;
  (* attributes assigned by the subclasses *)
  value : option array;         (* FlatDistribution *)
  K : option nat;               (* NoisyGaussianMatrixProduct, NoisyLatentFeatures *)
  rescale : option bool;        (* NoisyGaussianMatrixProduct *)
  n_clusters : option nat       (* GMMClustering *)
}.
Arguments mk_node {_}.

Definition set_sampled_value `{Backend} (v : option array) (n : node) : node :=
  mk_node (cls n) (name n) (minibatch_scale_factor n) (input_nodes n)
    (output_shape n) (dtype n) (ancestors n) v (_sampled_value_seed n)
    (_q_distribution n) (value n) (K n) (rescale n) (n_clusters n).

Definition set_sampled_value_seed `{Backend} (s : option Z) (n : node) : node :=
  mk_node (cls n) (name n) (minibatch_scale_factor n) (input_nodes n)
    (output_shape n) (dtype n) (ancestors n) (_sampled_value n) s
    (_q_distribution n) (value n) (K n) (rescale n) (n_clusters n).

Definition set_q_distribution `{Backend} (q : option q_ref) (n : node) : node :=
  mk_node (cls n) (name n) (minibatch_scale_factor n) (input_nodes n)
    (output_shape n) (dtype n) (ancestors n) (_sampled_value n)
    (_sampled_value_seed n) q (value n) (K n) (rescale n) (n_clusters n).

Definition set_minibatch_scale_factor `{Backend} (s : option R) (n : node) : node :=
  mk_node (cls n) (name n) s (input_nodes n)
    (output_shape n) (dtype n) (ancestors n) (_sampled_value n)
    (_sampled_value_seed n) (_q_distribution n) (value n) (K n) (rescale n)
    (n_clusters n).

Definition set_K `{Backend} (k : nat) (n : node) : node :=
  mk_node (cls n) (name n) (minibatch_scale_factor n) (input_nodes n)
    (output_shape n) (dtype n) (ancestors n) (_sampled_value n)
    (_sampled_value_seed n) (_q_distribution n) (value n) (Some k) (rescale n)
    (n_clusters n).

Definition set_rescale `{Backend} (b : bool) (n : node) : node :=
  mk_node (cls n) (name n) (minibatch_scale_factor n) (input_nodes n)
    (output_shape n) (dtype n) (ancestors n) (_sampled_value n)
    (_sampled_value_seed n) (_q_distribution n) (value n) (K n) (Some b)
    (n_clusters n).

Definition set_n_clusters `{Backend} (k : nat) (n : node) : node :=
  mk_node (cls n) (name n) (minibatch_scale_factor n) (input_nodes n)
    (output_shape n) (dtype n) (ancestors n) (_sampled_value n)
    (_sampled_value_seed n) (_q_distribution n) (value n) (K n) (rescale n)
    (Some k).

(** [self.attr] for an attribute a subclass may not have assigned yet. *)
Definition getattr {A : Type} (attr : string) (o : option A) : result A :=
  match o with
  | Some a => Val a
  | None => Raise (AttributeError attr)
  end.

(** ** The store and the monad of methods *)

Record state `{Backend} : Type := mk_state {
  nodes : list node;
  qdists : list qdist;
  rng : rng_state
}.
Arguments mk_state {_}.

Definition initial_state `{Backend} : state := mk_state [] [] np_random_initial.

(** A method maps a state to an outcome and the state it leaves.  [None] is
    not a Python behaviour: the recursion budget of the model ran out, or a
    reference does not point into the store. *)
Definition M `{Backend} (A : Type) : Type := state -> option (result A * state).

Definition ret `{Backend} {A : Type} (a : A) : M A := fun s => Some (Val a, s).

Definition raise `{Backend} {A : Type} (e : exn) : M A := fun s => Some (Raise e, s).

Definition stuck `{Backend} {A : Type} : M A := fun _ => None.

Definition bind `{Backend} {A B : Type} (m : M A) (f : A -> M B) : M B :=
  fun s =>
    match m s with
    | Some (Val a, s') => f a s'
    | Some (Raise e, s') => Some (Raise e, s')
    | None => None
    end.

Declare Scope py_scope.
Delimit Scope py_scope with py.
Notation "x <- m ;; k" := (bind m (fun x => k))
  (at level 100, m at next level, right associativity) : py_scope.
Notation "m ;;; k" := (bind m (fun _ => k))
  (at level 100, right associativity) : py_scope.
Open Scope py_scope.

Definition lift `{Backend} {A : Type} (r : result A) : M A :=
  match r with
  | Val a => ret a
  | Raise e => raise e
  end.

(** [try: m except Exception: pass] *)
Definition try_except `{Backend} {A : Type} (m : M A) : M unit :=
  fun s =>
    match m s with
    | Some (_, s') => Some (Val tt, s')
    | None => None
    end.

Definition get_node `{Backend} (i : node_id) : M node :=
  fun s =>
    match nodes s !! i with
    | Some n => Some (Val n, s)
    | None => None
    end.

(** Assignment to attributes of the object [i]. *)
Definition modify_node `{Backend} (i : node_id) (f : node -> node) : M unit :=
  fun s =>
    match nodes s !! i with
    | Some n => Some (Val tt, mk_state (<[i := f n]> (nodes s)) (qdists s) (rng s))
    | None => None
    end.

(** A new node object; it learns its own identity. *)
Definition alloc_node `{Backend} (mk : node_id -> node) : M node_id :=
  fun s =>
    let i := length (nodes s) in
    Some (Val i, mk_state (nodes s ++ [mk i]) (qdists s) (rng s)).

Definition get_q `{Backend} (q : q_ref) : M qdist :=
  fun s =>
    match qdists s !! q with
    | Some d => Some (Val d, s)
    | None => None
    end.

Definition put_q `{Backend} (q : q_ref) (d : qdist) : M unit :=
  fun s =>
    match qdists s !! q with
    | Some _ => Some (Val tt, mk_state (nodes s) (<[q := d]> (qdists s)) (rng s))
    | None => None
    end.

Definition alloc_q `{Backend} (d : qdist) : M q_ref :=
  fun s =>
    let q := length (qdists s) in
    Some (Val q, mk_state (nodes s) (qdists s ++ [d]) (rng s)).

Definition set_rng `{Backend} (r : rng_state) : M unit :=
  fun s => Some (Val tt, mk_state (nodes s) (qdists s) r).

(** A library call that uses the global generator. *)
Definition with_rng `{Backend} {A : Type}
    (f : rng_state -> result A * rng_state) : M A :=
  fun s =>
    let '(r, g) := f (rng s) in
    Some (r, mk_state (nodes s) (qdists s) g).

Fixpoint for_each `{Backend} {A B : Type} (f : A -> M B) (l : list A) : M (list B) :=
  match l with
  | [] => ret []
  | a :: l' => b <- f a ;; bs <- for_each f l' ;; ret (b :: bs)
  end.

(** The keywords [output_shape], [dtype], [minibatch_scale_factor] and [name]
    of a constructor; [kw_uuid] is the value [uuid.uuid4().hex] takes when a
    name has to be made up. *)
Record init_kwargs : Type := mk_init_kwargs {
  kw_output_shape : option shape;
  kw_dtype : option np_dtype;
  kw_minibatch_scale_factor : option R;
  kw_name : option string;
  kw_uuid : string
}.

Definition named (nm : string) : init_kwargs :=
  mk_init_kwargs None None None (Some nm) EmptyString.

(** ** Classes

    The methods a node class provides and the base class calls through
    [self]. *)

Record node_class `{Backend} : Type := mk_class {
  inputs : list string;
  _compute_shape : kwargs shape -> result shape;
  (* first argument: [self.dtype] as assigned before the base constructor ran *)
  _compute_dtype : option np_dtype -> kwargs np_dtype -> result np_dtype;
  (* runs against the global generator *)
  _sample : node -> kwargs (option array) -> rng_state -> result array * rng_state;
  _expected_logp : node -> kwargs qdist -> result R;
  default_q : node -> M q_ref
}.
Arguments mk_class {_}.

(** Binding of keywords to the named parameters of a method. *)
Definition call0 {V X : Type} (f : result X) (kws : kwargs V) : result X :=
  match kws with
  | [] => f
  | _ :: _ => Raise (TypeError "unexpected keyword argument")
  end.

Definition call2 {V X : Type} (a b : string) (f : V -> V -> result X)
    (kws : kwargs V) : result X :=
  (x <~ param a kws ;; y <~ param b kws ;; f x y)%res.

Definition call3 {V X : Type} (a b c : string) (f : V -> V -> V -> result X)
    (kws : kwargs V) : result X :=
  (x <~ param a kws ;; y <~ param b kws ;; z <~ param c kws ;; f x y z)%res.

Definition call4 {V X : Type} (a b c d : string) (f : V -> V -> V -> V -> result X)
    (kws : kwargs V) : result X :=
  (x <~ param a kws ;; y <~ param b kws ;; z <~ param c kws ;; w <~ param d kws ;;
   f x y z w)%res.

(** A sampled value used as an array operand; [None] is no operand. *)
Definition operand {A : Type} (v : option A) : result A :=
  match v with
  | Some a => Val a
  | None => Raise (TypeError "NoneType operand")
  end.

(** A method body that draws from the generator first and computes after. *)
Definition draw_then `{Backend} {A X : Type}
    (d : rng_state -> result A * rng_state) (k : A -> result X)
    (g : rng_state) : result X * rng_state :=
  let '(r, g') := d g in (result_bind r k, g').

Section ConditionalDistribution_base.
Context `{Backend}.

(** [name] of __init__, lines 24-27; [uuid_hex] is [uuid.uuid4().hex]. *)
Definition resolve_name (c : kind) (name : option string) (uuid_hex : string)
    : string :=
  match name with
  | Some s => s
  | None => class_name c +:+ "_" +:+ String.substring 0 6 uuid_hex
  end.

(** __init__, lines 46-71, for the class [C] of the new object. *)
Definition init_after_inputs (c : kind) (C : node_class)
    (pre_dtype : option np_dtype) (pre_value : option array)
    (output_shape_arg : option shape) (dtype_arg : option np_dtype)
    (minibatch_scale_factor_arg : option R) (name_arg : string)
    (input_nodes_arg : kwargs node_id) : M node_id :=
  shp <- match output_shape_arg with
         | Some s => ret s
         | None =>
             input_shapes <-
               for_each (fun '(nm, p) =>
                           n <- get_node p ;; ret (nm +:+ "_shape", output_shape n))
                        input_nodes_arg ;;
             lift (_compute_shape C input_shapes)
         end ;;
  dt <- match dtype_arg with
        | Some d => ret d
        | None =>
            input_dtypes <-
              for_each (fun '(nm, p) =>
                          n <- get_node p ;; ret (nm +:+ "_dtype", dtype n))
                       input_nodes_arg ;;
            lift (_compute_dtype C pre_dtype input_dtypes)
        end ;;
  parent_ancestors <-
    for_each (fun '(_, p) => n <- get_node p ;; ret (ancestors n)) input_nodes_arg ;;
  alloc_node (fun self =>
    mk_node c name_arg minibatch_scale_factor_arg input_nodes_arg shp dt
      ({[self]} ∪ ⋃ parent_ancestors)
      None None None pre_value None None None).

Definition ConditionalDistribution_attach_q (self : node_id) (q : q_ref) : M unit :=
  n <- get_node self ;;
  match _q_distribution n with
  | Some _ =>
      raise (PyException "trying to attach Q distribution, but another distribution is already attached!")
  | None =>
      d <- get_q q ;;
      lift (py_assert (bool_decide (output_shape n = q_output_shape d))) ;;;
      modify_node self (set_q_distribution (Some q))
  end.

Definition ConditionalDistribution_default_q (n : node) : M q_ref :=
  raise (PyException "default Q distribution not implemented!").

(** The Monte Carlo default of _expected_logp: the loop over the keywords. *)
Fixpoint posterior_samples (kws : kwargs qdist) (samples : kwargs array)
    : result (kwargs array) :=
  match kws with
  | [] => Val samples
  | (q_key, qd) :: rest =>
      (_ <~ py_assert (String.prefix "q_" q_key) ;;
       let key := String.substring 2 (String.length q_key - 2) q_key in
       posterior_samples rest (dict_set key (q_sample qd) samples))%res
  end.

Definition ConditionalDistribution__expected_logp
    (_logp : kwargs array -> result R) (kws : kwargs qdist) : result R :=
  (samples <~ posterior_samples kws [] ;; _logp samples)%res.

(** *** FlatDistribution *)

Definition FlatDistribution_inputs : list string := [].

Definition FlatDistribution__sample (self : node) : result array :=
  getattr "value" (value self).

Definition FlatDistribution__compute_dtype (self_dtype : option np_dtype)
    : result np_dtype :=
  getattr "dtype" self_dtype.

Definition FlatDistribution__logp (result_ : array) : result R := Val 0%R.

Definition FlatDistribution_class : node_class :=
  {| inputs := FlatDistribution_inputs;
     (* the class has no _compute_shape *)
     _compute_shape := fun _ => Raise (AttributeError "_compute_shape");
     _compute_dtype := fun d => call0 (FlatDistribution__compute_dtype d);
     _sample := fun self kws g => (call0 (FlatDistribution__sample self) kws, g);
     _expected_logp := fun self =>
       ConditionalDistribution__expected_logp
         (fun kws => (r <~ param "result" kws ;;
                      match kws with
                      | [_] => FlatDistribution__logp r
                      | _ => Raise (TypeError "unexpected keyword argument")
                      end)%res);
     default_q := ConditionalDistribution_default_q |}.

(** [FlatDistribution(value, fixed, **kwargs)].  The class declares no
    inputs, so the loop of the base constructor (lines 33-43) has no
    iteration and the base constructor is [init_after_inputs].  The call of
    the base constructor passes output_shape itself: a second output_shape
    among the keywords is a TypeError. *)
Definition FlatDistribution___init__ (value_arg : raw) (fixed : bool)
    (kw : init_kwargs) : M node_id :=
  let self_dtype :=
    match raw_dtype value_arg with Some d => d | None => float32 end in
  self_value <- lift (np_asarray value_arg self_dtype) ;;
  let output_shape_ := np_shape self_value in
  match kw_output_shape kw with
  | Some _ => raise (TypeError "multiple values for keyword argument output_shape")
  | None => ret tt
  end ;;;
  self <- init_after_inputs FlatDistribution FlatDistribution_class
            (Some self_dtype) (Some self_value) (Some output_shape_) (kw_dtype kw)
            (kw_minibatch_scale_factor kw)
            (resolve_name FlatDistribution (kw_name kw) (kw_uuid kw)) [] ;;
  (if fixed
   then q <- alloc_q (ObservedQDistribution self_value) ;;
        ConditionalDistribution_attach_q self q
   else ret tt) ;;;
  ret self.

(** *** The base class, over the method table of the classes *)

Variable methods : kind -> node_class.

(** __init__, lines 32-43. *)
Fixpoint wire_inputs (self_name : string) (names : list string)
    (kws : kwargs pyarg) (input_nodes_ : kwargs node_id) : M (kwargs node_id) :=
  match names with
  | [] => ret input_nodes_
  | input_name :: rest =>
      match kw_get input_name kws with
      | None => raise (KeyError input_name)
      | Some (ArgNode p) =>
          get_node p ;;;
          wire_inputs self_name rest kws (dict_set input_name p input_nodes_)
      | Some ArgNone => wire_inputs self_name rest kws input_nodes_
      | Some (ArgRaw v) =>
          constant_node <-
            FlatDistribution___init__ v true
              (named (self_name +:+ "_" +:+ input_name +:+ "_fixed")) ;;
          wire_inputs self_name rest kws
            (dict_set input_name constant_node input_nodes_)
      end
  end.

Definition ConditionalDistribution___init__ (c : kind) (kw : init_kwargs)
    (kws : kwargs pyarg) : M node_id :=
  let nm := resolve_name c (kw_name kw) (kw_uuid kw) in
  input_nodes_ <- wire_inputs nm (inputs (methods c)) kws [] ;;
  init_after_inputs c (methods c) None None (kw_output_shape kw) (kw_dtype kw)
    (kw_minibatch_scale_factor kw) nm input_nodes_.

(** [sample(seed)].  [fuel] bounds the depth of the recursion through the
    parents. *)
Fixpoint ConditionalDistribution_sample (fuel : nat) (self : node_id) (seed : Z)
    : M (option array) :=
  match fuel with
  | O => stuck
  | S fuel' =>
      n <- get_node self ;;
      (if bool_decide (Some seed ≠ _sampled_value_seed n)
       then
         input_samples <-
           for_each (fun '(nm, p) =>
                       v <- ConditionalDistribution_sample fuel' p seed ;; ret (nm, v))
                    (input_nodes n) ;;
         let salt := str_hash (name n) in
         let local_seed := ((seed + salt) mod (2 ^ 32))%Z in
         set_rng (np_random_seed local_seed) ;;;
         modify_node self (set_sampled_value_seed (Some seed)) ;;;
         n1 <- get_node self ;;
         v <- with_rng (_sample (methods (cls n1)) n1 input_samples) ;;
         modify_node self (set_sampled_value (Some v))
       else ret tt) ;;;
      n2 <- get_node self ;;
      ret (_sampled_value n2)
  end.

Definition ConditionalDistribution_q_distribution (self : node_id) : M q_ref :=
  n <- get_node self ;;
  match _q_distribution n with
  | None =>
      dq <- default_q (methods (cls n)) n ;;
      ConditionalDistribution_attach_q self dq
  | Some _ => ret tt
  end ;;;
  n' <- get_node self ;;
  match _q_distribution n' with
  | Some q => ret q
  | None => stuck       (* attach_q returned, so the slot is filled *)
  end.

Definition ConditionalDistribution_elbo_term (self : node_id) : M (R * R) :=
  n <- get_node self ;;
  input_qs <-
    for_each (fun '(nm, p) =>
                q <- ConditionalDistribution_q_distribution p ;; ret ("q_" +:+ nm, q))
             (input_nodes n) ;;
  q <- ConditionalDistribution_q_distribution self ;;
  n1 <- get_node self ;;
  q_result <- get_q q ;;
  input_qs' <- for_each (fun '(k, r) => d <- get_q r ;; ret (k, d)) input_qs ;;
  expected_lp <-
    lift (_expected_logp (methods (cls n1)) n1 (("q_result", q_result) :: input_qs')) ;;
  d <- get_q q ;;
  let entropy := q_entropy d in
  n2 <- get_node self ;;
  match minibatch_scale_factor n2 with
  | Some s => ret ((expected_lp * s)%R, (entropy * s)%R)
  | None => ret (expected_lp, entropy)
  end.

Definition ConditionalDistribution_observe (self : node_id) (observed_val : array)
    : M q_ref :=
  qd <- alloc_q (ObservedQDistribution observed_val) ;;
  ConditionalDistribution_attach_q self qd ;;;
  ret qd.

Fixpoint ConditionalDistribution_init_q_true (fuel : nat) (self : node_id)
    : M unit :=
  match fuel with
  | O => stuck
  | S fuel' =>
      n <- get_node self ;;
      for_each (fun '(_, p) => ConditionalDistribution_init_q_true fuel' p)
               (input_nodes n) ;;;
      q <- ConditionalDistribution_q_distribution self ;;
      d <- get_q q ;;
      if q_observed d
      then ret tt
      else try_except
             (n' <- get_node self ;;
              d' <- lift (q_initialize_to_value d (_sampled_value n')) ;;
              put_q q d')
  end.

End ConditionalDistribution_base.

(** ** The classes of matrix_decompositions.py *)

Section matrix_decompositions.
Context `{Backend}.

(** [np.asarray(np.random.randn of self.output_shape, dtype=self.dtype) * std] *)
Definition draw_noise (self : node) (g : rng_state) : result array * rng_state :=
  draw_then (np_random_randn (output_shape self))
    (fun z => np_astype z (dtype self)) g.

(** [std = q_std.sample; var = q_result.variance + tf.square(std)] *)
Definition noise_variance (q_result q_std : qdist) : result array :=
  (let std := q_sample q_std in
   std2 <~ tf_square std ;;
   tf_binop Add (q_variance q_result) std2)%res.

(** [np.sum(np.log(np.arange(1, K+1)))] *)
Definition log_factorial (k : nat) : R :=
  fold_right Rplus 0%R (map (fun i => ln (INR i)) (seq 1 k)).

(** *** NoisyGaussianMatrixProduct *)

Definition NoisyGaussianMatrixProduct_inputs : list string := ["A"; "B"; "std"].

Definition NoisyGaussianMatrixProduct__compute_shape (A_shape B_shape std_shape : shape)
    : result shape :=
  (NK <~ unpack2 A_shape ;;
   MK2 <~ unpack2 B_shape ;;
   _ <~ py_assert (bool_decide (snd NK = snd MK2)) ;;
   let prod_shape := [fst NK; fst MK2] in
   Val prod_shape)%res.

Definition NoisyGaussianMatrixProduct__compute_dtype (A_dtype B_dtype std_dtype : np_dtype)
    : result np_dtype :=
  (_ <~ py_assert (bool_decide (A_dtype = B_dtype)) ;;
   _ <~ py_assert (bool_decide (A_dtype = std_dtype)) ;;
   Val A_dtype)%res.

Definition NoisyGaussianMatrixProduct__sample (self : node)
    (A B std : option array) (g : rng_state) : result array * rng_state :=
  draw_then (draw_noise self)
    (fun z =>
       std' <~ operand std ;;
       noise <~ np_binop Mul z std' ;;
       B' <~ getattr "T" B ;;
       A' <~ operand A ;;
       prod <~ np_dot A' (np_T B') ;;
       rescale_ <~ getattr "rescale" (rescale self) ;;
       prod <~ (if rescale_ : bool
                then k <~ getattr "K" (K self) ;;
                     np_binop Div prod (np_scalar (INR k))
                else Val prod) ;;
       np_binop Add prod noise)%res g.

(** _expected_logp, lines 51-55 *)
Definition NoisyGaussianMatrixProduct_gaussian_lp (self : node)
    (q_result_mean mA mB var : array) : result R :=
  (mBt <~ tf_transpose mB ;;
   expected_result <~ tf_matmul false mA mBt ;;
   rescale_ <~ getattr "rescale" (rescale self) ;;
   expected_result <~ (if rescale_ : bool
                       then k <~ getattr "K" (K self) ;;
                            tf_binop Div expected_result (np_scalar (INR k))
                       else Val expected_result) ;;
   lp <~ gaussian_log_density q_result_mean expected_result None (Some var) ;;
   tf_reduce_sum lp)%res.

(** _expected_logp, lines 64-72 *)
Definition NoisyGaussianMatrixProduct_correction (self : node)
    (mA vA mB vB var : array) : result R :=
  (vBt <~ tf_transpose vB ;;
   vAvB <~ tf_matmul false vA vBt ;;
   mB2 <~ tf_square mB ;;
   mB2t <~ tf_transpose mB2 ;;
   vAmB <~ tf_matmul false vA mB2t ;;
   mA2 <~ tf_square mA ;;
   vBt' <~ tf_transpose vB ;;
   mAvB <~ tf_matmul false mA2 vBt' ;;
   s1 <~ tf_binop Add vAvB vAmB ;;
   s2 <~ tf_binop Add s1 mAvB ;;
   ratio <~ tf_binop Div s2 var ;;
   correction <~ tf_reduce_sum ratio ;;
   rescale_ <~ getattr "rescale" (rescale self) ;;
   if rescale_ : bool
   then k <~ getattr "K" (K self) ;; Val (correction / INR (k * k))%R
   else Val correction)%res.

Definition NoisyGaussianMatrixProduct__expected_logp (self : node)
    (q_result q_A q_B q_std : qdist) : result R :=
  (var <~ noise_variance q_result q_std ;;
   let mA := q_mean q_A in let vA := q_variance q_A in
   let mB := q_mean q_B in let vB := q_variance q_B in
   gaussian_lp <~ NoisyGaussianMatrixProduct_gaussian_lp self (q_mean q_result) mA mB var ;;
   correction <~ NoisyGaussianMatrixProduct_correction self mA vA mB vB var ;;
   let expected_lp := (gaussian_lp - 0.5 * correction)%R in
   Val expected_lp)%res.

Definition NoisyGaussianMatrixProduct_class : node_class :=
  {| inputs := NoisyGaussianMatrixProduct_inputs;
     _compute_shape :=
       call3 "A_shape" "B_shape" "std_shape" NoisyGaussianMatrixProduct__compute_shape;
     _compute_dtype := fun _ =>
       call3 "A_dtype" "B_dtype" "std_dtype" NoisyGaussianMatrixProduct__compute_dtype;
     _sample := fun self kws g =>
       match call3 "A" "B" "std" (fun a b s => Val (a, b, s)) kws with
       | Val (a, b, s) => NoisyGaussianMatrixProduct__sample self a b s g
       | Raise e => (Raise e, g)
       end;
     _expected_logp := fun self =>
       call4 "q_result" "q_A" "q_B" "q_std"
         (NoisyGaussianMatrixProduct__expected_logp self);
     default_q := ConditionalDistribution_default_q |}.

(** *** NoisyCumulativeSum *)

Definition NoisyCumulativeSum_inputs : list string := ["A"; "std"].

Definition NoisyCumulativeSum__compute_shape (A_shape std_shape : shape) : result shape :=
  Val A_shape.

Definition NoisyCumulativeSum__compute_dtype (A_dtype std_dtype : np_dtype)
    : result np_dtype :=
  (_ <~ py_assert (bool_decide (A_dtype = std_dtype)) ;; Val A_dtype)%res.

Definition NoisyCumulativeSum__sample (self : node) (A std : option array)
    (g : rng_state) : result array * rng_state :=
  draw_then (draw_noise self)
    (fun z =>
       std' <~ operand std ;;
       noise <~ np_binop Mul z std' ;;
       A' <~ operand A ;;
       c <~ np_cumsum0 A' ;;
       np_binop Add c noise)%res g.

Definition NoisyCumulativeSum__expected_logp (self : node)
    (q_result q_A q_std : qdist) : result R :=
  (var <~ noise_variance q_result q_std ;;
   let X := q_mean q_result in
   ND <~ unpack2 (output_shape self) ;;
   let cumsum_mat := np_tril_ones (fst ND) in
   (* [r = np.float32(np.arange(N, 0, -1)).reshape((1, -1))] is not used *)
   expected_X <~ tf_matmul false cumsum_mat (q_mean q_A) ;;
   gaussian_lp <~ gaussian_log_density X expected_X None (Some var) ;;
   inv_var <~ tf_binop Div (np_scalar 1%R) var ;;
   R_ <~ tf_matmul true cumsum_mat inv_var ;;
   half_R <~ tf_binop Mul (np_scalar (- 0.5)%R) R_ ;;
   corrections <~ tf_binop Mul half_R (q_variance q_A) ;;
   reduced_gaussian_lp <~ tf_reduce_sum gaussian_lp ;;
   reduced_correction <~ tf_reduce_sum corrections ;;
   Val (reduced_gaussian_lp + reduced_correction)%R)%res.

Definition NoisyCumulativeSum__logp (self : node) (result_ A std : array) : result R :=
  (ND <~ unpack2 (output_shape self) ;;
   let cumsum_mat := np_tril_ones (fst ND) in
   expected_X <~ tf_matmul false cumsum_mat A ;;
   var <~ tf_square std ;;
   gaussian_lp <~ gaussian_log_density result_ expected_X None (Some var) ;;
   tf_reduce_sum gaussian_lp)%res.

Definition NoisyCumulativeSum_class : node_class :=
  {| inputs := NoisyCumulativeSum_inputs;
     _compute_shape := call2 "A_shape" "std_shape" NoisyCumulativeSum__compute_shape;
     _compute_dtype := fun _ =>
       call2 "A_dtype" "std_dtype" NoisyCumulativeSum__compute_dtype;
     _sample := fun self kws g =>
       match call2 "A" "std" (fun a s => Val (a, s)) kws with
       | Val (a, s) => NoisyCumulativeSum__sample self a s g
       | Raise e => (Raise e, g)
       end;
     _expected_logp := fun self =>
       call3 "q_result" "q_A" "q_std" (NoisyCumulativeSum__expected_logp self);
     default_q := ConditionalDistribution_default_q |}.

(** *** NoisyLatentFeatures *)

Definition NoisyLatentFeatures_inputs : list string := ["B"; "G"; "std"].

Definition NoisyLatentFeatures__compute_shape (B_shape G_shape std_shape : shape)
    : result shape :=
  (NK <~ unpack2 B_shape ;;
   K2M <~ unpack2 G_shape ;;
   _ <~ py_assert (bool_decide (snd NK = fst K2M)) ;;
   let prod_shape := [fst NK; snd K2M] in
   Val prod_shape)%res.

Definition NoisyLatentFeatures__compute_dtype (B_dtype G_dtype std_dtype : np_dtype)
    : result np_dtype :=
  (_ <~ py_assert (bool_decide (G_dtype = std_dtype)) ;; Val G_dtype)%res.

Definition NoisyLatentFeatures__sample (self : node) (B G std : option array)
    (g : rng_state) : result array * rng_state :=
  draw_then (draw_noise self)
    (fun z =>
       std' <~ operand std ;;
       noise <~ np_binop Mul z std' ;;
       B' <~ operand B ;;
       G' <~ operand G ;;
       BG <~ np_dot B' G' ;;
       BG' <~ np_astype BG (dtype self) ;;
       np_binop Add BG' noise)%res g.

Definition NoisyLatentFeatures__expected_logp (self : node)
    (q_result q_B q_G q_std : qdist) : result R :=
  (var <~ noise_variance q_result q_std ;;
   let X_means := q_mean q_result in
   bernoulli_params <~ getattr "probs" (q_probs q_B) ;;
   expected_X <~ tf_matmul false bernoulli_params (q_mean q_G) ;;
   precisions <~ tf_binop Div (np_scalar 1%R) var ;;
   gaussian_lp <~ gaussian_log_density X_means expected_X None (Some var) ;;
   mu2 <~ tf_square (q_mean q_G) ;;
   tau_V <~ tf_matmul false bernoulli_params (q_variance q_G) ;;
   bp2 <~ tf_square bernoulli_params ;;
   bp_var <~ tf_binop Sub bernoulli_params bp2 ;;
   tau_tau2_mu2 <~ tf_matmul false bp_var mu2 ;;
   tmp <~ tf_binop Add tau_V tau_tau2_mu2 ;;
   lp_correction <~ tf_binop Mul tmp precisions ;;
   half <~ tf_binop Mul (np_scalar 0.5%R) lp_correction ;;
   pointwise_expected_lp <~ tf_binop Sub gaussian_lp half ;;
   tf_reduce_sum pointwise_expected_lp)%res.

Definition NoisyLatentFeatures_class : node_class :=
  {| inputs := NoisyLatentFeatures_inputs;
     _compute_shape :=
       call3 "B_shape" "G_shape" "std_shape" NoisyLatentFeatures__compute_shape;
     _compute_dtype := fun _ =>
       call3 "B_dtype" "G_dtype" "std_dtype" NoisyLatentFeatures__compute_dtype;
     _sample := fun self kws g =>
       match call3 "B" "G" "std" (fun b g_ s => Val (b, g_, s)) kws with
       | Val (b, g_, s) => NoisyLatentFeatures__sample self b g_ s g
       | Raise e => (Raise e, g)
       end;
     _expected_logp := fun self =>
       call4 "q_result" "q_B" "q_G" "q_std" (NoisyLatentFeatures__expected_logp self);
     default_q := ConditionalDistribution_default_q |}.

(** *** GMMClustering *)

Definition GMMClustering_inputs : list string := ["weights"; "centers"; "std"].

Definition GMMClustering__compute_shape (weights_shape centers_shape std_shape : shape)
    : result shape :=
  Raise (PyException
    "cannot infer shape for GMMClustering, must specify number of cluster draws").

Definition GMMClustering__compute_dtype (weights_dtype centers_dtype std_dtype : np_dtype)
    : result np_dtype :=
  (_ <~ py_assert (bool_decide (centers_dtype = std_dtype)) ;; Val centers_dtype)%res.

Definition GMMClustering__sample (self : node) (weights centers std : option array)
    (g : rng_state) : result array * rng_state :=
  let '(r, g1) := draw_noise self g in
  match (z <~ r ;;
         std' <~ operand std ;;
         noise <~ np_binop Mul z std' ;;
         ND <~ unpack2 (output_shape self) ;;
         k <~ getattr "n_clusters" (n_clusters self) ;;
         Val (noise, fst ND, k))%res with
  | Raise e => (Raise e, g1)
  | Val (noise, N, k) =>
      draw_then (np_random_choice (np_arange k) N weights)
        (fun choices =>
           centers' <~ operand centers ;;
           picked <~ np_take centers' choices ;;
           np_binop Add picked noise)%res g1
  end.

(** The loop over the clusters of _logp. *)
Fixpoint GMMClustering_logp_loop (result_ weights std : array)
    (i : nat) (centers : list array) (total_logps : option array)
    : result (option array) :=
  match centers with
  | [] => Val total_logps
  | center :: rest =>
      (lls <~ gaussian_log_density result_ center (Some std) None ;;
       cluster_lls <~ tf_reduce_sum_axis lls 1 ;;
       w <~ tf_getitem weights i ;;
       lw <~ tf_log w ;;
       cluster_logps <~ tf_binop Add lw cluster_lls ;;
       total <~ match total_logps with
                | Some t => logsumexp t cluster_logps
                | None => Val cluster_logps
                end ;;
       GMMClustering_logp_loop result_ weights std (S i) rest (Some total))%res
  end.

Definition GMMClustering__logp (self : node) (result_ weights centers std : array)
    : result R :=
  (cs <~ tf_unpack centers ;;
   total_logps <~ GMMClustering_logp_loop result_ weights std 0 cs None ;;
   total <~ operand total_logps ;;
   tf_reduce_sum total)%res.

Definition GMMClustering_class : node_class :=
  {| inputs := GMMClustering_inputs;
     _compute_shape :=
       call3 "weights_shape" "centers_shape" "std_shape" GMMClustering__compute_shape;
     _compute_dtype := fun _ =>
       call3 "weights_dtype" "centers_dtype" "std_dtype" GMMClustering__compute_dtype;
     _sample := fun self kws g =>
       match call3 "weights" "centers" "std" (fun w c s => Val (w, c, s)) kws with
       | Val (w, c, s) => GMMClustering__sample self w c s g
       | Raise e => (Raise e, g)
       end;
     _expected_logp := fun self =>
       ConditionalDistribution__expected_logp
         (call4 "result" "weights" "centers" "std" (GMMClustering__logp self));
     default_q := ConditionalDistribution_default_q |}.

(** *** MultiplicativeGaussianNoise *)

Definition MultiplicativeGaussianNoise_inputs : list string := ["A"; "std"].

Definition MultiplicativeGaussianNoise__compute_shape (A_shape std_shape : shape)
    : result shape :=
  Val A_shape.

Definition MultiplicativeGaussianNoise__compute_dtype (A_dtype std_dtype : np_dtype)
    : result np_dtype :=
  (_ <~ py_assert (bool_decide (A_dtype = std_dtype)) ;; Val A_dtype)%res.

Definition MultiplicativeGaussianNoise__sample (self : node) (A std : option array)
    (g : rng_state) : result array * rng_state :=
  draw_then (draw_noise self)
    (fun z =>
       std' <~ operand std ;;
       noise <~ np_binop Mul z std' ;;
       A' <~ operand A ;;
       np_binop Mul A' noise)%res g.

Definition MultiplicativeGaussianNoise__logp (self : node) (result_ A std : array)
    : result R :=
  (residuals <~ tf_binop Div result_ A ;;
   lp <~ gaussian_log_density residuals (np_scalar 0%R) (Some std) None ;;
   tf_reduce_sum lp)%res.

Definition MultiplicativeGaussianNoise_class : node_class :=
  {| inputs := MultiplicativeGaussianNoise_inputs;
     _compute_shape :=
       call2 "A_shape" "std_shape" MultiplicativeGaussianNoise__compute_shape;
     _compute_dtype := fun _ =>
       call2 "A_dtype" "std_dtype" MultiplicativeGaussianNoise__compute_dtype;
     _sample := fun self kws g =>
       match call2 "A" "std" (fun a s => Val (a, s)) kws with
       | Val (a, s) => MultiplicativeGaussianNoise__sample self a s g
       | Raise e => (Raise e, g)
       end;
     _expected_logp := fun self =>
       ConditionalDistribution__expected_logp
         (call3 "result" "A" "std" (MultiplicativeGaussianNoise__logp self));
     default_q := ConditionalDistribution_default_q |}.

(** The method table of the source. *)
Definition classes (c : kind) : node_class :=
  match c with
  | FlatDistribution => FlatDistribution_class
  | NoisyGaussianMatrixProduct => NoisyGaussianMatrixProduct_class
  | NoisyCumulativeSum => NoisyCumulativeSum_class
  | NoisyLatentFeatures => NoisyLatentFeatures_class
  | GMMClustering => GMMClustering_class
  | MultiplicativeGaussianNoise => MultiplicativeGaussianNoise_class
  end.

End matrix_decompositions.

(** ** Constructors and overridden methods of the subclasses *)

Section subclasses.
Context `{Backend}.

(** [x.output_shape] for a constructor argument [x]: only nodes have it. *)
Definition arg_output_shape (x : pyarg) : M shape :=
  match x with
  | ArgNode p => n <- get_node p ;; ret (output_shape n)
  | ArgNone => raise (AttributeError "output_shape")
  | ArgRaw _ => raise (AttributeError "output_shape")
  end.

Definition NoisyGaussianMatrixProduct___init__ (A B std : pyarg) (rescale_arg : bool)
    (kw : init_kwargs) : M node_id :=
  self <- ConditionalDistribution___init__ classes NoisyGaussianMatrixProduct kw
            [("A", A); ("B", B); ("std", std)] ;;
  A_output_shape <- arg_output_shape A ;;
  k <- lift (tuple_get A_output_shape 1) ;;
  modify_node self (set_K k) ;;;
  modify_node self (set_rescale rescale_arg) ;;;
  ret self.

Definition NoisyCumulativeSum___init__ (A std : pyarg) (kw : init_kwargs) : M node_id :=
  ConditionalDistribution___init__ classes NoisyCumulativeSum kw
    [("A", A); ("std", std)].

Definition NoisyLatentFeatures___init__ (B G std : pyarg) (kw : init_kwargs)
    : M node_id :=
  self <- ConditionalDistribution___init__ classes NoisyLatentFeatures kw
            [("B", B); ("G", G); ("std", std)] ;;
  B_output_shape <- arg_output_shape B ;;
  k <- lift (tuple_get B_output_shape 1) ;;
  modify_node self (set_K k) ;;;
  ret self.

Definition GMMClustering___init__ (weights centers std : pyarg) (kw : init_kwargs)
    : M node_id :=
  self <- ConditionalDistribution___init__ classes GMMClustering kw
            [("weights", weights); ("centers", centers); ("std", std)] ;;
  centers_output_shape <- arg_output_shape centers ;;
  k <- lift (tuple_get centers_output_shape 0) ;;
  modify_node self (set_n_clusters k) ;;;
  ret self.

Definition MultiplicativeGaussianNoise___init__ (A std : pyarg) (kw : init_kwargs)
    : M node_id :=
  ConditionalDistribution___init__ classes MultiplicativeGaussianNoise kw
    [("A", A); ("std", std)].

Definition NoisyGaussianMatrixProduct_elbo_term (self : node_id)
    (symmetry_correction_hack : bool) : M (R * R) :=
  r <- ConditionalDistribution_elbo_term classes self ;;
  let '(expected_logp, entropy) := r in
  if symmetry_correction_hack
  then
    n <- get_node self ;;
    k <- lift (getattr "K" (K n)) ;;
    let permutation_correction := log_factorial k in
    k' <- lift (getattr "K" (K n)) ;;
    let signflip_correction := (INR k' * ln 2)%R in
    ret ((expected_logp + permutation_correction + signflip_correction)%R, entropy)
  else ret (expected_logp, entropy).

Definition NoisyLatentFeatures_elbo_term (self : node_id)
    (symmetry_correction_hack : bool) : M (R * R) :=
  r <- ConditionalDistribution_elbo_term classes self ;;
  let '(expected_logp, entropy) := r in
  if symmetry_correction_hack
  then
    n <- get_node self ;;
    k <- lift (getattr "K" (K n)) ;;
    let permutation_correction := log_factorial k in
    ret ((expected_logp + permutation_correction)%R, entropy)
  else ret (expected_logp, entropy).

Definition GMMClustering_elbo_term (self : node_id)
    (symmetry_correction_hack : bool) : M (R * R) :=
  r <- ConditionalDistribution_elbo_term classes self ;;
  let '(expected_logp, entropy) := r in
  if symmetry_correction_hack
  then
    n <- get_node self ;;
    k <- lift (getattr "n_clusters" (n_clusters n)) ;;
    let permutation_correction := log_factorial k in
    ret ((expected_logp + permutation_correction)%R, entropy)
  else ret (expected_logp, entropy).

(** ** Method calls on a node: dispatch on its class *)

Definition sample (fuel : nat) (self : node_id) (seed : Z) : M (option array) :=
  ConditionalDistribution_sample classes fuel self seed.

Definition q_distribution (self : node_id) : M q_ref :=
  ConditionalDistribution_q_distribution classes self.

Definition attach_q (self : node_id) (q : q_ref) : M unit :=
  ConditionalDistribution_attach_q self q.

Definition observe (self : node_id) (observed_val : array) : M q_ref :=
  ConditionalDistribution_observe self observed_val.

Definition init_q_true (fuel : nat) (self : node_id) : M unit :=
  ConditionalDistribution_init_q_true classes fuel self.

(** [n.elbo_term()] and [n.elbo_term(symmetry_correction_hack=b)].  The
    keyword exists in three classes, with default [True]. *)
Definition elbo_term (self : node_id) (symmetry_correction_hack : option bool)
    : M (R * R) :=
  n <- get_node self ;;
  let hack := match symmetry_correction_hack with Some b => b | None => true end in
  match cls n with
  | NoisyGaussianMatrixProduct => NoisyGaussianMatrixProduct_elbo_term self hack
  | NoisyLatentFeatures => NoisyLatentFeatures_elbo_term self hack
  | GMMClustering => GMMClustering_elbo_term self hack
  | FlatDistribution | NoisyCumulativeSum | MultiplicativeGaussianNoise =>
      match symmetry_correction_hack with
      | None => ConditionalDistribution_elbo_term classes self
      | Some _ => raise (TypeError "unexpected keyword argument symmetry_correction_hack")
      end
  end.

(** ** Programs over the store

    What client code can do to a store: construct nodes and posteriors and
    call the methods of the nodes. *)

Inductive call : Type :=
| New_FlatDistribution (value_arg : raw) (fixed : bool) (kw : init_kwargs)
| New_NoisyGaussianMatrixProduct (A B std : pyarg) (rescale_arg : bool) (kw : init_kwargs)
| New_NoisyCumulativeSum (A std : pyarg) (kw : init_kwargs)
| New_NoisyLatentFeatures (B G std : pyarg) (kw : init_kwargs)
| New_GMMClustering (weights centers std : pyarg) (kw : init_kwargs)
| New_MultiplicativeGaussianNoise (A std : pyarg) (kw : init_kwargs)
| New_posterior (d : qdist)
| Call_sample (fuel : nat) (self : node_id) (seed : Z)
| Call_elbo_term (self : node_id) (symmetry_correction_hack : option bool)
| Call_q_distribution (self : node_id)
| Call_attach_q (self : node_id) (q : q_ref)
| Call_observe (self : node_id) (observed_val : array)
| Call_init_q_true (fuel : nat) (self : node_id).

Definition state_after {A : Type} (m : M A) (s : state) : option state :=
  match m s with
  | Some (_, s') => Some s'
  | None => None
  end.

Definition run (c : call) : state -> option state :=
  match c with
  | New_FlatDistribution v f kw => state_after (FlatDistribution___init__ v f kw)
  | New_NoisyGaussianMatrixProduct A B std r kw =>
      state_after (NoisyGaussianMatrixProduct___init__ A B std r kw)
  | New_NoisyCumulativeSum A std kw => state_after (NoisyCumulativeSum___init__ A std kw)
  | New_NoisyLatentFeatures B G std kw =>
      state_after (NoisyLatentFeatures___init__ B G std kw)
  | New_GMMClustering w c std kw => state_after (GMMClustering___init__ w c std kw)
  | New_MultiplicativeGaussianNoise A std kw =>
      state_after (MultiplicativeGaussianNoise___init__ A std kw)
  | New_posterior d => state_after (alloc_q d)
  | Call_sample fuel self seed => state_after (sample fuel self seed)
  | Call_elbo_term self h => state_after (elbo_term self h)
  | Call_q_distribution self => state_after (q_distribution self)
  | Call_attach_q self q => state_after (attach_q self q)
  | Call_observe self v => state_after (observe self v)
  | Call_init_q_true fuel self => state_after (init_q_true fuel self)
  end.

(** The stores a program can reach, whatever its calls return or raise. *)
Inductive reachable : state -> Prop :=
| reachable_initial : reachable initial_state
| reachable_step (s s' : state) (c : call) :
    reachable s -> run c s = Some s' -> reachable s'.

(** [ancestors(n) = {n} ∪ ⋃ ancestors(parent) for parent in input_nodes] for
    the node [n] at index [i] of the nodes [l]. *)
Definition ancestors_closed_at (l : list node) (i : node_id) (n : node) : Prop :=
  exists parent_ancestors : list (gset node_id),
    Forall2 (fun kp a => exists pn, l !! (snd kp) = Some pn /\ a = ancestors pn)
            (input_nodes n) parent_ancestors /\
    ancestors n = {[i]} ∪ ⋃ parent_ancestors.

End subclasses.

(** ** A reference backend

    Real scalars, vectors and matrices with the scalar broadcasting of numpy,
    and vectors of indices.  It stands for numpy and TensorFlow in the closed
    examples; combinations it does not cover are reported as [LibraryError]. *)

Module Reference.

Inductive rarray : Type :=
| RScalar (x : R)
| RVector (v : list R)
| RMatrix (rows : list (list R))
| RIndex (idx : list nat).

Definition rshape (a : rarray) : shape :=
  match a with
  | RScalar _ => []
  | RVector v => [length v]
  | RMatrix rows => [length rows; length (hd [] rows)]
  | RIndex idx => [length idx]
  end.

Definition rop (o : binop) : R -> R -> R :=
  match o with
  | Add => Rplus
  | Sub => Rminus
  | Mul => Rmult
  | Div => Rdiv
  end.

Fixpoint zip_exact {A B C : Type} (f : A -> B -> option C) (l1 : list A) (l2 : list B)
    : option (list C) :=
  match l1, l2 with
  | [], [] => Some []
  | a :: l1', b :: l2' =>
      match f a b, zip_exact f l1' l2' with
      | Some c, Some cs => Some (c :: cs)
      | _, _ => None
      end
  | _, _ => None
  end.

Definition rbinop (o : binop) (a b : rarray) : result rarray :=
  match a, b with
  | RScalar x, RScalar y => Val (RScalar (rop o x y))
  | RScalar x, RVector v => Val (RVector (map (rop o x) v))
  | RVector v, RScalar y => Val (RVector (map (fun x => rop o x y) v))
  | RScalar x, RMatrix m => Val (RMatrix (map (map (rop o x)) m))
  | RMatrix m, RScalar y => Val (RMatrix (map (map (fun x => rop o x y)) m))
  | RVector v, RVector w =>
      match zip_exact (fun x y => Some (rop o x y)) v w with
      | Some r => Val (RVector r)
      | None => Raise (ValueError "operands could not be broadcast together")
      end
  | RMatrix m, RMatrix m' =>
      match zip_exact (zip_exact (fun x y => Some (rop o x y))) m m' with
      | Some r => Val (RMatrix r)
      | None => Raise (ValueError "operands could not be broadcast together")
      end
  | RMatrix m, RVector v =>
      match mapM (fun row => zip_exact (fun x y => Some (rop o x y)) row v) m with
      | Some r => Val (RMatrix r)
      | None => Raise (ValueError "operands could not be broadcast together")
      end
  | RVector v, RMatrix m =>
      match mapM (fun row => zip_exact (fun x y => Some (rop o x y)) v row) m with
      | Some r => Val (RMatrix r)
      | None => Raise (ValueError "operands could not be broadcast together")
      end
  | _, _ => Raise (LibraryError "operands outside the reference backend")
  end.

Definition rmap (f : R -> R) (a : rarray) : result rarray :=
  match a with
  | RScalar x => Val (RScalar (f x))
  | RVector v => Val (RVector (map f v))
  | RMatrix m => Val (RMatrix (map (map f) m))
  | RIndex _ => Raise (LibraryError "operands outside the reference backend")
  end.

Definition rsum (l : list R) : R := fold_right Rplus 0%R l.

Definition dotp (u v : list R) : R := rsum (zip_with Rmult u v).

Definition columns (m : list (list R)) : list (list R) :=
  fold_right (fun row acc => zip_with cons row acc)
             (repeat [] (length (hd [] m))) m.

Definition matrix_product (a b : list (list R)) : result rarray :=
  if forallb (fun row => Nat.eqb (length row) (length b)) a
  then Val (RMatrix (map (fun row => map (dotp row) (columns b)) a))
  else Raise (ValueError "shapes not aligned").

Definition rdot (a b : rarray) : result rarray :=
  match a, b with
  | RMatrix m, RMatrix m' => matrix_product m m'
  | _, _ => Raise (LibraryError "operands outside the reference backend")
  end.

Definition rT (a : rarray) : rarray :=
  match a with
  | RMatrix m => RMatrix (columns m)
  | _ => a
  end.

Definition rmatmul (transpose_a : bool) (a b : rarray) : result rarray :=
  match a, b with
  | RMatrix m, RMatrix m' =>
      matrix_product (if transpose_a then columns m else m) m'
  | _, _ => Raise (ValueError "matmul needs matrices")
  end.

Definition running_sums (m : list (list R)) : list (list R) :=
  map (fun i => map rsum (columns (take (S i) m))) (seq 0 (length m)).

Definition rcumsum0 (a : rarray) : result rarray :=
  match a with
  | RMatrix m => Val (RMatrix (running_sums m))
  | _ => Raise (LibraryError "operands outside the reference backend")
  end.

Definition rtril_ones (n : nat) : rarray :=
  RMatrix (map (fun i => map (fun j => if Nat.leb j i then 1%R else 0%R) (seq 0 n))
               (seq 0 n)).

Definition rtake (a idx : rarray) : result rarray :=
  match a, idx with
  | RMatrix m, RIndex l =>
      match mapM (fun i => m !! i) l with
      | Some rows => Val (RMatrix rows)
      | None => Raise IndexError
      end
  | _, _ => Raise (LibraryError "operands outside the reference backend")
  end.

(** The generator: a counter; the draws are a fixed function of it. *)
Definition pseudo (g : Z) (i : nat) : R := IZR ((g + Z.of_nat i) mod 5 - 2).

Definition rrandn (s : shape) (g : Z) : result rarray * Z :=
  match s with
  | [] => (Val (RScalar (pseudo g 0)), (g + 1)%Z)
  | [n] => (Val (RVector (map (pseudo g) (seq 0 n))), (g + Z.of_nat n)%Z)
  | [n; m] =>
      (Val (RMatrix (map (fun i => map (fun j => pseudo g (i * m + j)) (seq 0 m))
                         (seq 0 n))),
       (g + Z.of_nat (n * m))%Z)
  | _ => (Raise (LibraryError "operands outside the reference backend"), g)
  end.

Definition rchoice (population : rarray) (size : nat) (p : option rarray) (g : Z)
    : result rarray * Z :=
  match population with
  | RIndex (x :: l) =>
      (Val (RIndex (map (fun i => nth (Z.to_nat ((g + Z.of_nat i) mod Z.of_nat (S (length l))))
                                      (x :: l) x)
                        (seq 0 size))),
       (g + Z.of_nat size)%Z)
  | _ => (Raise (ValueError "a must be non-empty"), g)
  end.

Definition rreduce_sum (a : rarray) : result R :=
  match a with
  | RScalar x => Val x
  | RVector v => Val (rsum v)
  | RMatrix m => Val (rsum (map rsum m))
  | RIndex _ => Raise (LibraryError "operands outside the reference backend")
  end.

Definition rreduce_sum_axis (a : rarray) (axis : nat) : result rarray :=
  match a, axis with
  | RMatrix m, 0%nat => Val (RVector (map rsum (columns m)))
  | RMatrix m, 1%nat => Val (RVector (map rsum m))
  | RVector v, 0%nat => Val (RScalar (rsum v))
  | _, _ => Raise (ValueError "invalid reduction dimension")
  end.

Definition runpack (a : rarray) : result (list rarray) :=
  match a with
  | RMatrix m => Val (map RVector m)
  | RVector v => Val (map RScalar v)
  | _ => Raise (ValueError "cannot unpack")
  end.

Definition rgetitem (a : rarray) (i : nat) : result rarray :=
  match a with
  | RVector v =>
      match v !! i with Some x => Val (RScalar x) | None => Raise IndexError end
  | RMatrix m =>
      match m !! i with Some r => Val (RVector r) | None => Raise IndexError end
  | _ => Raise IndexError
  end.

(** The density of a normal law, elementwise, in logarithm. *)
Definition rgaussian_log_density (x mean : rarray) (stddev variance : option rarray)
    : result rarray :=
  (var <~ match variance, stddev with
          | Some v, _ => Val v
          | None, Some s => rbinop Mul s s
          | None, None => Raise (TypeError "stddev or variance is required")
          end ;;
   d <~ rbinop Sub x mean ;;
   d2 <~ rbinop Mul d d ;;
   q <~ rbinop Div d2 var ;;
   lv <~ rmap (fun v => ln (2 * PI * v)%R) var ;;
   s <~ rbinop Add q lv ;;
   rbinop Mul (RScalar (- (1 / 2))%R) s)%res.

Definition rlogsumexp (a b : rarray) : result rarray :=
  (ea <~ rmap exp a ;; eb <~ rmap exp b ;; s <~ rbinop Add ea eb ;; rmap ln s)%res.

Definition rzeros (s : shape) : rarray :=
  match s with
  | [] => RScalar 0%R
  | [n] => RVector (repeat 0%R n)
  | n :: m :: _ => RMatrix (repeat (repeat 0%R m) n)
  end.

Definition string_hash (s : string) : Z :=
  fold_left (fun h c => (h * 31 + Z.of_nat (Ascii.nat_of_ascii c)) mod 2 ^ 61)%Z
            (String.list_ascii_of_string s) 7%Z.

Definition rinitialize_to_value (d : qdist_ rarray) (v : option rarray)
    : result (qdist_ rarray) :=
  match v with
  | Some a =>
      Val (mk_qdist (q_observed d) (q_output_shape d) a (q_variance d) a
                    (q_probs d) (q_entropy d))
  | None => Raise (TypeError "NoneType operand")
  end.

Definition backend : Backend :=
  {| array := rarray;
     raw := rarray * option np_dtype;
     rng_state := Z;
     str_hash := string_hash;
     raw_dtype := snd;
     np_asarray := fun v _ => Val (fst v);
     np_astype := fun a _ => Val a;
     np_shape := rshape;
     np_zeros := rzeros;
     np_scalar := RScalar;
     np_binop := rbinop;
     np_dot := rdot;
     np_T := rT;
     np_cumsum0 := rcumsum0;
     np_tril_ones := rtril_ones;
     np_arange := fun n => RIndex (seq 0 n);
     np_take := rtake;
     np_random_initial := 0%Z;
     np_random_seed := fun z => z;
     np_random_randn := rrandn;
     np_random_choice := rchoice;
     tf_binop := rbinop;
     tf_square := fun a => rbinop Mul a a;
     tf_log := rmap ln;
     tf_matmul := rmatmul;
     tf_transpose := fun a => Val (rT a);
     tf_reduce_sum := rreduce_sum;
     tf_reduce_sum_axis := rreduce_sum_axis;
     tf_unpack := runpack;
     tf_getitem := rgetitem;
     gaussian_log_density := rgaussian_log_density;
     logsumexp := rlogsumexp;
     q_initialize_to_value := rinitialize_to_value |}.

End Reference.

(** ** Notions used by the statements *)

Section notions.
Context `{Backend}.

(** A property of the store that a method keeps, whatever it returns. *)
Definition preserves {A : Type} (I : state -> Prop) (m : M A) : Prop :=
  forall s r s', I s -> m s = Some (r, s') -> I s'.

(** A node without its sample cache and its posterior slot: what the
    methods never assign. *)
Definition strip (n : node) : node :=
  set_sampled_value None (set_sampled_value_seed None (set_q_distribution None n)).

(** The store in which the node [self] has been given another
    [minibatch_scale_factor], everything else being the same. *)
Definition with_scale_factor (self : node_id) (f : option R) (s : state) : state :=
  mk_state (alter (set_minibatch_scale_factor f) self (nodes s)) (qdists s) (rng s).

(** The constant the overriding [elbo_term] of the node adds. *)
Definition symmetry_correction (n : node) (symmetry_correction_hack : option bool) : R :=
  match symmetry_correction_hack with
  | Some false => 0%R
  | _ =>
      match cls n with
      | NoisyGaussianMatrixProduct =>
          match K n with
          | Some k => (log_factorial k + INR k * ln 2)%R
          | None => 0%R
          end
      | NoisyLatentFeatures =>
          match K n with Some k => log_factorial k | None => 0%R end
      | GMMClustering =>
          match n_clusters n with Some k => log_factorial k | None => 0%R end
      | _ => 0%R
      end
  end.

(** A class with another [_compute_shape]. *)
Definition override_compute_shape (f : kwargs shape -> result shape)
    (C : node_class) : node_class :=
  mk_class (inputs C) f (_compute_dtype C) (_sample C) (_expected_logp C)
           (default_q C).

(** A class with another [default_q]. *)
Definition override_default_q (f : node -> M q_ref) (C : node_class) : node_class :=
  mk_class (inputs C) (_compute_shape C) (_compute_dtype C) (_sample C)
           (_expected_logp C) f.

(** A property of the nodes, as a property of the store. *)
Definition on_nodes (J : list node -> Prop) : state -> Prop :=
  fun s => J (nodes s).

(** The node [i] exists and satisfies [P]. *)
Definition node_has (i : node_id) (P : node -> Prop) (l : list node) : Prop :=
  exists n, l !! i = Some n /\ P n.

(** Parents are older objects than their children. *)
Definition parents_older (l : list node) : Prop :=
  forall i n, l !! i = Some n -> Forall (fun kp => snd kp < i) (input_nodes n).

(** The graph invariant: parents are older, and every node's [ancestors] is
    itself together with the ancestors of its parents. *)
Definition graph_ok (l : list node) : Prop :=
  parents_older l /\
  forall i n, l !! i = Some n -> ancestors_closed_at l i n.

(** The parents' samples and the seed of the generator in [sample]. *)
Definition sample_parents (methods : kind -> node_class) (fuel : nat) (seed : Z)
    (ins : kwargs node_id) : M (kwargs (option array)) :=
  for_each (fun '(nm, p) =>
              v <- ConditionalDistribution_sample methods fuel p seed ;; ret (nm, v))
           ins.

Definition local_seed (seed : Z) (n : node) : Z :=
  ((seed + str_hash (name n)) mod 2 ^ 32)%Z.

(** The scaling at the end of the base [elbo_term]. *)
Definition scaled (m : option R) (r : R * R) : R * R :=
  match m with
  | Some x => ((fst r * x)%R, (snd r * x)%R)
  | None => r
  end.

(** The node [i] as it is in the store [with_scale_factor k f]. *)
Definition rescaled_node (k : node_id) (f : option R) (i : node_id) (n : node) : node :=
  if decide (i = k) then set_minibatch_scale_factor f n else n.

(** [m2] does on the store [with_scale_factor k f s] what [m1] does on [s],
    with related results. *)
Definition simulates (k : node_id) (f : option R) {A : Type}
    (RA : state -> A -> A -> Prop) (m1 m2 : M A) : Prop :=
  forall s r s', m1 s = Some (r, s') ->
    match r with
    | Val a =>
        exists a', m2 (with_scale_factor k f s) = Some (Val a', with_scale_factor k f s')
                   /\ RA s' a a'
    | Raise e => m2 (with_scale_factor k f s) = Some (Raise e, with_scale_factor k f s')
    end.

(** The keyword and the attribute that [elbo_term] of the node's class
    reads are there. *)
Definition correction_defined (n : node) (hack : option bool) : Prop :=
  match cls n with
  | NoisyGaussianMatrixProduct | NoisyLatentFeatures =>
      hack <> Some false -> K n <> None
  | GMMClustering => hack <> Some false -> n_clusters n <> None
  | _ => hack = None
  end.

(** A constructor argument that is a node is a node of the store. *)
Definition valid_arg (s : state) (x : pyarg) : Prop :=
  match x with
  | ArgNode p => p < length (nodes s)
  | _ => True
  end.

(** Tests on the outcome of a call. *)
Definition returns_value {A : Type} (o : option (result A * state)) : bool :=
  match o with
  | Some (Val _, _) => true
  | _ => false
  end.

Definition raises {A : Type} (o : option (result A * state)) : bool :=
  match o with
  | Some (Raise _, _) => true
  | _ => false
  end.

(** Running a program from a store. *)
Fixpoint run_all (prog : list call) (s : state) : option state :=
  match prog with
  | [] => Some s
  | c :: prog' =>
      match run c s with
      | Some s' => run_all prog' s'
      | None => None
      end
  end.

End notions.


(** ** An example model on the reference backend

    [X = A B' / 4 + noise] with constant [A], [B] (one row, four columns)
    and [std], and a mixture [G] of three clusters with two draws. *)

Module Demo.
Import Reference.
#[local] Existing Instance backend.

Definition A : raw := (RMatrix [[1; 2; 3; 4]]%R, Some float32).
Definition B : raw := (RMatrix [[1; 1; 1; 1]]%R, Some float32).
Definition std : raw := (RScalar 1%R, Some float32).
Definition weights : raw := (RVector [1 / 5; 3 / 10; 1 / 2]%R, Some float32).
Definition centers : raw := (RMatrix [[0; 0]; [5; 5]; [10; 10]]%R, Some float32).

(** A posterior for [X] that is not an observation. *)
Definition posterior_X : qdist :=
  mk_qdist false [1; 1] (RMatrix [[2]]%R) (RMatrix [[1]]%R) (RMatrix [[2]]%R) None 3%R.

Definition build : list call :=
  [ New_FlatDistribution A true (named "A");                 (* node 0 *)
    New_FlatDistribution B true (named "B");                 (* node 1 *)
    New_FlatDistribution std true (named "std");             (* node 2 *)
    New_NoisyGaussianMatrixProduct (ArgNode 0) (ArgNode 1) (ArgNode 2) true
      (named "X");                                           (* node 3 *)
    New_FlatDistribution weights true (named "weights");     (* node 4 *)
    New_FlatDistribution centers true (named "centers");     (* node 5 *)
    New_GMMClustering (ArgNode 4) (ArgNode 5) (ArgNode 2)
      (mk_init_kwargs (Some [2; 2]) None None (Some "G") EmptyString); (* node 6 *)
    New_posterior posterior_X ].                             (* posterior 5 *)

Definition attach : list call :=
  [ Call_attach_q 3 5;
    Call_observe 6 (RMatrix [[0; 0]; [10; 10]]%R) ].

(** The store once the nodes are built, and once [X] and [G] have their
    posteriors. *)
Definition built : state :=
  match run_all build initial_state with Some s => s | None => initial_state end.

Definition store : state :=
  match run_all attach built with Some s => s | None => initial_state end.

(** A matrix product node with [K = 3] and rescaling, as the constructor
    leaves it for [A : (5, 3)] and [B : (4, 3)]. *)
Definition node_K3 : node :=
  mk_node NoisyGaussianMatrixProduct "X" None [("A", 0); ("B", 1); ("std", 2)]
    [5; 4] float32 ∅ None None None None (Some 3) (Some true) None.

End Demo.


(** ** Further notions

    Used by the statements of the further properties. *)

Section further_notions.
Context `{Backend}.

(** [j] is [i] or feeds [i] through a chain of [input_nodes]. *)
Inductive feeds_into (l : list node) : node_id -> node_id -> Prop :=
| feeds_self (i : node_id) (n : node) :
    l !! i = Some n -> feeds_into l i i
| feeds_parent (i : node_id) (n : node) (k : string) (p j : node_id) :
    l !! i = Some n -> (k, p) ∈ input_nodes n -> feeds_into l p j -> feeds_into l i j.

(** The cache of the node holds [v], drawn under [seed]. *)
Definition sampled_with (seed : Z) (v : option array) (n : node) : Prop :=
  _sampled_value_seed n = Some seed /\ _sampled_value n = v.

(** The node as [sample(seed)] leaves it when [_sample] returned [v]. *)
Definition with_sample (seed : Z) (v : array) (n : node) : node :=
  set_sampled_value (Some v) (set_sampled_value_seed (Some seed) n).

(** A node without its sample cache. *)
Definition forget_sample (n : node) : node :=
  set_sampled_value None (set_sampled_value_seed None n).

(** [elbo_term] of the node's class takes the keyword
    [symmetry_correction_hack], or the call leaves it out. *)
Definition accepts_hack (n : node) (hack : option bool) : Prop :=
  match cls n with
  | FlatDistribution | NoisyCumulativeSum | MultiplicativeGaussianNoise => hack = None
  | _ => True
  end.

(** [self.dtype] of FlatDistribution.__init__, lines 166-169. *)
Definition value_dtype (v : raw) : np_dtype :=
  match raw_dtype v with Some d => d | None => float32 end.

(** The object FlatDistribution.__init__ has built when the base constructor
    returns, for the converted value [a]. *)
Definition new_flat_node (v : raw) (a : array) (kw : init_kwargs) (self : node_id)
    : node :=
  mk_node FlatDistribution (resolve_name FlatDistribution (kw_name kw) (kw_uuid kw))
    (kw_minibatch_scale_factor kw) [] (np_shape a)
    (match kw_dtype kw with Some d => d | None => value_dtype v end)
    ({[self]} ∪ ⋃ []) None None None (Some a) None None None.

(** A FlatDistribution node that holds [a], as the constructor and [sample]
    leave it: a filled cache holds [a]. *)
Definition holds_constant (a : array) (n : node) : Prop :=
  cls n = FlatDistribution /\ input_nodes n = [] /\ value n = Some a /\
  (_sampled_value_seed n <> None -> _sampled_value n = Some a).

(** What [init_q_true] keeps of a store [s0]: the nodes, the generator, the
    number of posteriors, and every observed posterior. *)
Definition keeps_observations (s0 s : state) : Prop :=
  nodes s = nodes s0 /\ rng s = rng s0 /\
  length (qdists s) = length (qdists s0) /\
  forall q d, qdists s0 !! q = Some d -> q_observed d = true -> qdists s !! q = Some d.

(** The node has a posterior, and it is in the store. *)
Definition has_posterior (s : state) (n : node) : Prop :=
  exists q, _q_distribution n = Some q /\ q < length (qdists s).

(** A keyword when it is given, else what the class computes. *)
Definition given_or {A : Type} (o : option A) (r : result A) : result A :=
  match o with
  | Some a => Val a
  | None => r
  end.

(** The object the base constructor has built when it returns, for the
    inputs [ins] whose nodes have the ancestors [anc]. *)
Definition new_node (c : kind) (kw : init_kwargs) (ins : kwargs node_id)
    (shp : shape) (dt : np_dtype) (anc : list (gset node_id)) (self : node_id) : node :=
  mk_node c (resolve_name c (kw_name kw) (kw_uuid kw)) (kw_minibatch_scale_factor kw)
    ins shp dt ({[self]} ∪ ⋃ anc) None None None None None None None.

(** The store with one more node. *)
Definition with_new_node (s : state) (n : node) : state :=
  mk_state (nodes s ++ [n]) (qdists s) (rng s).

(** The fixed FlatDistribution node, at index [self] and with the posterior
    [q], that the base constructor makes of the constant [v], converted to
    [a], given for the input [input_name] of the node named [nm]. *)
Definition wrapped_constant (nm input_name : string) (v : raw) (a : array)
    (self : node_id) (q : q_ref) : node :=
  set_q_distribution (Some q)
    (new_flat_node v a (named (nm +:+ "_" +:+ input_name +:+ "_fixed")) self).

(** Whatever [m] does within its recursion budget, [m'] does too. *)
Definition refines {A : Type} (m m' : M A) : Prop :=
  forall s x, m s = Some x -> m' s = Some x.

(** Two nodes of one class with the same name, inputs and attributes: they
    may differ in identity, ancestors, scale factor, cache and posterior. *)
Definition same_law (n1 n2 : node) : Prop :=
  cls n1 = cls n2 /\ name n1 = name n2 /\ input_nodes n1 = input_nodes n2 /\
  output_shape n1 = output_shape n2 /\ dtype n1 = dtype n2 /\
  value n1 = value n2 /\ K n1 = K n2 /\ rescale n1 = rescale n2 /\
  n_clusters n1 = n_clusters n2.

(** The log-probabilities of the points under the cluster [i] with centre
    [center], weighted: the body of the loop of [GMMClustering._logp] up to
    the update of the running total. *)
Definition cluster_logps (result_ weights std : array) (i : nat) (center : array)
    : result array :=
  (lls <~ gaussian_log_density result_ center (Some std) None ;;
   cluster_lls <~ tf_reduce_sum_axis lls 1 ;;
   w <~ tf_getitem weights i ;;
   lw <~ tf_log w ;;
   tf_binop Add lw cluster_lls)%res.

(** A node of class [c] built with [std=None]: its only input is [A], the
    node [a], and its cache holds no value. *)
Definition lacks_std (c : kind) (a : node_id) (n : node) : Prop :=
  cls n = c /\ input_nodes n = [("A", a)] /\ _sampled_value n = None.

(** The running total after one more cluster. *)
Definition add_cluster (total_logps : option array) (logps : array) : result array :=
  match total_logps with
  | Some t => logsumexp t logps
  | None => Val logps
  end.

End further_notions.

(** ** More nodes on the example store

    A multiplicative-noise node [M] on [A] and [std], observed; a cumulative
    sum [C] built without [std]; a FlatDistribution [free] that is not
    fixed; two cumulative sums with one name, [twin]; and binary features
    [Z], with a Bernoulli posterior, feeding the latent-feature node [F]
    with [centers] as [G]. *)

Module Cases.
Import Reference.
#[local] Existing Instance backend.

Definition features : raw := (RMatrix [[1; 0; 1]; [0; 1; 0]]%R, Some bool_).

(** A Bernoulli posterior for [Z]. *)
Definition posterior_Z : qdist :=
  mk_qdist false [2; 3]
    (RMatrix [[1 / 2; 1 / 2; 1 / 2]; [1 / 2; 1 / 2; 1 / 2]]%R)
    (RMatrix [[1 / 4; 1 / 4; 1 / 4]; [1 / 4; 1 / 4; 1 / 4]]%R)
    (RMatrix [[1; 0; 1]; [0; 1; 0]]%R)
    (Some (RMatrix [[1 / 2; 1 / 2; 1 / 2]; [1 / 2; 1 / 2; 1 / 2]]%R))
    4%R.

Definition more : list call :=
  [ New_MultiplicativeGaussianNoise (ArgNode 0) (ArgNode 2) (named "M");      (* node 7 *)
    Call_observe 7 (RMatrix [[1; 2; 3; 4]]%R);                                 (* posterior 7 *)
    New_NoisyCumulativeSum (ArgNode 5) ArgNone
      (mk_init_kwargs (Some [3; 2]) (Some float32) None (Some "C") EmptyString); (* node 8 *)
    New_FlatDistribution Demo.std false (named "free");                        (* node 9 *)
    New_NoisyCumulativeSum (ArgNode 5) (ArgNode 2) (named "twin");             (* node 10 *)
    New_NoisyCumulativeSum (ArgNode 5) (ArgNode 2) (named "twin");             (* node 11 *)
    New_FlatDistribution features false (named "Z");                           (* node 12 *)
    New_posterior posterior_Z;                                                 (* posterior 8 *)
    Call_attach_q 12 8;
    New_NoisyLatentFeatures (ArgNode 12) (ArgNode 5) (ArgNode 2) (named "F");  (* node 13 *)
    Call_observe 13 (RMatrix [[1; 1]; [2; 2]]%R) ].                            (* posterior 9 *)

Definition extended : state :=
  match run_all more Demo.store with Some s => s | None => initial_state end.

(** Four nodes as a constructor finds them: [A : (5, 3)], [B : (4, 3)], a
    scalar [std] and [G : (3, 2)], of dtype float32, and binary [Z : (5, 3)]. *)
Definition constant (nm : string) (shp : shape) (dt : np_dtype) (self : node_id) : node :=
  mk_node FlatDistribution nm None [] shp dt {[self]} None None None None None None None.

(** The keywords [output_shape=(3, 2), dtype=float32, name=nm]. *)
Definition shaped (nm : string) : init_kwargs :=
  mk_init_kwargs (Some [3; 2]) (Some float32) None (Some nm) EmptyString.

Definition shapes : state :=
  mk_state [constant "A" [5; 3] float32 0; constant "B" [4; 3] float32 1;
            constant "std" [] float32 2; constant "G" [3; 2] float32 3;
            constant "Z" [5; 3] bool_ 4]
           [] 0%Z.

End Cases.

(** * Proofs *)

(** ** The monad *)

Section monad_lemmas.
Context `{Backend}.

Lemma bind_Some {A B : Type} (m : M A) (f : A -> M B) s r s' :
  bind m f s = Some (r, s') ->
  (exists a s1, m s = Some (Val a, s1) /\ f a s1 = Some (r, s')) \/
  (exists e, m s = Some (Raise e, s') /\ r = Raise e).
Proof.
  unfold bind. destruct (m s) as [[[a|e] s1]|]; intros Hb.
  - left. eauto.
  - right. inversion Hb; subst. eauto.
  - discriminate.
Qed.

Lemma bind_Val {A B : Type} (m : M A) (f : A -> M B) s b s' :
  bind m f s = Some (Val b, s') ->
  exists a s1, m s = Some (Val a, s1) /\ f a s1 = Some (Val b, s').
Proof.
  intros Hb. destruct (bind_Some _ _ _ _ _ Hb) as [?|(e & _ & ?)]; [done|discriminate].
Qed.

Lemma bind_eq_Val {A B : Type} (m : M A) (f : A -> M B) s a s1 :
  m s = Some (Val a, s1) -> bind m f s = f a s1.
Proof. unfold bind. intros ->. reflexivity. Qed.

Lemma bind_eq_Raise {A B : Type} (m : M A) (f : A -> M B) s e s1 :
  m s = Some (Raise e, s1) -> bind m f s = Some (Raise e, s1).
Proof. unfold bind. intros ->. reflexivity. Qed.

Lemma lift_Some {A : Type} (x : result A) s r s' :
  lift x s = Some (r, s') -> r = x /\ s' = s.
Proof. destruct x; cbn; intros Hx; inversion Hx; auto. Qed.

Lemma get_node_Some i s r s' :
  get_node i s = Some (r, s') -> exists n, nodes s !! i = Some n /\ r = Val n /\ s' = s.
Proof.
  unfold get_node. destruct (nodes s !! i) as [n|]; intros Hg; inversion Hg; eauto.
Qed.

Lemma get_node_eq i s n : nodes s !! i = Some n -> get_node i s = Some (Val n, s).
Proof. unfold get_node. intros ->. reflexivity. Qed.

Lemma get_q_Some q s r s' :
  get_q q s = Some (r, s') -> exists d, qdists s !! q = Some d /\ r = Val d /\ s' = s.
Proof.
  unfold get_q. destruct (qdists s !! q) as [d|]; intros Hg; inversion Hg; eauto.
Qed.

Lemma get_q_eq q s d : qdists s !! q = Some d -> get_q q s = Some (Val d, s).
Proof. unfold get_q. intros ->. reflexivity. Qed.

Lemma modify_node_Some i f s r s' :
  modify_node i f s = Some (r, s') ->
  exists n, nodes s !! i = Some n /\ r = Val tt /\
            s' = mk_state (<[i := f n]> (nodes s)) (qdists s) (rng s).
Proof.
  unfold modify_node. destruct (nodes s !! i) as [n|]; intros Hg; inversion Hg; eauto.
Qed.

Lemma preserves_ret {A : Type} I (a : A) : preserves I (ret a).
Proof. intros s r s' HI Hr. inversion Hr; subst. exact HI. Qed.

Lemma preserves_raise {A : Type} I e : preserves I (@raise _ A e).
Proof. intros s r s' HI Hr. inversion Hr; subst. exact HI. Qed.

Lemma preserves_stuck {A : Type} I : preserves I (@stuck _ A).
Proof. intros s r s' HI Hr. discriminate. Qed.

Lemma preserves_lift {A : Type} I (x : result A) : preserves I (lift x).
Proof. destruct x; [apply preserves_ret | apply preserves_raise]. Qed.

Lemma preserves_bind {A B : Type} I (m : M A) (f : A -> M B) :
  preserves I m -> (forall a, preserves I (f a)) -> preserves I (bind m f).
Proof.
  intros Hm Hf s r s' HI Hb.
  destruct (bind_Some _ _ _ _ _ Hb) as [(a & s1 & H1 & H2)|(e & H1 & _)].
  - eapply Hf; [|exact H2]. eapply Hm; eauto.
  - eapply Hm; eauto.
Qed.

Lemma preserves_get_node I i : preserves I (get_node i).
Proof.
  intros s r s' HI Hg. apply get_node_Some in Hg as (n & _ & _ & ->). exact HI.
Qed.

Lemma preserves_get_q I q : preserves I (get_q q).
Proof.
  intros s r s' HI Hg. apply get_q_Some in Hg as (n & _ & _ & ->). exact HI.
Qed.

Lemma preserves_try_except {A : Type} I (m : M A) :
  preserves I m -> preserves I (try_except m).
Proof.
  intros Hm s r s' HI Ht. unfold try_except in Ht.
  destruct (m s) as [[r0 s0]|] eqn:E; [|discriminate].
  inversion Ht; subst. eapply Hm; eauto.
Qed.

Lemma preserves_for_each {A B : Type} I (f : A -> M B) (l : list A) :
  (forall a, a ∈ l -> preserves I (f a)) -> preserves I (for_each f l).
Proof.
  induction l as [|a l IH]; intros Hf; cbn.
  - apply preserves_ret.
  - apply preserves_bind; [apply Hf; left|].
    intros b. apply preserves_bind; [|intros; apply preserves_ret].
    apply IH. intros a' Ha'. apply Hf. right. exact Ha'.
Qed.

End monad_lemmas.

(** ** What the methods keep *)

Section store_lemmas.
Context `{Backend}.
Variable J : list node -> Prop.

Lemma preserves_set_rng g : preserves (on_nodes J) (set_rng g).
Proof. intros s r s' HI Hs. inversion Hs; subst. exact HI. Qed.

Lemma preserves_with_rng {A : Type} (f : rng_state -> result A * rng_state) :
  preserves (on_nodes J) (with_rng f).
Proof.
  intros s r s' HI Hs. unfold with_rng in Hs. destruct (f (rng s)) as [r0 g].
  inversion Hs; subst. exact HI.
Qed.

Lemma preserves_alloc_q d : preserves (on_nodes J) (alloc_q d).
Proof. intros s r s' HI Hs. inversion Hs; subst. exact HI. Qed.

Lemma preserves_put_q q d : preserves (on_nodes J) (put_q q d).
Proof.
  intros s r s' HI Hs. unfold put_q in Hs.
  destruct (qdists s !! q); inversion Hs; subst. exact HI.
Qed.

Lemma preserves_modify_node i f :
  (forall l n, l !! i = Some n -> J l -> J (<[i := f n]> l)) ->
  preserves (on_nodes J) (modify_node i f).
Proof.
  intros Hf s r s' HI Hm. apply modify_node_Some in Hm as (n & Hn & _ & ->).
  apply Hf; assumption.
Qed.

End store_lemmas.

Ltac pres_step :=
  lazymatch goal with
  | |- preserves _ (bind _ _) => apply preserves_bind; [|intros ?]
  | |- preserves _ (ret _) => apply preserves_ret
  | |- preserves _ (raise _) => apply preserves_raise
  | |- preserves _ stuck => apply preserves_stuck
  | |- preserves _ (lift _) => apply preserves_lift
  | |- preserves _ (get_node _) => apply preserves_get_node
  | |- preserves _ (get_q _) => apply preserves_get_q
  | |- preserves _ (set_rng _) => apply preserves_set_rng
  | |- preserves _ (with_rng _) => apply preserves_with_rng
  | |- preserves _ (alloc_q _) => apply preserves_alloc_q
  | |- preserves _ (put_q _ _) => apply preserves_put_q
  | |- preserves _ (try_except _) => apply preserves_try_except
  end.

Ltac pres := repeat pres_step.

Section method_preservation.
Context `{Backend}.
Variable methods : kind -> node_class.
Variable J : list node -> Prop.

Hypothesis J_value :
  forall i v l n, l !! i = Some n -> J l -> J (<[i := set_sampled_value v n]> l).
Hypothesis J_seed :
  forall i sd l n, l !! i = Some n -> J l -> J (<[i := set_sampled_value_seed sd n]> l).
Hypothesis J_attach :
  forall i q, preserves (on_nodes J) (ConditionalDistribution_attach_q i q).
Hypothesis J_default_q :
  forall c n, preserves (on_nodes J) (default_q (methods c) n).

Lemma preserves_sample fuel self seed :
  preserves (on_nodes J) (ConditionalDistribution_sample methods fuel self seed).
Proof.
  revert self. induction fuel as [|fuel IH]; intros self; cbn [ConditionalDistribution_sample].
  - pres.
  - apply preserves_bind; [pres|]. intros n.
    apply preserves_bind; [|intros; pres].
    destruct (bool_decide _); [|pres].
    apply preserves_bind.
    { apply preserves_for_each. intros [nm p] _. pres. apply IH. }
    intros ins. pres; apply preserves_modify_node; auto.
Qed.

Lemma preserves_q_distribution self :
  preserves (on_nodes J) (ConditionalDistribution_q_distribution methods self).
Proof.
  unfold ConditionalDistribution_q_distribution.
  apply preserves_bind; [pres|]. intros n.
  apply preserves_bind.
  { destruct (_q_distribution n); pres; [apply J_default_q | apply J_attach]. }
  intros _. apply preserves_bind; [pres|]. intros n'.
  destruct (_q_distribution n'); pres.
Qed.

Lemma preserves_base_elbo_term self :
  preserves (on_nodes J) (ConditionalDistribution_elbo_term methods self).
Proof.
  unfold ConditionalDistribution_elbo_term.
  apply preserves_bind; [pres|]. intros n.
  apply preserves_bind.
  { apply preserves_for_each. intros [nm p] _. pres. apply preserves_q_distribution. }
  intros qs. apply preserves_bind; [apply preserves_q_distribution|]. intros q.
  apply preserves_bind; [pres|]. intros n1.
  apply preserves_bind; [pres|]. intros d.
  apply preserves_bind.
  { apply preserves_for_each. intros [k r] _. pres. }
  intros qs'. pres. destruct (minibatch_scale_factor _); pres.
Qed.

Lemma preserves_observe self v :
  preserves (on_nodes J) (ConditionalDistribution_observe self v).
Proof. unfold ConditionalDistribution_observe. pres. apply J_attach. Qed.

Lemma preserves_init_q_true fuel self :
  preserves (on_nodes J) (ConditionalDistribution_init_q_true methods fuel self).
Proof.
  revert self. induction fuel as [|fuel IH]; intros self;
    cbn [ConditionalDistribution_init_q_true].
  - pres.
  - apply preserves_bind; [pres|]. intros n.
    apply preserves_bind.
    { apply preserves_for_each. intros [nm p] _. apply IH. }
    intros _. apply preserves_bind; [apply preserves_q_distribution|]. intros q.
    apply preserves_bind; [pres|]. intros d.
    destruct (q_observed d); pres.
Qed.

End method_preservation.

(** ** What the constructors keep *)

Section read_only.
Context `{Backend}.

Lemma for_each_get_node {B : Type} (g : string -> node -> B) (l : kwargs node_id) s r s' :
  for_each (fun '(nm, p) => n <- get_node p ;; ret (g nm n)) l s = Some (r, s') ->
  s' = s /\
  exists bs, r = Val bs /\
    Forall2 (fun kp b => exists pn, nodes s !! (snd kp) = Some pn /\ b = g (fst kp) pn) l bs.
Proof.
  revert r s'. induction l as [|[nm p] l IH]; intros r s' Hf; cbn in Hf.
  - inversion Hf; subst. split; [done|]. exists []. split; [done|constructor].
  - unfold bind at 1 in Hf. unfold bind at 1 in Hf. unfold get_node at 1 in Hf.
    destruct (nodes s !! p) as [pn|] eqn:Hp; [|discriminate].
    cbn in Hf. unfold bind at 1 in Hf.
    destruct (for_each _ l s) as [[r0 s0]|] eqn:Hl; [|discriminate].
    destruct (IH _ _ eq_refl) as (-> & bs & -> & HF).
    cbn in Hf. inversion Hf; subst. split; [done|].
    eexists. split; [done|]. constructor; [|exact HF]. exists pn. done.
Qed.

End read_only.

Section call_preservation.
Context `{Backend}.
Variable J : list node -> Prop.

Hypothesis J_value :
  forall i v l n, l !! i = Some n -> J l -> J (<[i := set_sampled_value v n]> l).
Hypothesis J_seed :
  forall i sd l n, l !! i = Some n -> J l -> J (<[i := set_sampled_value_seed sd n]> l).
Hypothesis J_attach :
  forall i q, preserves (on_nodes J) (ConditionalDistribution_attach_q i q).
Hypothesis J_K :
  forall i k l n, l !! i = Some n -> J l -> J (<[i := set_K k n]> l).
Hypothesis J_rescale :
  forall i b l n, l !! i = Some n -> J l -> J (<[i := set_rescale b n]> l).
Hypothesis J_n_clusters :
  forall i k l n, l !! i = Some n -> J l -> J (<[i := set_n_clusters k n]> l).
Hypothesis J_alloc :
  forall l c nm msf ins shp dt anc pv,
    Forall2 (fun kp a => exists pn, l !! (snd kp) = Some pn /\ a = ancestors pn) ins anc ->
    J l ->
    J (l ++ [mk_node c nm msf ins shp dt ({[length l]} ∪ ⋃ anc)
                     None None None pv None None None]).

Lemma preserves_init_after_inputs c C pd pv shp dt msf nm ins :
  preserves (on_nodes J) (init_after_inputs c C pd pv shp dt msf nm ins).
Proof.
  unfold init_after_inputs.
  apply preserves_bind.
  { destruct shp; pres.
    intros s r s' HI Hf. apply for_each_get_node in Hf as [-> _]. exact HI. }
  intros shp'. apply preserves_bind.
  { destruct dt; pres.
    intros s r s' HI Hf. apply for_each_get_node in Hf as [-> _]. exact HI. }
  intros dt'. intros s r s' HI Hb.
  apply bind_Some in Hb as [(anc & s1 & Hf & Ha)|(e & Hf & _)].
  - apply (for_each_get_node (fun _ n => ancestors n)) in Hf as (-> & bs & [= <-] & HF).
    unfold alloc_node in Ha. inversion Ha; subst. apply J_alloc; assumption.
  - apply (for_each_get_node (fun _ n => ancestors n)) in Hf as (-> & _). exact HI.
Qed.

Lemma preserves_FlatDistribution___init__ v fixed kw :
  preserves (on_nodes J) (FlatDistribution___init__ v fixed kw).
Proof.
  unfold FlatDistribution___init__. pres.
  - destruct (kw_output_shape kw); pres.
  - apply preserves_init_after_inputs.
  - destruct fixed; pres. apply J_attach.
Qed.

Lemma preserves_wire_inputs nm names kws acc :
  preserves (on_nodes J) (wire_inputs nm names kws acc).
Proof.
  revert acc. induction names as [|x names IH]; intros acc; cbn [wire_inputs].
  - pres.
  - destruct (kw_get x kws) as [[p| |v]|]; pres; try apply IH.
    apply preserves_FlatDistribution___init__.
Qed.

Lemma preserves_base___init__ methods c kw kws :
  preserves (on_nodes J) (ConditionalDistribution___init__ methods c kw kws).
Proof.
  unfold ConditionalDistribution___init__. pres.
  - apply preserves_wire_inputs.
  - apply preserves_init_after_inputs.
Qed.

Lemma preserves_arg_output_shape x : preserves (on_nodes J) (arg_output_shape x).
Proof. destruct x; cbn; pres. Qed.

Lemma preserves_run c s s' : run c s = Some s' -> J (nodes s) -> J (nodes s').
Proof.
  assert (Hsa : forall A (m : M A), preserves (on_nodes J) m ->
            state_after m s = Some s' -> J (nodes s) -> J (nodes s')).
  { intros A m Hm Hs HJ. unfold state_after in Hs.
    destruct (m s) as [[r s0]|] eqn:E; [|discriminate].
    inversion Hs; subst. eapply Hm; eauto. }
  assert (Hdq : forall c n, preserves (on_nodes J) (default_q (classes c) n)).
  { intros [] n; cbn; apply preserves_raise. }
  assert (Hbase : forall self,
            preserves (on_nodes J) (ConditionalDistribution_elbo_term classes self)).
  { intros self. apply preserves_base_elbo_term; auto. }
  destruct c; cbn [run]; apply Hsa.
  - apply preserves_FlatDistribution___init__.
  - unfold NoisyGaussianMatrixProduct___init__. pres;
      first [apply preserves_base___init__ | apply preserves_arg_output_shape
            | apply preserves_modify_node; auto].
  - apply preserves_base___init__.
  - unfold NoisyLatentFeatures___init__. pres;
      first [apply preserves_base___init__ | apply preserves_arg_output_shape
            | apply preserves_modify_node; auto].
  - unfold GMMClustering___init__. pres;
      first [apply preserves_base___init__ | apply preserves_arg_output_shape
            | apply preserves_modify_node; auto].
  - apply preserves_base___init__.
  - pres.
  - apply preserves_sample; auto.
  - unfold elbo_term. pres. rename a into n.
    destruct (cls n);
      unfold NoisyGaussianMatrixProduct_elbo_term, NoisyLatentFeatures_elbo_term,
             GMMClustering_elbo_term;
      try (destruct symmetry_correction_hack; pres; apply Hbase).
    all: pres; [apply Hbase|].
    all: destruct a as [E Hn];
      destruct (match symmetry_correction_hack with Some b => b | None => true end);
      pres.
  - apply preserves_q_distribution; auto.
  - apply J_attach.
  - apply preserves_observe; auto.
  - apply preserves_init_q_true; auto.
Qed.

Lemma preserves_run_all prog s s' :
  run_all prog s = Some s' -> J (nodes s) -> J (nodes s').
Proof.
  revert s. induction prog as [|c prog IH]; intros s Hr HJ; cbn in Hr.
  - inversion Hr; subst. exact HJ.
  - destruct (run c s) as [s1|] eqn:E; [|discriminate].
    eapply IH; [exact Hr|]. eapply preserves_run; eauto.
Qed.

End call_preservation.


(** ** Invariants of the graph *)

Section graph.
Context `{Backend}.

Lemma node_has_insert i0 (P : node -> Prop) f i (l : list node) n :
  (forall m, P m -> P (f m)) ->
  l !! i = Some n -> node_has i0 P l -> node_has i0 P (<[i := f n]> l).
Proof.
  intros Hf Hi (m & Hm & HP). destruct (decide (i = i0)) as [->|Hne].
  - exists (f n). split.
    + apply list_lookup_insert_eq. eapply lookup_lt_Some; eauto.
    + apply Hf. congruence.
  - exists m. split; [|exact HP]. rewrite list_lookup_insert_ne; auto.
Qed.

Lemma node_has_app i0 (P : node -> Prop) (l l' : list node) :
  node_has i0 P l -> node_has i0 P (l ++ l').
Proof.
  intros (m & Hm & HP). exists m. split; [|exact HP].
  apply lookup_app_l_Some. exact Hm.
Qed.

(** A property closed under the assignment of the posterior slot is kept by
    [attach_q]. *)
Lemma preserves_attach_q (J : list node -> Prop) i q :
  (forall q' l n, l !! i = Some n -> J l -> J (<[i := set_q_distribution q' n]> l)) ->
  preserves (on_nodes J) (ConditionalDistribution_attach_q i q).
Proof.
  intros HJ. unfold ConditionalDistribution_attach_q.
  apply preserves_bind; [pres|]. intros n.
  destruct (_q_distribution n); pres.
  apply preserves_modify_node. intros. apply HJ; assumption.
Qed.

Lemma graph_ok_insert (f : node -> node) i (l : list node) n :
  (forall m, input_nodes (f m) = input_nodes m) ->
  (forall m, ancestors (f m) = ancestors m) ->
  l !! i = Some n -> graph_ok l -> graph_ok (<[i := f n]> l).
Proof.
  intros Hin Han Hi [Hold Hcl].
  assert (Hlt : i < length l) by (eapply lookup_lt_Some; eauto).
  assert (Hlook : forall j m, <[i := f n]> l !! j = Some m ->
            exists m0, l !! j = Some m0 /\ input_nodes m = input_nodes m0 /\
                       ancestors m = ancestors m0).
  { intros j m Hj. destruct (decide (i = j)) as [->|Hne].
    - rewrite list_lookup_insert_eq in Hj by exact Hlt. inversion Hj; subst.
      exists n. auto.
    - rewrite list_lookup_insert_ne in Hj by exact Hne. exists m. auto. }
  split.
  - intros j m Hj. destruct (Hlook _ _ Hj) as (m0 & Hm0 & -> & _). eauto.
  - intros j m Hj. destruct (Hlook _ _ Hj) as (m0 & Hm0 & Hi0 & Ha0).
    destruct (Hcl _ _ Hm0) as (anc & HF & Hanc).
    exists anc. rewrite Hi0, Ha0. split; [|exact Hanc].
    eapply Forall2_impl; [exact HF|]. cbn. intros [k p] a (pn & Hp & ->).
    cbn in *. destruct (decide (i = p)) as [->|Hne].
    + exists (f n). rewrite list_lookup_insert_eq by exact Hlt.
      split; [done|]. rewrite Han. congruence.
    + exists pn. rewrite list_lookup_insert_ne by exact Hne. done.
Qed.

Lemma graph_ok_alloc (l : list node) c nm msf ins shp dt anc pv :
  Forall2 (fun kp a => exists pn, l !! (snd kp) = Some pn /\ a = ancestors pn) ins anc ->
  graph_ok l ->
  graph_ok (l ++ [mk_node c nm msf ins shp dt ({[length l]} ∪ ⋃ anc)
                          None None None pv None None None]).
Proof.
  intros HF [Hold Hcl].
  assert (Hlift : forall (ins' : kwargs node_id) anc',
            Forall2 (fun kp a => exists pn, l !! (snd kp) = Some pn /\ a = ancestors pn)
                    ins' anc' ->
            forall x : node, Forall2 (fun kp a =>
                       exists pn, (l ++ [x])%list !! (snd kp) = Some pn /\ a = ancestors pn)
                    ins' anc').
  { intros ins' anc' HF' x. eapply Forall2_impl; [exact HF'|].
    cbn. intros kp a (pn & Hp & ->). exists pn. split; [|done].
    apply lookup_app_l_Some. exact Hp. }
  split.
  - intros j m Hj. apply lookup_app_Some in Hj as [Hj|[Hge Hj]].
    + eauto.
    + apply list_lookup_singleton_Some in Hj as [Hz <-]. cbn.
      assert (j = length l) as -> by lia.
      clear -HF. induction HF as [|kp a ins anc (pn & Hp & _) _ IH]; constructor; auto.
      eapply lookup_lt_Some; eauto.
  - intros j m Hj. apply lookup_app_Some in Hj as [Hj|[Hge Hj]].
    + destruct (Hcl _ _ Hj) as (anc0 & HF0 & Hanc0).
      exists anc0. split; [|exact Hanc0]. apply Hlift. exact HF0.
    + apply list_lookup_singleton_Some in Hj as [Hz <-].
      assert (j = length l) as -> by lia.
      exists anc. cbn. split; [|reflexivity]. apply Hlift. exact HF.
Qed.

Lemma graph_ok_run c s s' : run c s = Some s' -> graph_ok (nodes s) -> graph_ok (nodes s').
Proof.
  apply (preserves_run graph_ok).
  - intros. apply (graph_ok_insert (set_sampled_value v)); auto.
  - intros. apply (graph_ok_insert (set_sampled_value_seed sd)); auto.
  - intros. apply preserves_attach_q. intros.
    apply (graph_ok_insert (set_q_distribution q')); auto.
  - intros. apply (graph_ok_insert (set_K k)); auto.
  - intros. apply (graph_ok_insert (set_rescale b)); auto.
  - intros. apply (graph_ok_insert (set_n_clusters k)); auto.
  - intros. apply graph_ok_alloc; assumption.
Qed.

Lemma graph_ok_reachable s : reachable s -> graph_ok (nodes s).
Proof.
  induction 1 as [|s s' c _ IH Hr].
  - split; cbn; intros i n Hi; rewrite lookup_nil in Hi; discriminate.
  - eapply graph_ok_run; eauto.
Qed.

(** What no call assigns on an existing node. *)
Lemma static_fields_run {X : Type} (pi : node -> X) c s s' i x :
  (forall v n, pi (set_sampled_value v n) = pi n) ->
  (forall v n, pi (set_sampled_value_seed v n) = pi n) ->
  (forall v n, pi (set_q_distribution v n) = pi n) ->
  (forall v n, pi (set_K v n) = pi n) ->
  (forall v n, pi (set_rescale v n) = pi n) ->
  (forall v n, pi (set_n_clusters v n) = pi n) ->
  run c s = Some s' ->
  node_has i (fun n => pi n = x) (nodes s) -> node_has i (fun n => pi n = x) (nodes s').
Proof.
  intros H1 H2 H3 H4 H5 H6.
  apply (preserves_run (node_has i (fun n => pi n = x))).
  - intros. eapply (node_has_insert _ _ (set_sampled_value v)); eauto. intros; congruence.
  - intros. eapply (node_has_insert _ _ (set_sampled_value_seed sd)); eauto.
    intros; congruence.
  - intros. apply preserves_attach_q. intros.
    eapply (node_has_insert _ _ (set_q_distribution q')); eauto. intros; congruence.
  - intros. eapply (node_has_insert _ _ (set_K k)); eauto. intros; congruence.
  - intros. eapply (node_has_insert _ _ (set_rescale b)); eauto. intros; congruence.
  - intros. eapply (node_has_insert _ _ (set_n_clusters k)); eauto. intros; congruence.
  - intros. apply node_has_app. assumption.
Qed.

(** C4. For every node [n] of a reachable store, [ancestors n] is [{n}]
    united with the ancestors of the parents in [input_nodes n] (so [{n}]
    alone for a node without inputs), and no later call changes the
    [ancestors] or the [input_nodes] of an existing node. *)
Theorem ancestors_invariant (s : state) :
  reachable s ->
  (forall i n, nodes s !! i = Some n ->
     ancestors_closed_at (nodes s) i n /\
     (input_nodes n = [] -> ancestors n = {[i]})) /\
  (forall c s', run c s = Some s' ->
     reachable s' /\
     forall i n, nodes s !! i = Some n ->
       exists n', nodes s' !! i = Some n' /\
                  ancestors n' = ancestors n /\ input_nodes n' = input_nodes n).
Proof.
  intros Hr. split.
  - intros i n Hi. destruct (graph_ok_reachable _ Hr) as [_ Hcl].
    split; [apply Hcl; exact Hi|].
    intros Hnil. destruct (Hcl _ _ Hi) as (anc & HF & ->).
    rewrite Hnil in HF. inversion HF; subst. cbn. apply union_empty_r_L.
  - intros c s' Hrun. split; [eapply reachable_step; eauto|].
    intros i n Hi.
    destruct (static_fields_run (fun m => (ancestors m, input_nodes m)) c s s' i
                (ancestors n, input_nodes n)) as (n' & Hn' & Heq); auto.
    { exists n. auto. }
    exists n'. inversion Heq. auto.
Qed.

End graph.


(** ** Posteriors: attach_q and q_distribution *)

Section posteriors.
Context `{Backend}.

Lemma attach_q_cases (self : node_id) (q : q_ref) (s : state) (n : node) :
  nodes s !! self = Some n ->
  ConditionalDistribution_attach_q self q s =
    match _q_distribution n with
    | Some _ =>
        Some (Raise (PyException "trying to attach Q distribution, but another distribution is already attached!"), s)
    | None =>
        match qdists s !! q with
        | None => None
        | Some d =>
            if bool_decide (output_shape n = q_output_shape d)
            then Some (Val tt, mk_state (<[self := set_q_distribution (Some q) n]> (nodes s))
                                        (qdists s) (rng s))
            else Some (Raise AssertionError, s)
        end
    end.
Proof.
  intros Hn. unfold ConditionalDistribution_attach_q.
  rewrite (bind_eq_Val _ _ _ _ _ (get_node_eq _ _ _ Hn)).
  destruct (_q_distribution n); [reflexivity|].
  unfold bind at 1. unfold get_q. destruct (qdists s !! q) as [d|]; [|reflexivity].
  destruct (bool_decide _); cbn; [|reflexivity].
  unfold bind, ret, modify_node. cbn. rewrite Hn. reflexivity.
Qed.

Lemma attach_q_raise_same self q s e s' :
  ConditionalDistribution_attach_q self q s = Some (Raise e, s') -> s' = s.
Proof.
  intros Ha. destruct (nodes s !! self) as [n|] eqn:Hn.
  - rewrite (attach_q_cases _ _ _ _ Hn) in Ha.
    destruct (_q_distribution n); [inversion Ha; reflexivity|].
    destruct (qdists s !! q); [|discriminate].
    destruct (bool_decide _); inversion Ha; reflexivity.
  - unfold ConditionalDistribution_attach_q, bind, get_node in Ha.
    rewrite Hn in Ha. discriminate.
Qed.

Lemma attach_q_keeps_posterior self q0 i q :
  preserves (on_nodes (node_has self (fun n => _q_distribution n = Some q0)))
            (ConditionalDistribution_attach_q i q).
Proof.
  intros s r s' (m & Hm & Hq) Ha. unfold on_nodes.
  destruct (nodes s !! i) as [n|] eqn:Hn.
  2:{ unfold ConditionalDistribution_attach_q, bind, get_node in Ha.
      rewrite Hn in Ha. discriminate. }
  rewrite (attach_q_cases _ _ _ _ Hn) in Ha.
  destruct (_q_distribution n) eqn:Hs.
  { inversion Ha; subst. exists m. auto. }
  destruct (qdists s !! q); [|discriminate].
  destruct (bool_decide _); inversion Ha; subst; [|exists m; auto].
  cbn. exists m. split; [|exact Hq].
  rewrite list_lookup_insert_ne; [exact Hm|]. intros ->. congruence.
Qed.

Lemma posterior_kept prog s s' self q :
  run_all prog s = Some s' ->
  node_has self (fun n => _q_distribution n = Some q) (nodes s) ->
  node_has self (fun n => _q_distribution n = Some q) (nodes s').
Proof.
  apply (preserves_run_all (node_has self (fun n => _q_distribution n = Some q))).
  - intros. eapply (node_has_insert _ _ (set_sampled_value v)); eauto.
  - intros. eapply (node_has_insert _ _ (set_sampled_value_seed sd)); eauto.
  - intros. apply attach_q_keeps_posterior.
  - intros. eapply (node_has_insert _ _ (set_K k)); eauto.
  - intros. eapply (node_has_insert _ _ (set_rescale b)); eauto.
  - intros. eapply (node_has_insert _ _ (set_n_clusters k)); eauto.
  - intros. apply node_has_app. assumption.
Qed.

Lemma q_distribution_attached methods self q s :
  node_has self (fun n => _q_distribution n = Some q) (nodes s) ->
  ConditionalDistribution_q_distribution methods self s = Some (Val q, s).
Proof.
  intros (n & Hn & Hq). unfold ConditionalDistribution_q_distribution.
  rewrite (bind_eq_Val _ _ _ _ _ (get_node_eq _ _ _ Hn)). rewrite Hq.
  unfold bind at 1. cbn.
  rewrite (bind_eq_Val _ _ _ _ _ (get_node_eq _ _ _ Hn)). rewrite Hq. reflexivity.
Qed.

(** C5. [attach_q] raises when a posterior is already attached and when the
    shapes differ; after an attach that returned, [q_distribution] returns
    that posterior, after any further calls on the store and whatever the
    [default_q] of the classes is (it is not called). *)
Theorem attach_once (s : state) (self : node_id) (n : node) (q : q_ref) (d : qdist) :
  nodes s !! self = Some n ->
  qdists s !! q = Some d ->
  (_q_distribution n <> None ->
     exists msg, attach_q self q s = Some (Raise (PyException msg), s)) /\
  (_q_distribution n = None -> q_output_shape d <> output_shape n ->
     attach_q self q s = Some (Raise AssertionError, s)) /\
  (_q_distribution n = None -> q_output_shape d = output_shape n ->
     exists s', attach_q self q s = Some (Val tt, s') /\
       forall (methods : kind -> node_class) prog s'',
         run_all prog s' = Some s'' ->
         ConditionalDistribution_q_distribution methods self s'' = Some (Val q, s'')).
Proof.
  intros Hn Hd. unfold attach_q. rewrite (attach_q_cases _ _ _ _ Hn), Hd.
  split; [|split].
  - intros Hq. destruct (_q_distribution n); [|done]. eauto.
  - intros -> Hne. rewrite bool_decide_eq_false_2; [reflexivity|]. congruence.
  - intros -> Heq. rewrite bool_decide_eq_true_2 by congruence.
    eexists. split; [reflexivity|]. intros methods prog s'' Hrun.
    apply q_distribution_attached. eapply posterior_kept; [exact Hrun|].
    cbn. exists (set_q_distribution (Some q) n). split; [|reflexivity].
    apply list_lookup_insert_eq. eapply lookup_lt_Some; eauto.
Qed.

(** C10. When [attach_q] raises, for either reason, the store is the store
    before the call: the posterior slot of the node is as it was, and a
    later [q_distribution] behaves as from the store before. *)
Theorem attach_q_atomic (self : node_id) (q : q_ref) (s s' : state) (e : exn) :
  attach_q self q s = Some (Raise e, s') ->
  s' = s /\
  nodes s' !! self = nodes s !! self /\
  forall methods i,
    ConditionalDistribution_q_distribution methods i s'
    = ConditionalDistribution_q_distribution methods i s.
Proof.
  intros Ha. apply attach_q_raise_same in Ha. subst. auto.
Qed.

End posteriors.

(** ** Sampling *)

Section sampling.
Context `{Backend}.
Variable methods : kind -> node_class.

Lemma sample_cached fuel self seed s n :
  nodes s !! self = Some n ->
  _sampled_value_seed n = Some seed ->
  ConditionalDistribution_sample methods (S fuel) self seed s
  = Some (Val (_sampled_value n), s).
Proof.
  intros Hn Hs. cbn [ConditionalDistribution_sample].
  rewrite (bind_eq_Val _ _ _ _ _ (get_node_eq _ _ _ Hn)).
  rewrite Hs. rewrite bool_decide_eq_false_2 by (intros Hc; apply Hc; reflexivity).
  unfold bind at 1. cbn.
  rewrite (bind_eq_Val _ _ _ _ _ (get_node_eq _ _ _ Hn)). reflexivity.
Qed.

Lemma sample_recomputed fuel self seed s n r s1 :
  nodes s !! self = Some n ->
  _sampled_value_seed n <> Some seed ->
  ConditionalDistribution_sample methods (S fuel) self seed s = Some (r, s1) ->
  (exists e, r = Raise e) \/
  exists ins sa na v0 g,
    sample_parents methods fuel seed (input_nodes n) s = Some (Val ins, sa) /\
    nodes sa !! self = Some na /\
    _sample (methods (cls na)) (set_sampled_value_seed (Some seed) na) ins
            (np_random_seed (local_seed seed n)) = (Val v0, g) /\
    r = Val (Some v0) /\
    s1 = mk_state (<[self := set_sampled_value (Some v0)
                               (set_sampled_value_seed (Some seed) na)]> (nodes sa))
                  (qdists sa) g.
Proof.
  intros Hn Hs Hr. cbn [ConditionalDistribution_sample] in Hr.
  rewrite (bind_eq_Val _ _ _ _ _ (get_node_eq _ _ _ Hn)) in Hr.
  rewrite bool_decide_eq_true_2 in Hr by congruence.
  apply bind_Some in Hr as [(u & s2 & Hbody & Hrest)|(e & _ & ->)]; [|left; eauto].
  apply bind_Val in Hbody as (ins & sa & Hins & Hbody).
  apply bind_Val in Hbody as ([] & sb & Hrng & Hbody).
  inversion Hrng; subst sb; clear Hrng.
  apply bind_Val in Hbody as ([] & sc & Hmod & Hbody).
  apply modify_node_Some in Hmod as (na & Hna & _ & ->). cbn in Hna.
  assert (Hlt : self < length (nodes sa)) by (eapply lookup_lt_Some; eauto).
  apply bind_Val in Hbody as (n1 & sd & Hget & Hbody).
  apply get_node_Some in Hget as (n1' & Hn1 & [= <-] & ->).
  cbn in Hn1. rewrite list_lookup_insert_eq in Hn1 by exact Hlt.
  inversion Hn1; subst n1; clear Hn1.
  apply bind_Val in Hbody as (v0 & se & Hsamp & Hmod).
  unfold with_rng in Hsamp. cbn in Hsamp.
  destruct (_sample _ _ _ _) as [rv g] eqn:Esamp.
  inversion Hsamp; subst rv se; clear Hsamp.
  apply modify_node_Some in Hmod as (nb & Hnb & _ & ->). cbn in Hnb.
  rewrite list_lookup_insert_eq in Hnb by exact Hlt.
  inversion Hnb; subst nb; clear Hnb. cbn in Hrest.
  rewrite list_insert_insert_eq in Hrest.
  apply bind_Some in Hrest as [(n2 & sf & Hget & Hret)|(e & _ & ->)]; [|left; eauto].
  apply get_node_Some in Hget as (n2' & Hn2 & [= <-] & ->).
  cbn in Hn2. rewrite list_lookup_insert_eq in Hn2 by exact Hlt.
  inversion Hn2; subst n2; clear Hn2.
  inversion Hret; subst r s1; clear Hret.
  right. exists ins, sa, na, v0, g. cbn.
  repeat split; auto.
Qed.

Lemma sample_raised fuel self seed s n e s1 :
  nodes s !! self = Some n ->
  _sampled_value_seed n <> Some seed ->
  ConditionalDistribution_sample methods (S fuel) self seed s = Some (Raise e, s1) ->
  sample_parents methods fuel seed (input_nodes n) s = Some (Raise e, s1) \/
  exists ins sa na g,
    sample_parents methods fuel seed (input_nodes n) s = Some (Val ins, sa) /\
    nodes sa !! self = Some na /\
    _sample (methods (cls na)) (set_sampled_value_seed (Some seed) na) ins
            (np_random_seed (local_seed seed n)) = (Raise e, g) /\
    s1 = mk_state (<[self := set_sampled_value_seed (Some seed) na]> (nodes sa))
                  (qdists sa) g.
Proof.
  intros Hn Hs Hr. cbn [ConditionalDistribution_sample] in Hr.
  rewrite (bind_eq_Val _ _ _ _ _ (get_node_eq _ _ _ Hn)) in Hr.
  rewrite bool_decide_eq_true_2 in Hr by congruence.
  apply bind_Some in Hr as [(u & s2 & Hbody & Hrest)|(e' & Hbody & [= <-])].
  { apply bind_Some in Hrest as [(n2 & sf & Hget & Hret)|(e' & Hget & _)].
    - inversion Hret.
    - apply get_node_Some in Hget as (? & _ & ? & _). discriminate. }
  apply bind_Some in Hbody as [(ins & sa & Hins & Hbody)|(e' & Hins & [= <-])];
    [|left; exact Hins].
  right.
  apply bind_Some in Hbody as [([] & sb & Hrng & Hbody)|(e' & Hrng & _)];
    [|inversion Hrng].
  inversion Hrng; subst sb; clear Hrng.
  apply bind_Some in Hbody as [([] & sc & Hmod & Hbody)|(e' & Hmod & _)].
  2:{ apply modify_node_Some in Hmod as (? & _ & ? & _). discriminate. }
  apply modify_node_Some in Hmod as (na & Hna & _ & ->). cbn in Hna.
  assert (Hlt : self < length (nodes sa)) by (eapply lookup_lt_Some; eauto).
  apply bind_Some in Hbody as [(n1 & sd & Hget & Hbody)|(e' & Hget & _)].
  2:{ apply get_node_Some in Hget as (? & _ & ? & _). discriminate. }
  apply get_node_Some in Hget as (n1' & Hn1 & [= <-] & ->).
  cbn in Hn1. rewrite list_lookup_insert_eq in Hn1 by exact Hlt.
  inversion Hn1; subst n1; clear Hn1.
  apply bind_Some in Hbody as [(v0 & se & Hsamp & Hmod)|(e' & Hsamp & [= <-])].
  { apply modify_node_Some in Hmod as (? & _ & ? & _). discriminate. }
  unfold with_rng in Hsamp. cbn in Hsamp.
  destruct (_sample _ _ _ _) as [rv g] eqn:Esamp.
  inversion Hsamp; subst rv s1; clear Hsamp.
  exists ins, sa, na, g. auto.
Qed.

Lemma sample_post fuel self seed s v s1 :
  ConditionalDistribution_sample methods fuel self seed s = Some (Val v, s1) ->
  exists n1, nodes s1 !! self = Some n1 /\
             _sampled_value_seed n1 = Some seed /\ _sampled_value n1 = v.
Proof.
  intros Hr. destruct fuel as [|fuel]; [discriminate|].
  destruct (nodes s !! self) as [n|] eqn:Hn.
  2:{ cbn [ConditionalDistribution_sample] in Hr. unfold bind at 1, get_node in Hr.
      rewrite Hn in Hr. discriminate. }
  destruct (decide (_sampled_value_seed n = Some seed)) as [Hs|Hs].
  - rewrite (sample_cached _ _ _ _ _ Hn Hs) in Hr. inversion Hr; subst. eauto.
  - destruct (sample_recomputed _ _ _ _ _ _ _ Hn Hs Hr)
      as [(e & ?)|(ins & sa & na & v0 & g & _ & Hna & _ & [= <-] & ->)]; [discriminate|].
    eexists. cbn. split.
    + apply list_lookup_insert_eq. eapply lookup_lt_Some; eauto.
    + split; reflexivity.
Qed.

(** C3, with the case that the claim leaves out.  If [sample(seed)]
    returned [v], a second [sample(seed)] returns the same [v] and leaves
    the store, generator included, as it is: nothing is recomputed.  When
    the node's seed marker differs from [seed], the call samples the
    parents, seeds the generator with [(seed + hash(name)) mod 2^32], runs
    [_sample], and stores the result and the new marker.  If [sample(seed)]
    raised, the marker differed from [seed], and either the sampling of the
    parents raised, or [_sample] of the node raised: line 83 has then set
    the marker before line 84 ran [_sample], so a second [sample(seed)]
    raises nothing and returns the value cached before the failed call. *)
Theorem sample_deterministic (fuel : nat) (self : node_id) (seed : Z)
    (s s1 : state) (r : result (option array)) :
  ConditionalDistribution_sample methods fuel self seed s = Some (r, s1) ->
  match r with
  | Val v =>
      (forall fuel', ConditionalDistribution_sample methods (S fuel') self seed s1
                     = Some (Val v, s1)) /\
      (exists n1, nodes s1 !! self = Some n1 /\
                  _sampled_value_seed n1 = Some seed /\ _sampled_value n1 = v) /\
      (forall n, nodes s !! self = Some n -> _sampled_value_seed n <> Some seed ->
         exists ins sa na v0 g,
           sample_parents methods (pred fuel) seed (input_nodes n) s = Some (Val ins, sa) /\
           nodes sa !! self = Some na /\
           _sample (methods (cls na)) (set_sampled_value_seed (Some seed) na) ins
                   (np_random_seed (local_seed seed n)) = (Val v0, g) /\
           v = Some v0 /\
           s1 = mk_state (<[self := set_sampled_value (Some v0)
                                      (set_sampled_value_seed (Some seed) na)]> (nodes sa))
                         (qdists sa) g)
  | Raise e =>
      forall n, nodes s !! self = Some n ->
        _sampled_value_seed n <> Some seed /\
        (sample_parents methods (pred fuel) seed (input_nodes n) s = Some (Raise e, s1) \/
         exists ins sa na g,
           sample_parents methods (pred fuel) seed (input_nodes n) s = Some (Val ins, sa) /\
           nodes sa !! self = Some na /\
           _sample (methods (cls na)) (set_sampled_value_seed (Some seed) na) ins
                   (np_random_seed (local_seed seed n)) = (Raise e, g) /\
           s1 = mk_state (<[self := set_sampled_value_seed (Some seed) na]> (nodes sa))
                         (qdists sa) g /\
           forall fuel', ConditionalDistribution_sample methods (S fuel') self seed s1
                         = Some (Val (_sampled_value na), s1))
  end.
Proof.
  intros Hr. destruct r as [v|e].
  - destruct (sample_post _ _ _ _ _ _ Hr) as (n1 & Hn1 & Hs1 & Hv1).
    split; [|split].
    + intros fuel'. rewrite (sample_cached _ _ _ _ _ Hn1 Hs1). congruence.
    + eauto.
    + intros n Hn Hs. destruct fuel as [|fuel]; [discriminate|].
      destruct (sample_recomputed _ _ _ _ _ _ _ Hn Hs Hr)
        as [(e & ?)|(ins & sa & na & v0 & g & H1 & H2 & H3 & Hv & H5)]; [discriminate|].
      inversion Hv; subst v. exists ins, sa, na, v0, g. cbn. auto.
  - intros n Hn. destruct fuel as [|fuel]; [discriminate|].
    assert (Hs : _sampled_value_seed n <> Some seed).
    { intros Hs. rewrite (sample_cached _ _ _ _ _ Hn Hs) in Hr. discriminate. }
    split; [exact Hs|]. cbn [pred].
    destruct (sample_raised _ _ _ _ _ _ _ Hn Hs Hr)
      as [Hins|(ins & sa & na & g & Hins & Hna & Hsamp & ->)]; [left; exact Hins|].
    right. exists ins, sa, na, g.
    split; [exact Hins|]. split; [exact Hna|]. split; [exact Hsamp|].
    split; [reflexivity|].
    assert (Hself : nodes (mk_state (<[self := set_sampled_value_seed (Some seed) na]>
                                      (nodes sa)) (qdists sa) g) !! self
                    = Some (set_sampled_value_seed (Some seed) na)).
    { cbn [nodes]. apply list_lookup_insert_eq. eapply lookup_lt_Some; eauto. }
    intros fuel'. rewrite (sample_cached _ _ _ _ _ Hself eq_refl). reflexivity.
Qed.

(** With the graph invariant, a budget larger than the node's index is
    enough for [sample] to finish, with a value or an exception. *)
Lemma sample_total seed fuel :
  forall self s, graph_ok (nodes s) -> self < fuel -> self < length (nodes s) ->
    exists r s', ConditionalDistribution_sample methods fuel self seed s = Some (r, s') /\
                 graph_ok (nodes s') /\ length (nodes s') = length (nodes s).
Proof.
  induction fuel as [|fuel IH]; intros self s Hok Hf Hlen; [lia|].
  destruct (lookup_lt_is_Some_2 _ _ Hlen) as [n Hn].
  destruct (decide (_sampled_value_seed n = Some seed)) as [Hs|Hs].
  { rewrite (sample_cached _ _ _ _ _ Hn Hs). eauto. }
  cbn [ConditionalDistribution_sample].
  rewrite (bind_eq_Val _ _ _ _ _ (get_node_eq _ _ _ Hn)).
  rewrite bool_decide_eq_true_2 by congruence.
  assert (Hpar : Forall (fun kp : string * node_id => snd kp < self) (input_nodes n)).
  { destruct Hok as [Hold _]. eapply Hold; eauto. }
  assert (Hins : forall l, Forall (fun kp : string * node_id => snd kp < self) l ->
            forall s0, graph_ok (nodes s0) -> length (nodes s0) = length (nodes s) ->
              exists r s', sample_parents methods fuel seed l s0 = Some (r, s') /\
                           graph_ok (nodes s') /\ length (nodes s') = length (nodes s)).
  { induction l as [|[nm p] l IHl]; intros HF s0 Hok0 Hlen0.
    - cbn. eauto.
    - inversion HF as [|? ? Hp HF']; subst. cbn in Hp.
      destruct (IH p s0 Hok0) as (r1 & s1 & E1 & Hok1 & Hlen1); [lia|lia|].
      unfold sample_parents. cbn [for_each]. unfold bind at 1. unfold bind at 1.
      rewrite E1. destruct r1 as [v1|e1]; [|exists (Raise e1), s1; split; [done|split; [done|lia]]].
      cbn. destruct (IHl HF' s1 Hok1) as (r2 & s2 & E2 & Hok2 & Hlen2); [lia|].
      unfold sample_parents in E2. unfold bind at 1. rewrite E2.
      destruct r2; cbn; eauto. }
  destruct (Hins _ Hpar s Hok eq_refl) as (r1 & sa & E1 & Hoka & Hlena).
  unfold sample_parents in E1. unfold bind at 1. unfold bind at 1. rewrite E1.
  destruct r1 as [ins|e]; [|eauto 6].
  assert (Hlta : self < length (nodes sa)) by lia.
  destruct (lookup_lt_is_Some_2 _ _ Hlta) as [na Hna].
  unfold bind at 1. cbn [set_rng]. unfold bind at 1. unfold modify_node at 1. cbn [nodes].
  rewrite Hna. unfold bind at 1. unfold get_node at 1. cbn [nodes].
  rewrite list_lookup_insert_eq by exact Hlta.
  unfold bind at 1. unfold with_rng. cbn [rng qdists nodes].
  destruct (_sample _ _ _ _) as [rv g].
  assert (Hok1 : graph_ok (<[self := set_sampled_value_seed (Some seed) na]> (nodes sa))).
  { apply (graph_ok_insert (set_sampled_value_seed (Some seed))); auto. }
  destruct rv as [v0|e].
  2:{ do 2 eexists. split; [reflexivity|]. cbn. rewrite length_insert. auto. }
  unfold modify_node. cbn [nodes qdists rng].
  rewrite list_lookup_insert_eq by exact Hlta.
  unfold bind at 1. unfold get_node. cbn [nodes].
  rewrite list_lookup_insert_eq by (rewrite length_insert; exact Hlta).
  do 2 eexists. split; [reflexivity|]. cbn. rewrite !length_insert. split; [|lia].
  apply (graph_ok_insert (set_sampled_value (Some v0))); auto.
  apply list_lookup_insert_eq. exact Hlta.
Qed.

End sampling.


(** ** The minibatch scale factor *)

Section scale_simulation.
Context `{Backend}.
Variable k : node_id.
Variable f : option R.

Lemma lookup_with_scale_factor s i :
  nodes (with_scale_factor k f s) !! i = rescaled_node k f i <$> nodes s !! i.
Proof.
  cbn. rewrite list_lookup_alter. unfold rescaled_node.
  destruct (decide (k = i)) as [Heq|Hne]; destruct (decide (i = k)) as [Heq'|Hne'];
    try congruence.
  - rewrite Heq. reflexivity.
  - destruct (nodes s !! i); reflexivity.
Qed.

Lemma sim_bind {A B : Type} (RA : state -> A -> A -> Prop) (RB : state -> B -> B -> Prop)
    (m1 m2 : M A) (f1 f2 : A -> M B) :
  simulates k f RA m1 m2 ->
  (forall a a' s1, RA s1 a a' -> simulates k f RB (f1 a) (f2 a')) ->
  simulates k f RB (bind m1 f1) (bind m2 f2).
Proof.
  intros Hm Hf s r s' Hb.
  apply bind_Some in Hb as [(a & s1 & H1 & H2)|(e & H1 & ->)].
  - apply Hm in H1 as (a' & H1' & HR). apply (Hf _ _ _ HR) in H2.
    rewrite (bind_eq_Val _ _ _ _ _ H1'). exact H2.
  - apply Hm in H1. rewrite (bind_eq_Raise _ _ _ _ _ H1). reflexivity.
Qed.

Lemma sim_ret {A : Type} (RA : state -> A -> A -> Prop) (a a' : A) :
  (forall s, RA s a a') -> simulates k f RA (ret a) (ret a').
Proof. intros HR s r s' Hr. inversion Hr; subst. exists a'. split; [reflexivity|auto]. Qed.

Lemma sim_raise {A : Type} (RA : state -> A -> A -> Prop) e :
  simulates k f RA (raise e) (raise e).
Proof. intros s r s' Hr. inversion Hr; subst. reflexivity. Qed.

Lemma sim_stuck {A : Type} (RA : state -> A -> A -> Prop) (m : M A) :
  simulates k f RA stuck m.
Proof. intros s r s' Hr. discriminate. Qed.

Lemma sim_lift {A : Type} (x : result A) :
  simulates k f (fun _ => eq) (lift x) (lift x).
Proof. destruct x; [apply sim_ret; auto|apply sim_raise]. Qed.

Lemma sim_get_node i :
  simulates k f (fun s n n' => nodes s !! i = Some n /\ n' = rescaled_node k f i n)
            (get_node i) (get_node i).
Proof.
  intros s r s' Hg. apply get_node_Some in Hg as (n & Hn & -> & ->).
  exists (rescaled_node k f i n). split; [|auto].
  apply get_node_eq. rewrite lookup_with_scale_factor, Hn. reflexivity.
Qed.

Lemma sim_get_q q : simulates k f (fun _ => eq) (get_q q) (get_q q).
Proof.
  intros s r s' Hg. apply get_q_Some in Hg as (d & Hd & -> & ->).
  exists d. split; [|auto]. apply get_q_eq. exact Hd.
Qed.

Lemma sim_modify_node i g :
  (forall n, g (set_minibatch_scale_factor f n) = set_minibatch_scale_factor f (g n)) ->
  simulates k f (fun _ => eq) (modify_node i g) (modify_node i g).
Proof.
  intros Hg s r s' Hm. apply modify_node_Some in Hm as (n & Hn & -> & ->).
  exists tt. split; [|auto]. unfold modify_node.
  rewrite lookup_with_scale_factor, Hn. cbn. do 2 f_equal.
  unfold with_scale_factor. cbn. f_equal.
  apply list_eq. intros j.
  assert (Hlt : i < length (nodes s)) by (eapply lookup_lt_Some; eauto).
  destruct (decide (i = j)) as [Hij|Hij].
  - subst j. rewrite list_lookup_insert_eq by (rewrite length_alter; exact Hlt).
    rewrite list_lookup_alter. unfold rescaled_node.
    destruct (decide (k = i)) as [Hki|Hki]; destruct (decide (i = k)) as [Hik|Hik];
      try congruence.
    + rewrite Hki. rewrite list_lookup_insert_eq by exact Hlt. cbn.
      rewrite Hg. reflexivity.
    + rewrite list_lookup_insert_eq by exact Hlt. reflexivity.
  - rewrite list_lookup_insert_ne by exact Hij.
    rewrite !list_lookup_alter.
    destruct (decide (k = j)) as [Hkj|Hkj].
    + rewrite list_lookup_insert_ne by congruence. reflexivity.
    + rewrite list_lookup_insert_ne by exact Hij. reflexivity.
Qed.

Lemma sim_for_each {A B : Type} (g : A -> M B) (l : list A) :
  (forall a, simulates k f (fun _ => eq) (g a) (g a)) ->
  simulates k f (fun _ => eq) (for_each g l) (for_each g l).
Proof.
  intros Hg. induction l as [|a l IH]; cbn.
  - apply sim_ret. auto.
  - eapply sim_bind; [apply Hg|]. intros b b' _ ->.
    eapply sim_bind; [apply IH|]. intros bs bs' _ ->. apply sim_ret. auto.
Qed.

Lemma rescaled_q i n : _q_distribution (rescaled_node k f i n) = _q_distribution n.
Proof. unfold rescaled_node. destruct (decide _); reflexivity. Qed.

Lemma rescaled_cls i n : cls (rescaled_node k f i n) = cls n.
Proof. unfold rescaled_node. destruct (decide _); reflexivity. Qed.

Lemma rescaled_input_nodes i n : input_nodes (rescaled_node k f i n) = input_nodes n.
Proof. unfold rescaled_node. destruct (decide _); reflexivity. Qed.

Lemma rescaled_output_shape i n : output_shape (rescaled_node k f i n) = output_shape n.
Proof. unfold rescaled_node. destruct (decide _); reflexivity. Qed.

Lemma rescaled_K i n : K (rescaled_node k f i n) = K n.
Proof. unfold rescaled_node. destruct (decide _); reflexivity. Qed.

Lemma rescaled_n_clusters i n : n_clusters (rescaled_node k f i n) = n_clusters n.
Proof. unfold rescaled_node. destruct (decide _); reflexivity. Qed.

(** The classes of the source do not read [minibatch_scale_factor]. *)
Lemma expected_logp_rescaled i n kws :
  _expected_logp (classes (cls n)) (rescaled_node k f i n) kws
  = _expected_logp (classes (cls n)) n kws.
Proof.
  unfold rescaled_node. destruct (decide _); [|reflexivity].
  destruct (cls n); reflexivity.
Qed.

Lemma sim_attach_q i q :
  simulates k f (fun _ => eq) (ConditionalDistribution_attach_q i q)
            (ConditionalDistribution_attach_q i q).
Proof.
  unfold ConditionalDistribution_attach_q.
  eapply sim_bind; [apply sim_get_node|]. intros n n' s1 [_ ->].
  rewrite rescaled_q, rescaled_output_shape.
  destruct (_q_distribution n); [apply sim_raise|].
  eapply sim_bind; [apply sim_get_q|]. intros d d' _ ->.
  eapply sim_bind; [apply sim_lift|]. intros _ _ _ _.
  apply sim_modify_node. reflexivity.
Qed.

Lemma sim_q_distribution i :
  simulates k f (fun _ => eq) (ConditionalDistribution_q_distribution classes i)
            (ConditionalDistribution_q_distribution classes i).
Proof.
  unfold ConditionalDistribution_q_distribution.
  eapply sim_bind; [apply sim_get_node|]. intros n n' s1 [_ ->].
  rewrite rescaled_q, rescaled_cls.
  eapply sim_bind with (RA := fun _ => eq).
  { destruct (_q_distribution n); [apply sim_ret; auto|].
    destruct (cls n); cbn; unfold ConditionalDistribution_default_q;
      (eapply (sim_bind (fun _ => eq)); [apply sim_raise|]);
      intros ? ? ? ->; apply sim_attach_q. }
  intros _ _ _ _.
  eapply sim_bind; [apply sim_get_node|]. intros m m' s2 [_ ->].
  rewrite rescaled_q. destruct (_q_distribution m); [apply sim_ret; auto|apply sim_stuck].
Qed.

Lemma sim_base_elbo_term self :
  simulates k f
    (fun s' r r' =>
       exists r0 n2, nodes s' !! self = Some n2 /\
         r = scaled (minibatch_scale_factor n2) r0 /\
         r' = scaled (minibatch_scale_factor (rescaled_node k f self n2)) r0)
    (ConditionalDistribution_elbo_term classes self)
    (ConditionalDistribution_elbo_term classes self).
Proof.
  unfold ConditionalDistribution_elbo_term.
  eapply sim_bind; [apply sim_get_node|]. intros n n' s1 [_ ->].
  rewrite rescaled_input_nodes.
  eapply sim_bind.
  { apply sim_for_each. intros [nm p].
    eapply sim_bind; [apply sim_q_distribution|]. intros q q' _ ->. apply sim_ret; auto. }
  intros qs qs' _ ->.
  eapply sim_bind; [apply sim_q_distribution|]. intros q q' _ ->.
  eapply sim_bind; [apply sim_get_node|]. intros n1 n1' s2 [_ ->].
  eapply sim_bind; [apply sim_get_q|]. intros d d' _ ->.
  eapply sim_bind.
  { apply sim_for_each. intros [key r].
    eapply sim_bind; [apply sim_get_q|]. intros x x' _ ->. apply sim_ret; auto. }
  intros ds ds' _ ->.
  rewrite rescaled_cls, expected_logp_rescaled.
  eapply sim_bind; [apply sim_lift|]. intros E E' _ ->.
  eapply sim_bind; [apply sim_get_q|]. intros d2 d2' _ ->.
  intros s r s' Hb.
  apply bind_Some in Hb as [(n2 & s3 & Hg & Hr)|(e & Hg & ->)].
  2:{ apply get_node_Some in Hg as (? & _ & ? & _). discriminate. }
  apply get_node_Some in Hg as (n2' & Hn2 & [= <-] & ->).
  assert (Hr' : r = Val (scaled (minibatch_scale_factor n2) (E', q_entropy d2')) /\ s' = s).
  { destruct (minibatch_scale_factor n2); inversion Hr; subst; auto. }
  destruct Hr' as [-> ->].
  exists (scaled (minibatch_scale_factor (rescaled_node k f self n2)) (E', q_entropy d2')).
  split.
  - rewrite (bind_eq_Val _ _ _ (rescaled_node k f self n2) (with_scale_factor k f s)).
    + destruct (minibatch_scale_factor (rescaled_node k f self n2)); reflexivity.
    + apply get_node_eq. rewrite lookup_with_scale_factor, Hn2. reflexivity.
  - exists (E', q_entropy d2'), n2. auto.
Qed.

End scale_simulation.


Section elbo.
Context `{Backend}.

Lemma strip_fields (n n' : node) :
  strip n' = strip n ->
  cls n' = cls n /\ minibatch_scale_factor n' = minibatch_scale_factor n /\
  K n' = K n /\ n_clusters n' = n_clusters n /\ input_nodes n' = input_nodes n /\
  output_shape n' = output_shape n.
Proof.
  intros Hs.
  repeat split.
  - exact (f_equal cls Hs).
  - exact (f_equal minibatch_scale_factor Hs).
  - exact (f_equal K Hs).
  - exact (f_equal n_clusters Hs).
  - exact (f_equal input_nodes Hs).
  - exact (f_equal output_shape Hs).
Qed.

(** The methods assign the sample cache and the posterior slot only. *)
Lemma base_elbo_term_keeps self i n s r s' :
  ConditionalDistribution_elbo_term classes self s = Some (r, s') ->
  nodes s !! i = Some n ->
  exists n', nodes s' !! i = Some n' /\ strip n' = strip n.
Proof.
  intros Hr Hn.
  apply (preserves_base_elbo_term classes (node_has i (fun m => strip m = strip n)))
    with (self := self) (s := s) (r := r).
  - intros j q. apply preserves_attach_q. intros q' l m Hl HJ.
    eapply (node_has_insert _ _ (set_q_distribution q')); eauto.
  - intros [] m; cbn; apply preserves_raise.
  - exists n. auto.
  - exact Hr.
Qed.

(** [elbo_term] of the node is the base [elbo_term] followed by the addition
    of the symmetry correction of its class. *)
Lemma elbo_term_via_base self hack s n r s' :
  nodes s !! self = Some n ->
  elbo_term self hack s = Some (Val r, s') ->
  correction_defined n hack /\
  exists r0, ConditionalDistribution_elbo_term classes self s = Some (Val r0, s') /\
             r = ((fst r0 + symmetry_correction n hack)%R, snd r0).
Proof.
  intros Hn He. unfold elbo_term in He.
  rewrite (bind_eq_Val _ _ _ _ _ (get_node_eq _ _ _ Hn)) in He.
  assert (Hplain : forall r0 : R * R, r0 = ((fst r0 + 0)%R, snd r0)).
  { intros [a b]. cbn. f_equal. lra. }
  unfold symmetry_correction, correction_defined.
  destruct (cls n) eqn:Hc.
  1,3,6: destruct hack; [discriminate|]; split; [reflexivity|];
         exists r; split; [exact He|apply Hplain].
  all: unfold NoisyGaussianMatrixProduct_elbo_term, NoisyLatentFeatures_elbo_term,
         GMMClustering_elbo_term in He;
       apply bind_Val in He as ([E Hent] & s1 & Hb & He);
       destruct (base_elbo_term_keeps _ _ _ _ _ _ Hb Hn) as (n' & Hn' & Hs);
       apply strip_fields in Hs as (_ & _ & HK & HN & _ & _).
  all: destruct hack as [[|]|]; cbn in He.
  all: try (inversion He; subst; split; [congruence|];
            exists (E, Hent); split; [assumption|]; cbn; f_equal; lra).
  all: rewrite (bind_eq_Val _ _ _ _ _ (get_node_eq _ _ _ Hn')) in He;
       rewrite ?HK, ?HN in He.
  1-4: destruct (K n) as [k|]; cbn in He; [|discriminate].
  5-6: destruct (n_clusters n) as [k|]; cbn in He; [|discriminate].
  all: inversion He; subst; split; [congruence|];
       exists (E, Hent); split; [assumption|]; cbn; f_equal; lra.
Qed.

Lemma elbo_result_eq {S : Type} (a a' b b' : R) (s : S) :
  a = a' -> b = b' -> Some (Val (a, b), s) = Some (Val (a', b'), s).
Proof. intros -> ->. reflexivity. Qed.

Lemma elbo_term_of_base self hack s n r0 s' :
  nodes s !! self = Some n ->
  correction_defined n hack ->
  ConditionalDistribution_elbo_term classes self s = Some (Val r0, s') ->
  elbo_term self hack s
  = Some (Val ((fst r0 + symmetry_correction n hack)%R, snd r0), s').
Proof.
  intros Hn Hd Hb. unfold elbo_term.
  rewrite (bind_eq_Val _ _ _ _ _ (get_node_eq _ _ _ Hn)).
  destruct (base_elbo_term_keeps _ _ _ _ _ _ Hb Hn) as (n' & Hn' & Hs).
  apply strip_fields in Hs as (_ & _ & HK & HN & _ & _).
  unfold symmetry_correction, correction_defined in *.
  destruct r0 as [E Hent].
  destruct (cls n) eqn:Hc.
  1,3,6: subst hack; rewrite Hb; cbn; apply elbo_result_eq; lra.
  all: unfold NoisyGaussianMatrixProduct_elbo_term, NoisyLatentFeatures_elbo_term,
         GMMClustering_elbo_term;
       rewrite (bind_eq_Val _ _ _ _ _ Hb).
  all: destruct hack as [[|]|]; cbn.
  all: try (unfold ret; apply elbo_result_eq; lra).
  all: rewrite (bind_eq_Val _ _ _ _ _ (get_node_eq _ _ _ Hn')); rewrite ?HK, ?HN.
  1-4: destruct (K n) as [k|]; [|exfalso; apply Hd; congruence].
  5-6: destruct (n_clusters n) as [k|]; [|exfalso; apply Hd; congruence].
  all: cbn; unfold ret; apply elbo_result_eq; lra.
Qed.

(** The effect of a scale factor [x] on [elbo_term]: the base part of both
    components is multiplied by [x]; the symmetry correction is added after
    the multiplication. *)
Lemma elbo_term_scaled self hack x s n E Hn s' :
  nodes s !! self = Some n ->
  minibatch_scale_factor n = None ->
  elbo_term self hack s = Some (Val (E, Hn), s') ->
  elbo_term self hack (with_scale_factor self (Some x) s)
  = Some (Val (((E - symmetry_correction n hack) * x + symmetry_correction n hack)%R,
               (Hn * x)%R),
          with_scale_factor self (Some x) s').
Proof.
  intros Hnode Hnone He.
  destruct (elbo_term_via_base _ _ _ _ _ _ Hnode He) as (Hd & r0 & Hb & Hr).
  pose proof (sim_base_elbo_term self (Some x) self _ _ _ Hb) as Hsim. cbn in Hsim.
  destruct Hsim as (r0' & Hb' & r00 & n2 & Hn2 & H0 & H0').
  destruct (base_elbo_term_keeps _ _ _ _ _ _ Hb Hnode) as (n2' & Hn2' & Hs).
  rewrite Hn2 in Hn2'. inversion Hn2'; subst n2'; clear Hn2'.
  apply strip_fields in Hs as (_ & Hm & _).
  rewrite Hm, Hnone in H0. cbn in H0. subst r00.
  unfold rescaled_node in H0'. rewrite decide_True in H0' by reflexivity.
  cbn in H0'. subst r0'.
  assert (Hn' : nodes (with_scale_factor self (Some x) s) !! self
                = Some (set_minibatch_scale_factor (Some x) n)).
  { rewrite lookup_with_scale_factor, Hnode. cbn. unfold rescaled_node.
    rewrite decide_True by reflexivity. reflexivity. }
  rewrite (elbo_term_of_base _ _ _ _ _ _ Hn' Hd Hb').
  inversion Hr; subst. cbn.
  change (symmetry_correction (set_minibatch_scale_factor (Some x) n) hack)
    with (symmetry_correction n hack).
  apply elbo_result_eq; ring.
Qed.

(** C1, as the code has it.  Let [E0] be the expected log-probability the
    base [elbo_term] computes for the node without scale factor and [c] the
    symmetry correction of the node's class, so that [elbo_term] returns
    [E0 + c] and the entropy [Hn].  With the scale factor [x], [elbo_term]
    returns [E0 * x + c] and [Hn * x]: the entropy is multiplied by [x], and
    the expected log-probability is multiplied by [x] before the correction
    is added.  Both components are multiplied by [x] when no correction is
    added: for the classes that use the base [elbo_term] and for
    [symmetry_correction_hack=False]. *)
Theorem minibatch_scaling (self : node_id) (hack : option bool) (x : R)
    (s s' : state) (n : node) (E Hn : R) :
  nodes s !! self = Some n ->
  minibatch_scale_factor n = None ->
  elbo_term self hack s = Some (Val (E, Hn), s') ->
  (exists E0,
     ConditionalDistribution_elbo_term classes self s = Some (Val (E0, Hn), s') /\
     E = (E0 + symmetry_correction n hack)%R /\
     elbo_term self hack (with_scale_factor self (Some x) s)
     = Some (Val ((E0 * x + symmetry_correction n hack)%R, (Hn * x)%R),
             with_scale_factor self (Some x) s')) /\
  (hack = Some false \/ cls n = FlatDistribution \/ cls n = NoisyCumulativeSum \/
   cls n = MultiplicativeGaussianNoise ->
   elbo_term self hack (with_scale_factor self (Some x) s)
   = Some (Val ((E * x)%R, (Hn * x)%R), with_scale_factor self (Some x) s')).
Proof.
  intros Hnode Hnone He.
  pose proof (elbo_term_scaled _ _ x _ _ _ _ _ Hnode Hnone He) as Hs.
  split.
  - destruct (elbo_term_via_base _ _ _ _ _ _ Hnode He) as (_ & [E0 H0] & Hb & Hr).
    inversion Hr; subst. cbn in *. exists E0. split; [exact Hb|]. split; [reflexivity|].
    rewrite Hs. apply elbo_result_eq; ring.
  - intros Hc. rewrite Hs.
    assert (symmetry_correction n hack = 0%R) as Hc0.
    { unfold symmetry_correction.
      destruct Hc as [->|[->|[->| ->]]]; try reflexivity;
        destruct hack as [[|]|]; reflexivity. }
    rewrite Hc0. apply elbo_result_eq; ring.
Qed.

End elbo.


(** ** Shapes, rescaling and the symmetry constants *)

Section numerics.
Context `{Backend}.

(** C6. The shape of the matrix product node is [(N, M)] for [A : (N, K)]
    and [B : (M, K2)] when [K = K2], and the assertion fails otherwise; the
    cumulative sum has the shape of [A]. *)
Theorem shape_inference :
  (forall std_shape,
     NoisyGaussianMatrixProduct__compute_shape [5; 3] [4; 3] std_shape = Val [5; 4] /\
     NoisyGaussianMatrixProduct__compute_shape [5; 3] [4; 2] std_shape
     = Raise AssertionError /\
     NoisyCumulativeSum__compute_shape [6; 2] std_shape = Val [6; 2]) /\
  (forall N k M k2 std_shape,
     NoisyGaussianMatrixProduct__compute_shape [N; k] [M; k2] std_shape
     = if bool_decide (k = k2) then Val [N; M] else Raise AssertionError) /\
  (forall A_shape std_shape,
     NoisyCumulativeSum__compute_shape A_shape std_shape = Val A_shape) /\
  (forall A_shape B_shape std_shape,
     _compute_shape NoisyGaussianMatrixProduct_class
       [("A_shape", A_shape); ("B_shape", B_shape); ("std_shape", std_shape)]
     = NoisyGaussianMatrixProduct__compute_shape A_shape B_shape std_shape) /\
  (forall A_shape std_shape,
     _compute_shape NoisyCumulativeSum_class
       [("A_shape", A_shape); ("std_shape", std_shape)]
     = Val A_shape).
Proof.
  split; [|split; [|split; [|split]]].
  - intros. repeat split; reflexivity.
  - intros N k M k2 std_shape. unfold NoisyGaussianMatrixProduct__compute_shape. cbn.
    destruct (bool_decide (k = k2)); reflexivity.
  - reflexivity.
  - reflexivity.
  - reflexivity.
Qed.

(** C7. With [rescale] set and inner dimension [k], [_sample] is
    [dot(A, B.T) / k + noise], the noise being added after the division; the
    correction of [_expected_logp] is the correction computed without
    rescaling divided by [k * k] (9 for [k = 3]); and the Gaussian term is
    the density at the mean prediction [matmul(mA, mB.T) / k]. *)
Theorem rescale_correct (self : node) (k : nat) :
  rescale self = Some true ->
  K self = Some k ->
  (forall A B std g,
     NoisyGaussianMatrixProduct__sample self (Some A) (Some B) (Some std) g
     = draw_then (draw_noise self)
         (fun z =>
            noise <~ np_binop Mul z std ;;
            prod <~ np_dot A (np_T B) ;;
            prod' <~ np_binop Div prod (np_scalar (INR k)) ;;
            np_binop Add prod' noise)%res g) /\
  (forall mA vA mB vB var,
     NoisyGaussianMatrixProduct_correction self mA vA mB vB var
     = (c <~ NoisyGaussianMatrixProduct_correction (set_rescale false self)
               mA vA mB vB var ;;
        Val (c / (INR k * INR k))%R)%res) /\
  (k = 3 ->
   forall mA vA mB vB var,
     NoisyGaussianMatrixProduct_correction self mA vA mB vB var
     = (c <~ NoisyGaussianMatrixProduct_correction (set_rescale false self)
               mA vA mB vB var ;;
        Val (c / 9)%R)%res) /\
  (forall x mA mB var,
     NoisyGaussianMatrixProduct_gaussian_lp self x mA mB var
     = (mBt <~ tf_transpose mB ;;
        expected_result <~ tf_matmul false mA mBt ;;
        expected_result' <~ tf_binop Div expected_result (np_scalar (INR k)) ;;
        lp <~ gaussian_log_density x expected_result' None (Some var) ;;
        tf_reduce_sum lp)%res) /\
  (forall q_result q_A q_B q_std,
     NoisyGaussianMatrixProduct__expected_logp self q_result q_A q_B q_std
     = (var <~ noise_variance q_result q_std ;;
        gaussian_lp <~ NoisyGaussianMatrixProduct_gaussian_lp self (q_mean q_result)
                         (q_mean q_A) (q_mean q_B) var ;;
        correction <~ NoisyGaussianMatrixProduct_correction self (q_mean q_A)
                        (q_variance q_A) (q_mean q_B) (q_variance q_B) var ;;
        Val (gaussian_lp - 0.5 * correction)%R)%res).
Proof.
  intros Hr Hk.
  assert (Hcorr : forall mA vA mB vB var,
     NoisyGaussianMatrixProduct_correction self mA vA mB vB var
     = (c <~ NoisyGaussianMatrixProduct_correction (set_rescale false self)
               mA vA mB vB var ;;
        Val (c / (INR k * INR k))%R)%res).
  { intros. unfold NoisyGaussianMatrixProduct_correction. cbn [rescale set_rescale].
    rewrite Hr, Hk.
    repeat match goal with
           | |- context [result_bind ?x _] =>
               lazymatch x with
               | result_bind _ _ => fail
               | _ => destruct x; cbn [result_bind getattr]; try reflexivity
               end
           end.
    rewrite mult_INR. reflexivity. }
  split; [|split; [|split; [|split]]].
  - intros. unfold NoisyGaussianMatrixProduct__sample, draw_then.
    destruct (draw_noise self g) as [[z|e] g']; [|reflexivity]. cbn.
    rewrite Hr, Hk. cbn.
    destruct (np_binop Mul z std); [|reflexivity]. cbn.
    destruct (np_dot A (np_T B)); reflexivity.
  - exact Hcorr.
  - intros -> mA vA mB vB var. rewrite Hcorr.
    replace (INR 3 * INR 3)%R with 9%R by (simpl; lra). reflexivity.
  - intros. unfold NoisyGaussianMatrixProduct_gaussian_lp. rewrite Hr, Hk.
    destruct (tf_transpose mB); [|reflexivity]. cbn.
    destruct (tf_matmul false mA a); reflexivity.
  - reflexivity.
Qed.

Lemma log_factorial_3 : log_factorial 3 = ln 6.
Proof.
  unfold log_factorial. cbn [seq map fold_right].
  replace (INR 1) with 1%R by (simpl; lra).
  replace (INR 2) with 2%R by (simpl; lra).
  replace (INR 3) with 3%R by (simpl; lra).
  rewrite ln_1. replace 6%R with (2 * 3)%R by lra.
  rewrite ln_mult by lra. lra.
Qed.

Lemma log_factorial_4 : log_factorial 4 = ln 24.
Proof.
  unfold log_factorial. cbn [seq map fold_right].
  replace (INR 1) with 1%R by (simpl; lra).
  replace (INR 2) with 2%R by (simpl; lra).
  replace (INR 3) with 3%R by (simpl; lra).
  replace (INR 4) with 4%R by (simpl; lra).
  rewrite ln_1. replace 24%R with (2 * (3 * 4))%R by lra.
  rewrite !ln_mult by lra. lra.
Qed.

(** C8. With the hack on, [elbo_term] of a matrix product node with [K = 4]
    adds [ln 24] and [4 ln 2] to the expected log-probability of the base
    [elbo_term], and [elbo_term] of a mixture node with three clusters adds
    [ln 6]; the entropy is the entropy of the base [elbo_term]. *)
Theorem symmetry_correction_constants (s s' : state) (self : node_id) (n : node)
    (E Hn : R) :
  nodes s !! self = Some n ->
  ConditionalDistribution_elbo_term classes self s = Some (Val (E, Hn), s') ->
  log_factorial 4 = ln 24 /\
  log_factorial 3 = ln 6 /\
  (cls n = NoisyGaussianMatrixProduct -> K n = Some 4 ->
   elbo_term self (Some true) s = Some (Val ((E + ln 24 + 4 * ln 2)%R, Hn), s') /\
   elbo_term self None s = Some (Val ((E + ln 24 + 4 * ln 2)%R, Hn), s') /\
   elbo_term self (Some false) s = Some (Val (E, Hn), s')) /\
  (cls n = GMMClustering -> n_clusters n = Some 3 ->
   elbo_term self (Some true) s = Some (Val ((E + ln 6)%R, Hn), s') /\
   elbo_term self None s = Some (Val ((E + ln 6)%R, Hn), s') /\
   elbo_term self (Some false) s = Some (Val (E, Hn), s')).
Proof.
  intros Hnode Hb.
  split; [apply log_factorial_4|]. split; [apply log_factorial_3|].
  split.
  - intros Hc HK.
    assert (Hd : forall hack, correction_defined n hack).
    { intros hack. unfold correction_defined. rewrite Hc, HK. congruence. }
    repeat split; rewrite (elbo_term_of_base _ _ _ _ _ _ Hnode (Hd _) Hb);
      unfold symmetry_correction; rewrite ?Hc, ?HK, ?log_factorial_4; cbn [fst snd];
      apply elbo_result_eq; try reflexivity;
      replace (INR 4) with 4%R by (simpl; lra); lra.
  - intros Hc HK.
    assert (Hd : forall hack, correction_defined n hack).
    { intros hack. unfold correction_defined. rewrite Hc, HK. congruence. }
    repeat split; rewrite (elbo_term_of_base _ _ _ _ _ _ Hnode (Hd _) Hb);
      unfold symmetry_correction; rewrite ?Hc, ?HK, ?log_factorial_3; cbn [fst snd];
      apply elbo_result_eq; try reflexivity; lra.
Qed.

End numerics.


(** ** Construction *)

Section construction.
Context `{Backend}.

Lemma for_each_get_node_total {B : Type} (g : string -> node -> B) (l : kwargs node_id) s :
  Forall (fun kp : string * node_id => snd kp < length (nodes s)) l ->
  exists bs, for_each (fun '(nm, p) => n <- get_node p ;; ret (g nm n)) l s
             = Some (Val bs, s).
Proof.
  induction l as [|[nm p] l IH]; intros HF; cbn.
  - eauto.
  - inversion HF as [|? ? Hp HF']; subst. cbn in Hp.
    destruct (lookup_lt_is_Some_2 _ _ Hp) as [n Hn].
    destruct (IH HF') as (bs & Hbs).
    unfold bind at 1. unfold bind at 1. rewrite (get_node_eq _ _ _ Hn). cbn.
    unfold bind at 1. rewrite Hbs. cbn. eauto.
Qed.

Lemma init_after_inputs_total c C pd pv shp dt msf nm ins s :
  Forall (fun kp : string * node_id => snd kp < length (nodes s)) ins ->
  exists r s', init_after_inputs c C pd pv shp dt msf nm ins s = Some (r, s') /\
    length (nodes s) <= length (nodes s') /\
    (forall self, r = Val self -> self < length (nodes s')) /\
    (shp = None -> (forall kws, exists e, _compute_shape C kws = Raise e) ->
     exists e, r = Raise e).
Proof.
  intros HF. unfold init_after_inputs.
  assert (Hshape : exists r1,
    (match shp with
     | Some s0 => ret s0
     | None =>
         input_shapes <-
           for_each (fun '(nm0, p) => n <- get_node p ;; ret (nm0 +:+ "_shape", output_shape n))
                    ins ;;
         lift (_compute_shape C input_shapes)
     end) s = Some (r1, s) /\
    (shp = None -> (forall kws, exists e, _compute_shape C kws = Raise e) ->
     exists e, r1 = Raise e)).
  { destruct shp as [s0|].
    - eexists. split; [reflexivity|discriminate].
    - destruct (for_each_get_node_total (fun nm0 n => (nm0 +:+ "_shape", output_shape n))
                  ins s HF) as (bs & Hbs).
      rewrite (bind_eq_Val _ _ _ _ _ Hbs).
      destruct (_compute_shape C bs) as [x|e] eqn:E; cbn.
      + eexists. split; [reflexivity|]. intros _ Hall.
        destruct (Hall bs) as (e & He). congruence.
      + eexists. split; [reflexivity|]. eauto. }
  destruct Hshape as (r1 & E1 & Hr1).
  unfold bind at 1. rewrite E1. destruct r1 as [shp'|e].
  2:{ do 2 eexists. split; [reflexivity|]. split; [lia|]. split; [discriminate|eauto]. }
  assert (Hdt : exists r2,
    (match dt with
     | Some d => ret d
     | None =>
         input_dtypes <-
           for_each (fun '(nm0, p) => n <- get_node p ;; ret (nm0 +:+ "_dtype", dtype n))
                    ins ;;
         lift (_compute_dtype C pd input_dtypes)
     end) s = Some (r2, s)).
  { destruct dt as [d|].
    - eexists. reflexivity.
    - destruct (for_each_get_node_total (fun nm0 n => (nm0 +:+ "_dtype", dtype n))
                  ins s HF) as (bs & Hbs).
      rewrite (bind_eq_Val _ _ _ _ _ Hbs).
      destruct (_compute_dtype C pd bs); cbn; eauto. }
  destruct Hdt as (r2 & E2).
  unfold bind at 1. rewrite E2. destruct r2 as [dt'|e].
  2:{ do 2 eexists. split; [reflexivity|]. split; [lia|]. split; [discriminate|].
      intros Hs Hall. destruct (Hr1 Hs Hall) as (e' & ?). discriminate. }
  destruct (for_each_get_node_total (fun _ n => ancestors n) ins s HF) as (anc & Hanc).
  unfold bind at 1. rewrite Hanc. unfold alloc_node.
  do 2 eexists. split; [reflexivity|]. cbn. rewrite length_app. cbn.
  split; [lia|]. split.
  - intros self [= <-]. lia.
  - intros Hs Hall. destruct (Hr1 Hs Hall) as (e' & ?). discriminate.
Qed.

Lemma attach_q_length i q s r s' :
  ConditionalDistribution_attach_q i q s = Some (r, s') ->
  length (nodes s') = length (nodes s).
Proof.
  intros Ha. destruct (nodes s !! i) as [n|] eqn:Hn.
  - rewrite (attach_q_cases _ _ _ _ Hn) in Ha.
    destruct (_q_distribution n); [inversion Ha; reflexivity|].
    destruct (qdists s !! q); [|discriminate].
    destruct (bool_decide _); inversion Ha; subst; cbn; [|reflexivity].
    apply length_insert.
  - unfold ConditionalDistribution_attach_q, bind, get_node in Ha.
    rewrite Hn in Ha. discriminate.
Qed.

Lemma FlatDistribution___init___total v fixed kw s :
  exists r s', FlatDistribution___init__ v fixed kw s = Some (r, s') /\
    length (nodes s) <= length (nodes s') /\
    (forall self, r = Val self -> self < length (nodes s')).
Proof.
  unfold FlatDistribution___init__.
  destruct (np_asarray v _) as [a|e].
  2:{ rewrite (bind_eq_Raise _ _ _ e s eq_refl).
      do 2 eexists. split; [reflexivity|]. split; [lia|discriminate]. }
  rewrite (bind_eq_Val _ _ _ a s eq_refl).
  destruct (kw_output_shape kw).
  { rewrite (bind_eq_Raise _ _ _ _ s eq_refl).
    do 2 eexists. split; [reflexivity|]. split; [lia|discriminate]. }
  rewrite (bind_eq_Val _ _ _ tt s eq_refl).
  edestruct (init_after_inputs_total FlatDistribution FlatDistribution_class)
    as (r1 & s1 & E1 & Hlen & Hself & _); [constructor|].
  destruct r1 as [self|e].
  2:{ rewrite (bind_eq_Raise _ _ _ _ _ E1).
      do 2 eexists. split; [reflexivity|]. split; [lia|discriminate]. }
  rewrite (bind_eq_Val _ _ _ _ _ E1).
  specialize (Hself self eq_refl).
  destruct fixed.
  - destruct (lookup_lt_is_Some_2 _ _ Hself) as [n Hn].
    set (d := ObservedQDistribution a).
    set (s1q := mk_state (nodes s1) (qdists s1 ++ [d])%list (rng s1)).
    assert (Hinner : (q <- alloc_q d ;; ConditionalDistribution_attach_q self q) s1
                     = ConditionalDistribution_attach_q self (length (qdists s1)) s1q)
      by reflexivity.
    destruct (ConditionalDistribution_attach_q self (length (qdists s1)) s1q)
      as [[r2 s2]|] eqn:E2.
    + apply attach_q_length in E2 as Hl. cbn in Hl.
      unfold bind at 1. rewrite Hinner.
      destruct r2; do 2 eexists; (split; [reflexivity|]); (split; [lia|]).
      * intros ? [= <-]. lia.
      * discriminate.
    + exfalso. rewrite (attach_q_cases _ _ _ n) in E2 by exact Hn.
      destruct (_q_distribution n); [discriminate|]. cbn in E2.
      rewrite lookup_app_r in E2 by lia. rewrite Nat.sub_diag in E2. cbn in E2.
      destruct (bool_decide _); discriminate.
  - rewrite (bind_eq_Val _ _ _ tt s1 eq_refl).
    do 2 eexists. split; [reflexivity|]. split; [lia|]. intros ? [= <-]. lia.
Qed.

Lemma dict_set_Forall {V : Type} (P : string * V -> Prop) k v (d : kwargs V) :
  P (k, v) -> Forall P d -> Forall P (dict_set k v d).
Proof.
  intros Hkv. induction 1 as [|[k' v'] d Hx Hd IH]; cbn.
  - constructor; [exact Hkv|constructor].
  - destruct (String.eqb k k'); constructor; auto.
Qed.

Lemma wire_inputs_total nm names kws :
  forall acc s,
    (forall k x, kw_get k kws = Some x -> valid_arg s x) ->
    Forall (fun kp : string * node_id => snd kp < length (nodes s)) acc ->
    exists r s', wire_inputs nm names kws acc s = Some (r, s') /\
      length (nodes s) <= length (nodes s') /\
      (forall ins, r = Val ins ->
         Forall (fun kp : string * node_id => snd kp < length (nodes s')) ins).
Proof.
  induction names as [|x names IH]; intros acc s Hargs Hacc; cbn [wire_inputs].
  - do 2 eexists. split; [reflexivity|]. split; [lia|]. intros ? [= <-]. exact Hacc.
  - destruct (kw_get x kws) as [[p| |v]|] eqn:Hx.
    + pose proof (Hargs _ _ Hx) as Hp. cbn in Hp.
      destruct (lookup_lt_is_Some_2 _ _ Hp) as [n Hn].
      rewrite (bind_eq_Val _ _ _ _ _ (get_node_eq _ _ _ Hn)).
      apply IH; [exact Hargs|]. apply dict_set_Forall; [exact Hp|exact Hacc].
    + apply IH; assumption.
    + destruct (FlatDistribution___init___total v true
                  (named (nm +:+ "_" +:+ x +:+ "_fixed")) s)
        as (r1 & s1 & E1 & Hlen & Hself).
      unfold bind at 1. rewrite E1. destruct r1 as [cn|e].
      2:{ do 2 eexists. split; [reflexivity|]. split; [lia|discriminate]. }
      destruct (IH (dict_set x cn acc) s1) as (r2 & s2 & E2 & Hlen2 & Hins).
      * intros k0 x0 Hk. specialize (Hargs _ _ Hk). destruct x0; cbn in *; auto. lia.
      * apply dict_set_Forall; [apply Hself; reflexivity|].
        eapply Forall_impl; [exact Hacc|]. cbn. intros. lia.
      * exists r2, s2. split; [exact E2|]. split; [lia|exact Hins].
    + do 2 eexists. split; [reflexivity|]. split; [lia|discriminate].
Qed.

Lemma base___init___total methods c kw kws s :
  (forall k x, kw_get k kws = Some x -> valid_arg s x) ->
  exists r s', ConditionalDistribution___init__ methods c kw kws s = Some (r, s') /\
    (forall self, r = Val self -> self < length (nodes s')) /\
    (kw_output_shape kw = None ->
     (forall kws', exists e, _compute_shape (methods c) kws' = Raise e) ->
     exists e, r = Raise e).
Proof.
  intros Hargs. unfold ConditionalDistribution___init__.
  destruct (wire_inputs_total (resolve_name c (kw_name kw) (kw_uuid kw))
              (inputs (methods c)) kws [] s Hargs) as (r1 & s1 & E1 & Hlen & Hins);
    [constructor|].
  unfold bind. rewrite E1. destruct r1 as [ins|e].
  2:{ do 2 eexists. split; [reflexivity|]. split; [discriminate|eauto]. }
  destruct (init_after_inputs_total c (methods c) None None (kw_output_shape kw)
              (kw_dtype kw) (kw_minibatch_scale_factor kw)
              (resolve_name c (kw_name kw) (kw_uuid kw)) ins s1 (Hins _ eq_refl))
    as (r2 & s2 & E2 & _ & Hself & Hraise).
  exists r2, s2. split; [exact E2|]. split; [exact Hself|exact Hraise].
Qed.

Lemma kw_get_3 {V : Type} (P : V -> Prop) a b c (x y z : V) :
  P x -> P y -> P z ->
  forall k v, kw_get k [(a, x); (b, y); (c, z)] = Some v -> P v.
Proof.
  intros Hx Hy Hz k v. cbn.
  destruct (String.eqb k a); [intros [= <-]; exact Hx|].
  destruct (String.eqb k b); [intros [= <-]; exact Hy|].
  destruct (String.eqb k c); [intros [= <-]; exact Hz|discriminate].
Qed.

(** The constructor of a subclass that reads [x.output_shape] of its
    argument [x] raises when [x] is a constant: the base constructor has
    wrapped the constant in a node, but the subclass reads the attribute of
    the constant itself. *)
Lemma subclass_reads_raw_argument (base : M node_id) (v : raw)
    (rest : node_id -> shape -> M node_id) s :
  (exists r s', base s = Some (r, s')) ->
  exists e s', (self <- base ;; shp <- arg_output_shape (ArgRaw v) ;; rest self shp) s
               = Some (Raise e, s') /\
    forall self s1, base s = Some (Val self, s1) ->
                    e = AttributeError "output_shape" /\ s' = s1.
Proof.
  intros (r & s' & E). unfold bind at 1. rewrite E. destruct r as [self|e].
  - exists (AttributeError "output_shape"), s'. split; [reflexivity|].
    intros ? ? [= <- <-]. auto.
  - exists e, s'. split; [reflexivity|]. discriminate.
Qed.

(** C2, on a constant given for an input a subclass constructor reads.
    NoisyGaussianMatrixProduct with a constant [A], NoisyLatentFeatures with
    a constant [B] and GMMClustering with constant [centers] raise: when the
    base constructor has returned (the constant wrapped in a fixed
    FlatDistribution), the exception is the AttributeError of
    [A.output_shape] on the constant. *)
Theorem constant_input_raises (v : raw) (x y : pyarg) (rescale_arg : bool)
    (kw : init_kwargs) (s : state) :
  valid_arg s x -> valid_arg s y ->
  (exists e s',
     NoisyGaussianMatrixProduct___init__ (ArgRaw v) x y rescale_arg kw s
     = Some (Raise e, s') /\
     forall self s1,
       ConditionalDistribution___init__ classes NoisyGaussianMatrixProduct kw
         [("A", ArgRaw v); ("B", x); ("std", y)] s = Some (Val self, s1) ->
       e = AttributeError "output_shape" /\ s' = s1) /\
  (exists e s',
     NoisyLatentFeatures___init__ (ArgRaw v) x y kw s = Some (Raise e, s') /\
     forall self s1,
       ConditionalDistribution___init__ classes NoisyLatentFeatures kw
         [("B", ArgRaw v); ("G", x); ("std", y)] s = Some (Val self, s1) ->
       e = AttributeError "output_shape" /\ s' = s1) /\
  (exists e s',
     GMMClustering___init__ x (ArgRaw v) y kw s = Some (Raise e, s') /\
     forall self s1,
       ConditionalDistribution___init__ classes GMMClustering kw
         [("weights", x); ("centers", ArgRaw v); ("std", y)] s = Some (Val self, s1) ->
       e = AttributeError "output_shape" /\ s' = s1).
Proof.
  intros Hx Hy.
  split; [|split].
  - unfold NoisyGaussianMatrixProduct___init__.
    apply (subclass_reads_raw_argument _ v
             (fun self shp => k <- lift (tuple_get shp 1) ;;
                              modify_node self (set_K k) ;;;
                              modify_node self (set_rescale rescale_arg) ;;; ret self)).
    destruct (base___init___total classes NoisyGaussianMatrixProduct kw
                [("A", ArgRaw v); ("B", x); ("std", y)] s) as (r & s' & E & _).
    { apply kw_get_3; cbn; auto. }
    eauto.
  - unfold NoisyLatentFeatures___init__.
    apply (subclass_reads_raw_argument _ v
             (fun self shp => k <- lift (tuple_get shp 1) ;;
                              modify_node self (set_K k) ;;; ret self)).
    destruct (base___init___total classes NoisyLatentFeatures kw
                [("B", ArgRaw v); ("G", x); ("std", y)] s) as (r & s' & E & _).
    { apply kw_get_3; cbn; auto. }
    eauto.
  - unfold GMMClustering___init__.
    apply (subclass_reads_raw_argument _ v
             (fun self shp => k <- lift (tuple_get shp 0) ;;
                              modify_node self (set_n_clusters k) ;;; ret self)).
    destruct (base___init___total classes GMMClustering kw
                [("weights", x); ("centers", ArgRaw v); ("std", y)] s) as (r & s' & E & _).
    { apply kw_get_3; cbn; auto. }
    eauto.
Qed.

Lemma GMMClustering__compute_shape_raises kws :
  exists e, _compute_shape GMMClustering_class kws = Raise e.
Proof.
  cbn. unfold call3, param.
  destruct (kw_get "weights_shape" kws); cbn; [|eauto].
  destruct (kw_get "centers_shape" kws); cbn; [|eauto].
  destruct (kw_get "std_shape" kws); cbn; eauto.
Qed.

Lemma init_after_inputs_Val c C pd pv shp dt msf nm ins s self s' :
  init_after_inputs c C pd pv (Some shp) dt msf nm ins s = Some (Val self, s') ->
  exists n, nodes s' = (nodes s ++ [n])%list /\ self = length (nodes s) /\
            output_shape n = shp /\ cls n = c.
Proof.
  unfold init_after_inputs. intros Hi.
  rewrite (bind_eq_Val _ _ _ shp s) in Hi by reflexivity.
  apply bind_Val in Hi as (dt' & s1 & Hdt & Hi).
  assert (s1 = s) as ->.
  { destruct dt; [inversion Hdt; reflexivity|].
    apply bind_Val in Hdt as (bs & s2 & Hf & Hl).
    apply for_each_get_node in Hf as [-> _]. apply lift_Some in Hl as [_ ->]. reflexivity. }
  apply bind_Val in Hi as (anc & s2 & Hf & Ha).
  apply (for_each_get_node (fun _ n => ancestors n)) in Hf as [-> _].
  unfold alloc_node in Ha. inversion Ha; subst. cbn. eauto.
Qed.

(** C9. [GMMClustering._compute_shape] raises for all shapes, so the
    constructor raises when no [output_shape] is given; with an
    [output_shape] the constructor does not depend on [_compute_shape] and
    the node has the given shape. *)
Theorem gmm_shape_required (weights centers std : pyarg) (kw : init_kwargs) (s : state) :
  valid_arg s weights -> valid_arg s centers -> valid_arg s std ->
  (forall weights_shape centers_shape std_shape,
     GMMClustering__compute_shape weights_shape centers_shape std_shape
     = Raise (PyException
         "cannot infer shape for GMMClustering, must specify number of cluster draws")) /\
  (kw_output_shape kw = None ->
   exists e s', GMMClustering___init__ weights centers std kw s = Some (Raise e, s')) /\
  (forall shp, kw_output_shape kw = Some shp ->
     (forall f,
        ConditionalDistribution___init__
          (fun c => override_compute_shape f (classes c)) GMMClustering kw
          [("weights", weights); ("centers", centers); ("std", std)]
        = ConditionalDistribution___init__ classes GMMClustering kw
          [("weights", weights); ("centers", centers); ("std", std)]) /\
     (forall self s',
        GMMClustering___init__ weights centers std kw s = Some (Val self, s') ->
        exists n, nodes s' !! self = Some n /\ cls n = GMMClustering /\
                  output_shape n = shp)).
Proof.
  intros Hw Hc Hs. split; [reflexivity|]. split.
  - intros Hnone. unfold GMMClustering___init__.
    destruct (base___init___total classes GMMClustering kw
                [("weights", weights); ("centers", centers); ("std", std)] s)
      as (r & s' & E & _ & Hraise).
    { apply kw_get_3; auto. }
    destruct (Hraise Hnone GMMClustering__compute_shape_raises) as (e & ->).
    exists e, s'. unfold bind. rewrite E. reflexivity.
  - intros shp Hshp. split.
    + intros f. unfold ConditionalDistribution___init__, init_after_inputs.
      rewrite Hshp. reflexivity.
    + intros self s' Hi. unfold GMMClustering___init__ in Hi.
      apply bind_Val in Hi as (self0 & s1 & Hb & Hi).
      unfold ConditionalDistribution___init__ in Hb.
      apply bind_Val in Hb as (ins & s0 & _ & Hb). rewrite Hshp in Hb.
      apply init_after_inputs_Val in Hb as (n & Hn & Hself & Hos & Hcls).
      apply bind_Val in Hi as (cshape & s2 & Ha & Hi).
      assert (s2 = s1) as ->.
      { destruct centers; cbn in Ha; try discriminate.
        apply bind_Val in Ha as (m & s3 & Hg & Hr).
        apply get_node_Some in Hg as (? & _ & _ & ->). inversion Hr; reflexivity. }
      apply bind_Val in Hi as (k & s2 & Hl & Hi). apply lift_Some in Hl as [_ ->].
      apply bind_Val in Hi as ([] & s2 & Hm & Hr).
      apply modify_node_Some in Hm as (m & Hm & _ & ->).
      inversion Hr; subst self s'. cbn.
      assert (m = n) as ->.
      { rewrite Hn, Hself in Hm. rewrite list_lookup_middle in Hm by reflexivity.
        congruence. }
      exists (set_n_clusters k n). split; [|split; [exact Hcls|exact Hos]].
      apply list_lookup_insert_eq. rewrite Hn, length_app. cbn. lia.
Qed.

End construction.


(** ** The example model *)

Section examples.
#[local] Existing Instance Reference.backend.

Lemma run_all_Some prog s :
  match run_all prog s with Some _ => true | None => false end = true ->
  run_all prog s = Some (match run_all prog s with Some s' => s' | None => initial_state end).
Proof. destruct (run_all prog s); [reflexivity|discriminate]. Qed.

Lemma reachable_run_all prog s s' :
  reachable s -> run_all prog s = Some s' -> reachable s'.
Proof.
  revert s. induction prog as [|c prog IH]; intros s Hr Hrun; cbn in Hrun.
  - inversion Hrun; subst. exact Hr.
  - destruct (run c s) as [s1|] eqn:E; [|discriminate].
    eapply IH; [|exact Hrun]. eapply reachable_step; eauto.
Qed.

Lemma example_built_reachable : reachable Demo.built.
Proof.
  apply (reachable_run_all Demo.build initial_state); [constructor|].
  apply run_all_Some. vm_compute. reflexivity.
Qed.

Lemma example_store_reachable : reachable Demo.store.
Proof.
  apply (reachable_run_all Demo.attach Demo.built);
    [apply example_built_reachable|].
  apply run_all_Some. vm_compute. reflexivity.
Qed.

(** The nodes of the example: names, parents, posterior slots, and the
    attributes the subclasses have set. *)
Example example_store_nodes :
  map (fun n => (name n, input_nodes n, _q_distribution n, K n, n_clusters n,
                 output_shape n))
      (nodes Demo.store)
  = [("A", [], Some 0, None, None, [1; 4]);
     ("B", [], Some 1, None, None, [1; 4]);
     ("std", [], Some 2, None, None, []);
     ("X", [("A", 0); ("B", 1); ("std", 2)], Some 5, Some 4, None, [1; 1]);
     ("weights", [], Some 3, None, None, [3]);
     ("centers", [], Some 4, None, None, [3; 2]);
     ("G", [("weights", 4); ("centers", 5); ("std", 2)], Some 6, None, Some 3, [2; 2])].
Proof. vm_compute. reflexivity. Qed.

(** A sample of [X] with seed 5: the product divided by [K = 4], then the
    noise. *)
Example example_sample_X :
  match sample 7 3 5 Demo.store with
  | Some (Val (Some x), _) => Some (x : Reference.rarray)
  | _ => None
  end
  = Some (Reference.RMatrix
            [[((1 * 1 + (2 * 1 + (3 * 1 + (4 * 1 + 0)))) / INR 4 + -2 * 1)%R]]).
Proof. vm_compute. reflexivity. Qed.

(** A cumulative-sum node takes constants for both inputs: each is wrapped
    in a fixed FlatDistribution with an observed posterior. *)
Example example_constants_wrapped :
  match NoisyCumulativeSum___init__ (ArgRaw Demo.centers) (ArgRaw Demo.std)
          (named "C") Demo.store with
  | Some (Val self, s') =>
      Some (self,
            map (fun n => (cls n, name n, input_nodes n, _q_distribution n,
                           output_shape n))
                (drop 7 (nodes s')),
            map q_observed (drop 7 (qdists s')))
  | _ => None
  end
  = Some (9,
          [(FlatDistribution, "C_A_fixed", [], Some 7, [3; 2]);
           (FlatDistribution, "C_std_fixed", [], Some 8, []);
           (NoisyCumulativeSum, "C", [("A", 7); ("std", 8)], None, [3; 2])],
          [true; true]).
Proof. vm_compute. reflexivity. Qed.

Lemma ln_2_pos : (0 < ln 2)%R.
Proof. pose proof ln_lt_2. lra. Qed.

Lemma log_factorial_nonneg k : (0 <= log_factorial k)%R.
Proof.
  unfold log_factorial. generalize 1 at 1. induction k as [|k IH]; intros a; cbn.
  - lra.
  - specialize (IH (S a)).
    assert (0 <= ln (INR a))%R; [|lra].
    destruct a as [|a].
    + unfold ln.
      match goal with
      | |- context [Rlt_dec ?x ?y] => destruct (Rlt_dec x y) as [Hlt|_]
      end; [exfalso; simpl in Hlt; lra|lra].
    + rewrite <- ln_1. destruct (Req_dec (INR (S a)) 1) as [->|Hne]; [lra|].
      left. apply ln_increasing; [lra|].
      pose proof (pos_INR a). rewrite S_INR in *. lra.
Qed.

(** The node [X] of the example store. *)
Lemma example_X :
  exists n, nodes Demo.store !! 3 = Some n /\
            cls n = NoisyGaussianMatrixProduct /\ K n = Some 4 /\
            minibatch_scale_factor n = None.
Proof.
  assert (Hp : (fun o => match o with
                         | Some n => Some (cls n, K n, minibatch_scale_factor n)
                         | None => None
                         end) (nodes Demo.store !! 3)
               = Some (NoisyGaussianMatrixProduct, Some 4, None))
    by (vm_compute; reflexivity).
  cbv beta in Hp. destruct (nodes Demo.store !! 3) as [n|]; [|discriminate].
  exists n. inversion Hp. auto.
Qed.

(** C1 as stated fails on [X], a matrix product with [K = 4], for the scale
    factor 10 and the default [symmetry_correction_hack]: the expected
    log-probability of the scaled node is not 10 times the unscaled one. *)
Lemma scaling_counterexample :
  exists E Hn s',
    elbo_term 3 None Demo.store = Some (Val (E, Hn), s') /\
    elbo_term 3 None (with_scale_factor 3 (Some 10%R) Demo.store)
    <> Some (Val ((E * 10)%R, (Hn * 10)%R), with_scale_factor 3 (Some 10%R) s').
Proof.
  assert (Hv : returns_value (elbo_term 3 None Demo.store) = true)
    by (vm_compute; reflexivity).
  destruct (elbo_term 3 None Demo.store) as [[[[E Hn]|e] s']|] eqn:He;
    try discriminate Hv.
  exists E, Hn, s'. split; [reflexivity|].
  destruct example_X as (n & Hnode & Hcls & HK & Hm).
  rewrite (elbo_term_scaled 3 None 10 Demo.store n E Hn s' Hnode Hm He).
  unfold symmetry_correction. rewrite Hcls, HK.
  intros Heq. inversion Heq as [HE].
  pose proof (log_factorial_nonneg 4). pose proof ln_2_pos.
  replace (INR 4) with 4%R in HE by (simpl; lra). lra.
Qed.

Lemma minibatch_scaling_witness :
  exists E Hn s',
    elbo_term 3 (Some false) Demo.store = Some (Val (E, Hn), s') /\
    elbo_term 3 (Some false) (with_scale_factor 3 (Some 10%R) Demo.store)
    = Some (Val ((E * 10)%R, (Hn * 10)%R), with_scale_factor 3 (Some 10%R) s').
Proof.
  assert (Hv : returns_value (elbo_term 3 (Some false) Demo.store) = true)
    by (vm_compute; reflexivity).
  destruct (elbo_term 3 (Some false) Demo.store) as [[[[E Hn]|e] s']|] eqn:He;
    try discriminate Hv.
  exists E, Hn, s'. split; [reflexivity|].
  destruct example_X as (n & Hnode & _ & _ & Hm).
  apply (proj2 (minibatch_scaling 3 (Some false) 10 Demo.store s' n E Hn Hnode Hm He)).
  left. reflexivity.
Defined.

Lemma constant_input_raises_witness :
  exists s',
    NoisyGaussianMatrixProduct___init__ (ArgRaw Demo.A) (ArgRaw Demo.B)
      (ArgRaw Demo.std) true (named "X2") Demo.store
    = Some (Raise (AttributeError "output_shape"), s').
Proof.
  destruct (constant_input_raises Demo.A (ArgRaw Demo.B) (ArgRaw Demo.std)
              true (named "X2") Demo.store I I)
    as [(e & s' & Hinit & Hbase) _].
  assert (Hv : returns_value
                 (ConditionalDistribution___init__ classes NoisyGaussianMatrixProduct
                    (named "X2")
                    [("A", ArgRaw Demo.A); ("B", ArgRaw Demo.B);
                     ("std", ArgRaw Demo.std)] Demo.store) = true)
    by (vm_compute; reflexivity).
  destruct (ConditionalDistribution___init__ classes NoisyGaussianMatrixProduct
              (named "X2")
              [("A", ArgRaw Demo.A); ("B", ArgRaw Demo.B);
               ("std", ArgRaw Demo.std)] Demo.store)
    as [[[self|e0] s1]|] eqn:Eb; try discriminate Hv.
  destruct (Hbase self s1 eq_refl) as [-> ->]. exists s1. exact Hinit.
Defined.

(** C3 as stated fails on [C], the cumulative sum of [Cases.extended] that
    was built without its [std]: [_sample] raises, after the seed marker
    has been set.  The first [sample(5)] raises and the second returns the
    cache, [None]: the two consecutive calls do not return the same value. *)
Lemma sample_repeat_counterexample :
  exists e s1,
    ConditionalDistribution_sample classes 9 8 5 Cases.extended = Some (Raise e, s1) /\
    ConditionalDistribution_sample classes 9 8 5 s1 = Some (Val None, s1).
Proof.
  assert (Hv : match ConditionalDistribution_sample classes 9 8 5 Cases.extended with
               | Some (Raise _, s1) =>
                   match nodes s1 !! 8 with
                   | Some n1 =>
                       bool_decide (_sampled_value_seed n1 = Some 5%Z) &&
                       match _sampled_value n1 with None => true | Some _ => false end
                   | None => false
                   end
               | _ => false
               end = true) by (vm_compute; reflexivity).
  destruct (ConditionalDistribution_sample classes 9 8 5 Cases.extended)
    as [[[v|e] s1]|] eqn:He; try discriminate Hv.
  destruct (nodes s1 !! 8) as [n1|] eqn:Hn1; [|discriminate Hv].
  apply andb_true_iff in Hv as [Hm Hval]. apply bool_decide_eq_true in Hm.
  destruct (_sampled_value n1) as [x|] eqn:Hcache; [discriminate Hval|].
  exists e, s1. split; [reflexivity|].
  rewrite (sample_cached classes 8 8 5 s1 n1 Hn1 Hm). rewrite Hcache. reflexivity.
Qed.

Lemma sample_deterministic_witness :
  exists v s1,
    ConditionalDistribution_sample classes 7 3 5 Demo.store = Some (Val v, s1) /\
    ConditionalDistribution_sample classes 1 3 5 s1 = Some (Val v, s1).
Proof.
  assert (Hv : returns_value (ConditionalDistribution_sample classes 7 3 5 Demo.store)
               = true) by (vm_compute; reflexivity).
  destruct (ConditionalDistribution_sample classes 7 3 5 Demo.store)
    as [[[v|e] s1]|] eqn:He; try discriminate Hv.
  exists v, s1. split; [reflexivity|].
  exact (proj1 (sample_deterministic classes 7 3 5 Demo.store s1 (Val v) He) 0).
Defined.

Lemma ancestors_invariant_witness :
  reachable Demo.store /\
  forall i n, nodes Demo.store !! i = Some n ->
    ancestors_closed_at (nodes Demo.store) i n /\
    (input_nodes n = [] -> ancestors n = {[i]}).
Proof.
  split; [apply example_store_reachable|].
  exact (proj1 (ancestors_invariant Demo.store example_store_reachable)).
Defined.

(** The nodes [A] and [X] and the posteriors 0 and 5 of the store [built]. *)
Lemma example_built_slots :
  exists n0 n3 d0 d5,
    nodes Demo.built !! 0 = Some n0 /\ nodes Demo.built !! 3 = Some n3 /\
    qdists Demo.built !! 0 = Some d0 /\ qdists Demo.built !! 5 = Some d5 /\
    _q_distribution n0 = Some 0 /\ _q_distribution n3 = None /\
    output_shape n3 = [1; 1] /\ q_output_shape d0 = [1; 4] /\
    q_output_shape d5 = [1; 1].
Proof.
  assert (Hp : (fun o0 o3 p0 p5 =>
                  match o0, o3, p0, p5 with
                  | Some n0, Some n3, Some d0, Some d5 =>
                      Some (_q_distribution n0, _q_distribution n3, output_shape n3,
                            q_output_shape d0, q_output_shape d5)
                  | _, _, _, _ => None
                  end)
                 (nodes Demo.built !! 0) (nodes Demo.built !! 3)
                 (qdists Demo.built !! 0) (qdists Demo.built !! 5)
               = Some (Some 0, None, [1; 1], [1; 4], [1; 1]))
    by (vm_compute; reflexivity).
  cbv beta in Hp.
  destruct (nodes Demo.built !! 0) as [n0|]; [|discriminate].
  destruct (nodes Demo.built !! 3) as [n3|]; [|discriminate].
  destruct (qdists Demo.built !! 0) as [d0|]; [|discriminate].
  destruct (qdists Demo.built !! 5) as [d5|]; [|discriminate].
  exists n0, n3, d0, d5. inversion Hp. repeat split; assumption.
Qed.

Lemma attach_once_witness :
  (exists msg, attach_q 0 5 Demo.built = Some (Raise (PyException msg), Demo.built)) /\
  attach_q 3 0 Demo.built = Some (Raise AssertionError, Demo.built) /\
  (exists s', attach_q 3 5 Demo.built = Some (Val tt, s') /\
              ConditionalDistribution_q_distribution classes 3 s' = Some (Val 5, s')).
Proof.
  destruct example_built_slots
    as (n0 & n3 & d0 & d5 & H0 & H3 & Q0 & Q5 & Hn0 & Hslot & Hshape & Hd0 & Hd5).
  split; [|split].
  - apply (proj1 (attach_once Demo.built 0 n0 5 d5 H0 Q5)). congruence.
  - apply (proj1 (proj2 (attach_once Demo.built 3 n3 0 d0 H3 Q0)) Hslot).
    rewrite Hd0, Hshape. discriminate.
  - destruct (proj2 (proj2 (attach_once Demo.built 3 n3 5 d5 H3 Q5)) Hslot)
      as (s' & Ha & Hq).
    { rewrite Hd5, Hshape. reflexivity. }
    exists s'. split; [exact Ha|]. exact (Hq classes [] s' eq_refl).
Defined.

Lemma rescale_correct_witness :
  rescale Demo.node_K3 = Some true /\ K Demo.node_K3 = Some 3 /\
  forall mA vA mB vB var,
    NoisyGaussianMatrixProduct_correction Demo.node_K3 mA vA mB vB var
    = (c <~ NoisyGaussianMatrixProduct_correction (set_rescale false Demo.node_K3)
              mA vA mB vB var ;;
       Val (c / 9)%R)%res.
Proof.
  split; [reflexivity|]. split; [reflexivity|].
  exact (proj1 (proj2 (proj2 (rescale_correct Demo.node_K3 3 eq_refl eq_refl))) eq_refl).
Defined.

Lemma symmetry_correction_constants_witness :
  exists E Hn s',
    ConditionalDistribution_elbo_term classes 3 Demo.store = Some (Val (E, Hn), s') /\
    elbo_term 3 (Some true) Demo.store
    = Some (Val ((E + ln 24 + 4 * ln 2)%R, Hn), s') /\
    elbo_term 3 (Some false) Demo.store = Some (Val (E, Hn), s').
Proof.
  assert (Hv : returns_value (ConditionalDistribution_elbo_term classes 3 Demo.store)
               = true) by (vm_compute; reflexivity).
  destruct (ConditionalDistribution_elbo_term classes 3 Demo.store)
    as [[[[E Hn]|e] s']|] eqn:He; try discriminate Hv.
  exists E, Hn, s'. split; [reflexivity|].
  destruct example_X as (n & Hnode & Hcls & HK & _).
  destruct (symmetry_correction_constants Demo.store s' 3 n E Hn Hnode He)
    as (_ & _ & HX & _).
  destruct (HX Hcls HK) as (Ht & _ & Hf). split; assumption.
Defined.

Lemma example_valid_args :
  valid_arg Demo.store (ArgNode 4) /\ valid_arg Demo.store (ArgNode 5) /\
  valid_arg Demo.store (ArgNode 2).
Proof.
  assert (Hl : length (nodes Demo.store) = 7) by (vm_compute; reflexivity).
  unfold valid_arg. rewrite Hl. lia.
Qed.

Lemma gmm_shape_required_witness :
  (exists e s',
     GMMClustering___init__ (ArgNode 4) (ArgNode 5) (ArgNode 2) (named "G2")
       Demo.store = Some (Raise e, s')) /\
  (forall self s',
     GMMClustering___init__ (ArgNode 4) (ArgNode 5) (ArgNode 2)
       (mk_init_kwargs (Some [2; 2]) None None (Some "G3") EmptyString) Demo.store
     = Some (Val self, s') ->
     exists n, nodes s' !! self = Some n /\ cls n = GMMClustering /\
               output_shape n = [2; 2]).
Proof.
  destruct example_valid_args as (H4 & H5 & H2).
  split.
  - exact (proj1 (proj2 (gmm_shape_required (ArgNode 4) (ArgNode 5) (ArgNode 2)
                           (named "G2") Demo.store H4 H5 H2)) eq_refl).
  - exact (proj2 (proj2 (proj2 (gmm_shape_required (ArgNode 4) (ArgNode 5) (ArgNode 2)
                                  (mk_init_kwargs (Some [2; 2]) None None (Some "G3") EmptyString)
                                  Demo.store H4 H5 H2)) [2; 2] eq_refl)).
Defined.

Lemma attach_q_atomic_witness :
  exists e s',
    attach_q 0 5 Demo.built = Some (Raise e, s') /\ s' = Demo.built.
Proof.
  assert (Hv : raises (attach_q 0 5 Demo.built) = true) by (vm_compute; reflexivity).
  destruct (attach_q 0 5 Demo.built) as [[[u|e] s']|] eqn:He; try discriminate Hv.
  exists e, s'. split; [reflexivity|].
  exact (proj1 (attach_q_atomic 0 5 Demo.built s' e He)).
Defined.

End examples.


(** * Further properties *)

Section ancestry.
Context `{Backend}.

Lemma closed_at_parent (l : list node) i n k p :
  ancestors_closed_at l i n -> (k, p) ∈ input_nodes n ->
  exists pn, l !! p = Some pn /\ ancestors pn ⊆ ancestors n.
Proof.
  intros (anc & HF & Heq) Hin.
  apply list_elem_of_lookup in Hin as [m Hm].
  destruct (Forall2_lookup_l _ _ _ _ _ HF Hm) as (a & Ha & pn & Hpn & ->).
  exists pn. split; [exact Hpn|]. rewrite Heq.
  intros x Hx. apply elem_of_union_r. apply elem_of_union_list.
  exists (ancestors pn). split; [|exact Hx]. eapply list_elem_of_lookup_2; eauto.
Qed.

Lemma closed_at_elem (l : list node) i n j :
  ancestors_closed_at l i n -> j ∈ ancestors n ->
  j = i \/ exists k p pn, (k, p) ∈ input_nodes n /\ l !! p = Some pn /\ j ∈ ancestors pn.
Proof.
  intros (anc & HF & Heq) Hj. rewrite Heq in Hj.
  apply elem_of_union in Hj as [Hj|Hj].
  - left. apply elem_of_singleton in Hj. exact Hj.
  - right. apply elem_of_union_list in Hj as (a & Ha & Hj).
    apply list_elem_of_lookup in Ha as [m Hm].
    destruct (Forall2_lookup_r _ _ _ _ _ HF Hm) as ([k p] & Hkp & pn & Hpn & ->).
    exists k, p, pn. split; [|auto]. eapply list_elem_of_lookup_2; eauto.
Qed.

Lemma closed_at_self (l : list node) i n : ancestors_closed_at l i n -> i ∈ ancestors n.
Proof. intros (anc & _ & ->). apply elem_of_union_l, elem_of_singleton. reflexivity. Qed.

Lemma ancestors_feeds (l : list node) :
  graph_ok l ->
  forall i n j, l !! i = Some n -> (j ∈ ancestors n <-> feeds_into l i j).
Proof.
  intros [Hold Hcl] i. induction (lt_wf i) as [i _ IH]. intros n j Hn. split.
  - intros Hj. destruct (closed_at_elem _ _ _ _ (Hcl _ _ Hn) Hj)
      as [->|(k & p & pn & Hin & Hpn & Hjp)].
    + eapply feeds_self; eauto.
    + eapply feeds_parent; eauto. apply (IH p) with (n := pn); auto.
      pose proof (Hold _ _ Hn) as HF. rewrite Forall_forall in HF.
      apply (HF (k, p)). exact Hin.
  - intros Hf. inversion Hf as [i' n' Hn'|i' n' k p j' Hn' Hin Hp]; subst.
    + apply closed_at_self with (l := l). auto.
    + rewrite Hn in Hn'. inversion Hn'; subst n'.
      destruct (closed_at_parent _ _ _ _ _ (Hcl _ _ Hn) Hin) as (pn & Hpn & Hsub).
      apply Hsub. apply (IH p) with (n := pn); auto.
      pose proof (Hold _ _ Hn) as HF. rewrite Forall_forall in HF.
      apply (HF (k, p)). exact Hin.
Qed.

Lemma feeds_into_older (l : list node) i j :
  parents_older l -> feeds_into l i j -> j <= i /\ is_Some (l !! j).
Proof.
  intros Hold Hf. induction Hf as [i n Hn|i n k p j Hn Hin Hf [IH1 IH2]].
  - split; [lia|eauto].
  - split; [|exact IH2].
    pose proof (Hold _ _ Hn) as HF. rewrite Forall_forall in HF.
    specialize (HF (k, p) Hin). cbn in HF. lia.
Qed.

Lemma feeds_into_trans (l : list node) i j x :
  feeds_into l i j -> feeds_into l j x -> feeds_into l i x.
Proof.
  intros Hf. induction Hf as [i n Hn|i n k p j Hn Hin Hf IH]; intros Hx.
  - exact Hx.
  - eapply feeds_parent; eauto.
Qed.

Lemma ancestors_older (l : list node) i n j :
  graph_ok l -> l !! i = Some n -> j ∈ ancestors n ->
  j <= i /\ exists m, l !! j = Some m /\ ancestors m ⊆ ancestors n.
Proof.
  intros Hok Hn Hj. pose proof (proj1 (ancestors_feeds l Hok i n j Hn) Hj) as Hf.
  destruct (feeds_into_older l i j (proj1 Hok) Hf) as [Hle [m Hm]].
  split; [exact Hle|]. exists m. split; [exact Hm|].
  intros x Hx. apply (ancestors_feeds l Hok i n x Hn).
  eapply feeds_into_trans; [exact Hf|].
  apply (ancestors_feeds l Hok j m x Hm). exact Hx.
Qed.

(** X1. In every store a program can reach, the [ancestors] attribute of a
    node is exactly the set of nodes that feed it through chains of
    [input_nodes], the node itself included; every ancestor is an existing
    node that is not younger than the node, and its own [ancestors] are
    among the node's. *)
Theorem ancestors_are_the_feeding_nodes (s : state) (i : node_id) (n : node) :
  reachable s ->
  nodes s !! i = Some n ->
  (forall j, j ∈ ancestors n <-> feeds_into (nodes s) i j) /\
  (forall j, j ∈ ancestors n ->
     j <= i /\ exists m, nodes s !! j = Some m /\ ancestors m ⊆ ancestors n) /\
  (forall k p, (k, p) ∈ input_nodes n -> p < i /\ p ∈ ancestors n).
Proof.
  intros Hr Hn. pose proof (graph_ok_reachable s Hr) as Hok.
  split; [|split].
  - intros j. apply ancestors_feeds; auto.
  - intros j Hj. eapply ancestors_older; eauto.
  - intros k p Hin. split.
    + pose proof (proj1 Hok _ _ Hn) as HF. rewrite Forall_forall in HF.
      apply (HF (k, p) Hin).
    + destruct (closed_at_parent _ _ _ _ _ (proj2 Hok _ _ Hn) Hin) as (pn & Hpn & Hsub).
      apply Hsub. apply closed_at_self with (l := nodes s). apply (proj2 Hok). exact Hpn.
Qed.

End ancestry.


Section sampling_frame.
Context `{Backend}.
Variable methods : kind -> node_class.

Lemma node_has_insert_ne i0 (P : node -> Prop) i (l : list node) x :
  i <> i0 -> node_has i0 P l -> node_has i0 P (<[i := x]> l).
Proof.
  intros Hne (n & Hn & HP). exists n. split; [|exact HP].
  rewrite list_lookup_insert_ne; auto.
Qed.

Lemma on_qdists_set_rng (P : list qdist -> Prop) g :
  preserves (fun s => P (qdists s)) (set_rng g).
Proof. intros s r s' HI Hs. inversion Hs; subst. exact HI. Qed.

Lemma on_qdists_with_rng {A : Type} (P : list qdist -> Prop)
    (f : rng_state -> result A * rng_state) :
  preserves (fun s => P (qdists s)) (with_rng f).
Proof.
  intros s r s' HI Hs. unfold with_rng in Hs. destruct (f (rng s)).
  inversion Hs; subst. exact HI.
Qed.

Lemma on_qdists_modify_node (P : list qdist -> Prop) i f :
  preserves (fun s => P (qdists s)) (modify_node i f).
Proof. intros s r s' HI Hs. apply modify_node_Some in Hs as (n & _ & _ & ->). exact HI. Qed.

Lemma sample_keeps_qdists (P : list qdist -> Prop) seed fuel :
  forall self,
    preserves (fun s => P (qdists s)) (ConditionalDistribution_sample methods fuel self seed).
Proof.
  induction fuel as [|fuel IH]; intros self; cbn [ConditionalDistribution_sample].
  - pres.
  - apply preserves_bind; [pres|]. intros n.
    apply preserves_bind; [|intros; pres].
    destruct (bool_decide _); [|pres].
    apply preserves_bind.
    { apply preserves_for_each. intros [nm p] _. pres. apply IH. }
    intros ins.
    apply preserves_bind; [apply on_qdists_set_rng|]. intros _.
    apply preserves_bind; [apply on_qdists_modify_node|]. intros _.
    apply preserves_bind; [pres|]. intros n1.
    apply preserves_bind; [apply on_qdists_with_rng|]. intros v.
    apply on_qdists_modify_node.
Qed.

(** Once a node is marked with [seed], [sample(seed)] anywhere in the graph
    leaves its cache alone. *)
Lemma sample_keeps_marked seed p v fuel :
  forall j,
    preserves (on_nodes (node_has p (sampled_with seed v)))
              (ConditionalDistribution_sample methods fuel j seed).
Proof.
  induction fuel as [|fuel IH]; intros j; cbn [ConditionalDistribution_sample].
  - pres.
  - intros s r s' HI Hr.
    apply bind_Some in Hr as [(n & s1 & Hg & Hr)|(e & Hg & _)].
    2:{ apply get_node_Some in Hg as (? & _ & ? & _). discriminate. }
    apply get_node_Some in Hg as (n' & Hn & [= <-] & ->).
    assert (Hp : bool_decide (Some seed ≠ _sampled_value_seed n) = true -> j <> p).
    { intros Hb Hjp. subst j. destruct HI as (m & Hm & Hs & _).
      rewrite Hn in Hm. inversion Hm; subst m.
      apply bool_decide_eq_true in Hb. congruence. }
    match type of Hr with
    | ?m s = _ =>
        cut (preserves (on_nodes (node_has p (sampled_with seed v))) m);
          [intros Hpres; exact (Hpres s r s' HI Hr)|]
    end.
    clear Hr HI Hn.
    apply preserves_bind; [|intros; pres].
    destruct (bool_decide _); [|pres]. specialize (Hp eq_refl).
    apply preserves_bind.
    { apply preserves_for_each. intros [nm q] _. pres. apply IH. }
    intros ins. pres; apply preserves_modify_node; intros l m Hm Hl;
      apply node_has_insert_ne; auto.
Qed.

End sampling_frame.


Section sampling_joint.
Context `{Backend}.
Variable methods : kind -> node_class.

Lemma sample_frame_nodes (A : gset node_id) (l0 : list node) seed fuel :
  forall j, j ∈ A ->
    preserves (on_nodes (fun l => graph_ok l /\
                 (forall i m, i ∈ A -> l !! i = Some m -> ancestors m ⊆ A) /\
                 (forall i, i ∉ A -> l !! i = l0 !! i)))
              (ConditionalDistribution_sample methods fuel j seed).
Proof.
  induction fuel as [|fuel IH]; intros j Hj; cbn [ConditionalDistribution_sample].
  - pres.
  - intros s r s' HI Hr.
    apply bind_Some in Hr as [(n & s1 & Hg & Hr)|(e & Hg & _)].
    2:{ apply get_node_Some in Hg as (? & _ & ? & _). discriminate. }
    apply get_node_Some in Hg as (n' & Hn & [= <-] & ->).
    assert (Hpar : forall k p, (k, p) ∈ input_nodes n -> p ∈ A).
    { intros k p Hin. destruct HI as (Hok & Hcl & _).
      destruct (closed_at_parent _ _ _ _ _ (proj2 Hok _ _ Hn) Hin) as (pn & Hpn & Hsub).
      eapply Hcl; [exact Hj|exact Hn|]. apply Hsub.
      apply closed_at_self with (l := nodes s). apply (proj2 Hok). exact Hpn. }
    match type of Hr with
    | ?m s = _ =>
        match type of HI with
        | ?I s => cut (preserves I m); [intros Hpres; exact (Hpres s r s' HI Hr)|]
        end
    end.
    clear Hr HI Hn.
    apply preserves_bind; [|intros; pres].
    destruct (bool_decide _); [|pres].
    apply preserves_bind.
    { apply preserves_for_each. intros [nm q] Hin. pres. apply IH. eapply Hpar; eauto. }
    intros ins.
    assert (Hset : forall f : node -> node,
              (forall m, input_nodes (f m) = input_nodes m) ->
              (forall m, ancestors (f m) = ancestors m) ->
              preserves (on_nodes (fun l => graph_ok l /\
                 (forall i m, i ∈ A -> l !! i = Some m -> ancestors m ⊆ A) /\
                 (forall i, i ∉ A -> l !! i = l0 !! i))) (modify_node j f)).
    { intros f Hf1 Hf2. apply preserves_modify_node.
      intros l m Hm (Hok & Hcl & Hfr). split; [|split].
      - apply graph_ok_insert; auto.
      - intros i m' Hi Hm'. destruct (decide (i = j)) as [->|Hne].
        + rewrite list_lookup_insert_eq in Hm' by (eapply lookup_lt_Some; eauto).
          inversion Hm'; subst m'. rewrite Hf2. eapply Hcl; eauto.
        + rewrite list_lookup_insert_ne in Hm' by auto. eapply Hcl; eauto.
      - intros i Hi. rewrite list_lookup_insert_ne; [auto|]. intros ->. contradiction. }
    pres; apply Hset; reflexivity.
Qed.

Lemma sample_changes_cache_only fuel self seed s r s' :
  ConditionalDistribution_sample methods fuel self seed s = Some (r, s') ->
  length (nodes s') = length (nodes s) /\
  forall i m m', nodes s !! i = Some m -> nodes s' !! i = Some m' ->
                 forget_sample m' = forget_sample m.
Proof.
  intros Hr.
  assert (Hset : forall (f : node -> node) i (l : list node) n,
            (forall m, forget_sample (f m) = forget_sample m) ->
            l !! i = Some n ->
            (length l = length (nodes s) /\
             forall i m m', nodes s !! i = Some m -> l !! i = Some m' ->
                            forget_sample m' = forget_sample m) ->
            length (<[i := f n]> l) = length (nodes s) /\
            forall i0 m m', nodes s !! i0 = Some m -> <[i := f n]> l !! i0 = Some m' ->
                            forget_sample m' = forget_sample m).
  { intros f i l n Hf Hn [Hl Hc]. split; [rewrite length_insert; exact Hl|].
    intros i0 m m' Hm Hm'. destruct (decide (i0 = i)) as [->|Hne].
    - rewrite list_lookup_insert_eq in Hm' by (eapply lookup_lt_Some; eauto).
      inversion Hm'; subst m'. rewrite Hf. eapply Hc; eauto.
    - rewrite list_lookup_insert_ne in Hm' by auto. eapply Hc; eauto. }
  refine (preserves_sample methods
            (fun l => length l = length (nodes s) /\
                      forall i m m', nodes s !! i = Some m -> l !! i = Some m' ->
                                     forget_sample m' = forget_sample m)
            _ _ fuel self seed s r s' _ Hr).
  - intros i v l n Hn HJ. apply (Hset (set_sampled_value v)); auto.
  - intros i sd l n Hn HJ. apply (Hset (set_sampled_value_seed sd)); auto.
  - split; [reflexivity|]. intros i m m' Hm Hm'. congruence.
Qed.

Lemma sample_frame fuel self seed s n r s' :
  graph_ok (nodes s) -> nodes s !! self = Some n ->
  ConditionalDistribution_sample methods fuel self seed s = Some (r, s') ->
  graph_ok (nodes s') /\ qdists s' = qdists s /\
  forall i, i ∉ ancestors n -> nodes s' !! i = nodes s !! i.
Proof.
  intros Hok Hn Hr.
  pose proof (sample_keeps_qdists methods (fun q => q = qdists s) seed fuel self
                s r s' eq_refl Hr) as Hq.
  pose proof (sample_frame_nodes (ancestors n) (nodes s) seed fuel self
                (closed_at_self _ _ _ (proj2 Hok _ _ Hn)) s r s') as Hf.
  destruct Hf as (Hok' & _ & Hfr); [|exact Hr|auto].
  split; [exact Hok|]. split; [|auto].
  intros i m Hi Hm x Hx.
  destruct (ancestors_older _ _ _ _ Hok Hn Hi) as (_ & m0 & Hm0 & Hsub).
  rewrite Hm in Hm0. inversion Hm0; subst m0. auto.
Qed.

Lemma sample_Some_node fuel self seed s r s' :
  ConditionalDistribution_sample methods fuel self seed s = Some (r, s') ->
  is_Some (nodes s !! self).
Proof.
  destruct fuel as [|fuel]; [discriminate|]. cbn [ConditionalDistribution_sample].
  intros Hr. apply bind_Some in Hr as [(n & s1 & Hg & _)|(e & Hg & _)];
    apply get_node_Some in Hg as (n' & Hn & _); eauto.
Qed.

Lemma sample_parents_frame self fuel seed :
  forall ins s r sa,
    graph_ok (nodes s) ->
    Forall (fun kp : string * node_id => snd kp < self) ins ->
    sample_parents methods fuel seed ins s = Some (r, sa) ->
    graph_ok (nodes sa) /\ forall i, self <= i -> nodes sa !! i = nodes s !! i.
Proof.
  induction ins as [|[nm p] ins IH]; intros s r sa Hok HF Hr.
  - inversion Hr; subst. auto.
  - inversion HF as [|? ? Hp HF']; subst. cbn in Hp.
    unfold sample_parents in Hr. cbn [for_each] in Hr.
    assert (Hstep : forall r1 s1,
              ConditionalDistribution_sample methods fuel p seed s = Some (r1, s1) ->
              graph_ok (nodes s1) /\ forall i, self <= i -> nodes s1 !! i = nodes s !! i).
    { intros r1 s1 H1. destruct (sample_Some_node _ _ _ _ _ _ H1) as [pn Hpn].
      destruct (sample_frame _ _ _ _ _ _ _ Hok Hpn H1) as (Hok1 & _ & Hfr).
      split; [exact Hok1|]. intros i Hi. apply Hfr. intros Hin.
      destruct (ancestors_older _ _ _ _ Hok Hpn Hin) as [Hle _]. lia. }
    apply bind_Some in Hr as [(b & s1 & Hb & Hr)|(e & Hb & _)].
    + apply bind_Val in Hb as (v & s1' & Hv & Hret). inversion Hret; subst b s1'.
      destruct (Hstep _ _ Hv) as [Hok1 Hfr1].
      apply bind_Some in Hr as [(bs & s2 & Hbs & Hret2)|(e & Hbs & _)].
      * inversion Hret2; subst. destruct (IH _ _ _ Hok1 HF' Hbs) as [Hok2 Hfr2].
        split; [exact Hok2|]. intros i Hi. rewrite Hfr2, Hfr1; auto.
      * destruct (IH _ _ _ Hok1 HF' Hbs) as [Hok2 Hfr2].
        split; [exact Hok2|]. intros i Hi. rewrite Hfr2, Hfr1; auto.
    + apply bind_Some in Hb as [(v & s1' & Hv & Hret)|(e' & Hv & _)].
      * inversion Hret.
      * apply (Hstep _ _ Hv).
Qed.

Lemma sample_parents_marked fuel seed :
  forall ins s r sa,
    sample_parents methods fuel seed ins s = Some (Val r, sa) ->
    Forall2 (fun (kp : string * node_id) (kv : string * option array) =>
               fst kv = fst kp /\
               node_has (snd kp) (sampled_with seed (snd kv)) (nodes sa))
            ins r.
Proof.
  induction ins as [|[nm p] ins IH]; intros s r sa Hr.
  - inversion Hr; subst. constructor.
  - unfold sample_parents in Hr. cbn [for_each] in Hr.
    apply bind_Val in Hr as (b & s1 & Hb & Hr).
    apply bind_Val in Hb as (v & s1' & Hv & Hret). inversion Hret; subst b s1'.
    apply bind_Val in Hr as (bs & s2 & Hbs & Hret2). inversion Hret2; subst r s2.
    constructor; [|exact (IH _ _ _ Hbs)].
    split; [reflexivity|]. cbn.
    destruct (sample_post _ _ _ _ _ _ _ Hv) as (n1 & Hn1 & Hs1 & Hv1).
    assert (Hnow : on_nodes (node_has p (sampled_with seed v)) s1).
    { exists n1. split; [exact Hn1|]. split; assumption. }
    refine (preserves_for_each _ _ _ _ s1 (Val bs) sa Hnow Hbs).
    intros [nm' q] _. pres. apply sample_keeps_marked.
Qed.

(** X3. When [sample(seed)] recomputes a node and returns, the value is what
    [_sample] drew, under the generator seeded with [(seed + hash(name)) mod
    2^32], from the values that the caches of the parents hold afterwards,
    each marked with the same [seed]: parents and child are one joint draw. *)
Theorem sample_is_a_joint_draw (fuel : nat) (self : node_id) (seed : Z)
    (s s1 : state) (n : node) (v : option array) :
  graph_ok (nodes s) ->
  nodes s !! self = Some n ->
  _sampled_value_seed n <> Some seed ->
  ConditionalDistribution_sample methods (S fuel) self seed s = Some (Val v, s1) ->
  exists ins v0,
    v = Some v0 /\
    Forall2 (fun (kp : string * node_id) (kv : string * option array) =>
               fst kv = fst kp /\
               node_has (snd kp) (sampled_with seed (snd kv)) (nodes s1))
            (input_nodes n) ins /\
    _sample (methods (cls n)) (set_sampled_value_seed (Some seed) n) ins
            (np_random_seed (local_seed seed n)) = (Val v0, rng s1) /\
    nodes s1 !! self = Some (with_sample seed v0 n).
Proof.
  intros Hok Hn Hs Hr.
  destruct (sample_recomputed _ _ _ _ _ _ _ _ Hn Hs Hr)
    as [(e & ?)|(ins & sa & na & v0 & g & Hins & Hna & Hsamp & Hv & ->)]; [discriminate|].
  inversion Hv; subst v.
  pose proof (proj1 Hok _ _ Hn) as Hold.
  destruct (sample_parents_frame self _ _ _ _ _ _ Hok Hold Hins) as [Hoka Hfr].
  rewrite Hfr in Hna by lia. rewrite Hn in Hna. inversion Hna; subst na.
  exists ins, v0. split; [reflexivity|]. split; [|split].
  - pose proof (sample_parents_marked _ _ _ _ _ _ Hins) as HF.
    cbn [nodes]. clear - HF Hold.
    induction HF as [|[k p] kv l l' [Hk Hm] HF IH]; constructor.
    + split; [exact Hk|]. inversion Hold; subst. cbn in *.
      apply node_has_insert_ne; [lia|exact Hm].
    + apply IH. inversion Hold; auto.
  - exact Hsamp.
  - cbn [nodes]. apply list_lookup_insert_eq.
    rewrite <- (Hfr self) in Hn by lia. eapply lookup_lt_Some; eauto.
Qed.

(** X2. Among the nodes and the posteriors, [sample] writes nothing but the
    sample caches of the node and of nodes among its ancestors: posteriors
    are not touched, no node is created, nodes outside [ancestors] are left
    exactly as they are, and in every node all attributes but the cache are
    kept.  The global generator is written as well.  A call that finds the
    marker equal to [seed] leaves the whole store, generator included, as it
    is; a call in which a parent's [sample] raises ends with that exception
    in the store the parents left; and a call that gets past the parents
    has reseeded the generator with [(seed + hash(name)) mod 2^32] and ends
    with the generator as [_sample] left it, whether [_sample] returned or
    raised. *)
Theorem sample_touches_only_ancestors (fuel : nat) (self : node_id) (seed : Z)
    (s s' : state) (n : node) (r : result (option array)) :
  graph_ok (nodes s) ->
  nodes s !! self = Some n ->
  ConditionalDistribution_sample methods fuel self seed s = Some (r, s') ->
  qdists s' = qdists s /\
  length (nodes s') = length (nodes s) /\
  (forall i, i ∉ ancestors n -> nodes s' !! i = nodes s !! i) /\
  (forall i m m', nodes s !! i = Some m -> nodes s' !! i = Some m' ->
                  forget_sample m' = forget_sample m) /\
  (_sampled_value_seed n = Some seed -> s' = s) /\
  (forall e sa, _sampled_value_seed n <> Some seed ->
     sample_parents methods (pred fuel) seed (input_nodes n) s = Some (Raise e, sa) ->
     r = Raise e /\ s' = sa) /\
  (forall ins sa, _sampled_value_seed n <> Some seed ->
     sample_parents methods (pred fuel) seed (input_nodes n) s = Some (Val ins, sa) ->
     rng s' = snd (_sample (methods (cls n)) (set_sampled_value_seed (Some seed) n) ins
                           (np_random_seed (local_seed seed n)))).
Proof.
  intros Hok Hn Hr.
  destruct (sample_frame _ _ _ _ _ _ _ Hok Hn Hr) as (_ & Hq & Hfr).
  destruct (sample_changes_cache_only _ _ _ _ _ _ Hr) as [Hl Hc].
  do 4 (split; [assumption|]).
  destruct fuel as [|fuel]; [discriminate Hr|]. cbn [pred].
  pose proof (proj1 Hok _ _ Hn) as Hold.
  assert (Hsame : forall ins sa na,
            sample_parents methods fuel seed (input_nodes n) s = Some (Val ins, sa) ->
            nodes sa !! self = Some na -> na = n).
  { intros ins sa na Hins Hna.
    destruct (sample_parents_frame self _ _ _ _ _ _ Hok Hold Hins) as [_ Hfr'].
    rewrite Hfr' in Hna by lia. rewrite Hn in Hna. inversion Hna. reflexivity. }
  split; [|split].
  - intros Hs. rewrite (sample_cached _ _ _ _ _ _ Hn Hs) in Hr.
    inversion Hr. reflexivity.
  - intros e sa Hs Hp. destruct r as [v|e0].
    + destruct (sample_recomputed _ _ _ _ _ _ _ _ Hn Hs Hr)
        as [(e1 & He1)|(ins & sa' & na & v0 & g & Hins & _)]; [discriminate He1|].
      rewrite Hins in Hp. discriminate Hp.
    + destruct (sample_raised _ _ _ _ _ _ _ _ Hn Hs Hr)
        as [Hins|(ins & sa' & na & g & Hins & _)].
      * rewrite Hins in Hp. inversion Hp. auto.
      * rewrite Hins in Hp. discriminate Hp.
  - intros ins sa Hs Hp. destruct r as [v|e0].
    + destruct (sample_recomputed _ _ _ _ _ _ _ _ Hn Hs Hr)
        as [(e1 & He1)|(ins' & sa' & na & v0 & g & Hins & Hna & Hsamp & _ & ->)];
        [discriminate He1|].
      rewrite (Hsame _ _ _ Hins Hna) in Hsamp.
      rewrite Hins in Hp. inversion Hp; subst ins' sa'.
      rewrite Hsamp. reflexivity.
    + destruct (sample_raised _ _ _ _ _ _ _ _ Hn Hs Hr)
        as [Hins|(ins' & sa' & na & g & Hins & Hna & Hsamp & ->)].
      * rewrite Hins in Hp. discriminate Hp.
      * rewrite (Hsame _ _ _ Hins Hna) in Hsamp.
        rewrite Hins in Hp. inversion Hp; subst ins' sa'.
        rewrite Hsamp. reflexivity.
Qed.

(** X4. When [sample(seed)] raises, either a parent's [sample] raised and
    the node is as before, or [_sample] of the node raised: then the seed
    marker has already been set, so a second [sample(seed)] raises nothing
    and returns the value cached before the failed call ([None] for a node
    never sampled). *)
Theorem sample_failure_is_remembered (fuel : nat) (self : node_id) (seed : Z)
    (s s1 : state) (n : node) (e : exn) :
  graph_ok (nodes s) ->
  nodes s !! self = Some n ->
  _sampled_value_seed n <> Some seed ->
  ConditionalDistribution_sample methods (S fuel) self seed s = Some (Raise e, s1) ->
  (sample_parents methods fuel seed (input_nodes n) s = Some (Raise e, s1) /\
   nodes s1 !! self = Some n) \/
  (exists ins sa g,
     sample_parents methods fuel seed (input_nodes n) s = Some (Val ins, sa) /\
     _sample (methods (cls n)) (set_sampled_value_seed (Some seed) n) ins
             (np_random_seed (local_seed seed n)) = (Raise e, g) /\
     nodes s1 !! self = Some (set_sampled_value_seed (Some seed) n) /\
     forall fuel',
       ConditionalDistribution_sample methods (S fuel') self seed s1
       = Some (Val (_sampled_value n), s1)).
Proof.
  intros Hok Hn Hs Hr.
  pose proof (proj1 Hok _ _ Hn) as Hold.
  destruct (sample_raised _ _ _ _ _ _ _ _ Hn Hs Hr)
    as [Hins|(ins & sa & na & g & Hins & Hna & Hsamp & ->)].
  - left. split; [exact Hins|].
    destruct (sample_parents_frame self _ _ _ _ _ _ Hok Hold Hins) as [_ Hfr].
    rewrite Hfr by lia. exact Hn.
  - right.
    destruct (sample_parents_frame self _ _ _ _ _ _ Hok Hold Hins) as [_ Hfr].
    assert (Hlt : self < length (nodes sa)) by (eapply lookup_lt_Some; eauto).
    rewrite Hfr in Hna by lia. rewrite Hn in Hna. inversion Hna; subst na.
    exists ins, sa, g. split; [exact Hins|]. split; [exact Hsamp|].
    assert (Hself : nodes (mk_state (<[self := set_sampled_value_seed (Some seed) n]>
                                      (nodes sa)) (qdists sa) g) !! self
                    = Some (set_sampled_value_seed (Some seed) n)).
    { cbn [nodes]. apply list_lookup_insert_eq. exact Hlt. }
    split; [exact Hself|].
    intros fuel'. rewrite (sample_cached _ _ _ _ _ _ Hself eq_refl). reflexivity.
Qed.

End sampling_joint.


Section posteriors_more.
Context `{Backend}.

Lemma default_q_classes c (n : node) :
  default_q (classes c) n = raise (PyException "default Q distribution not implemented!").
Proof. destruct c; reflexivity. Qed.

Lemma q_distribution_cases self s n :
  nodes s !! self = Some n ->
  q_distribution self s =
    match _q_distribution n with
    | Some q => Some (Val q, s)
    | None => Some (Raise (PyException "default Q distribution not implemented!"), s)
    end.
Proof.
  intros Hn. destruct (_q_distribution n) as [q|] eqn:Hq.
  - apply q_distribution_attached. exists n. auto.
  - unfold q_distribution, ConditionalDistribution_q_distribution.
    rewrite (bind_eq_Val _ _ _ _ _ (get_node_eq _ _ _ Hn)). rewrite Hq.
    rewrite default_q_classes. reflexivity.
Qed.

Lemma q_distribution_read_only self s r s' :
  q_distribution self s = Some (r, s') -> s' = s.
Proof.
  intros Hr. destruct (nodes s !! self) as [n|] eqn:Hn.
  - rewrite (q_distribution_cases _ _ _ Hn) in Hr.
    destruct (_q_distribution n); inversion Hr; reflexivity.
  - unfold q_distribution, ConditionalDistribution_q_distribution in Hr.
    unfold bind at 1, get_node in Hr. rewrite Hn in Hr. discriminate.
Qed.

Lemma preserves_eq_q_distribution s0 self :
  preserves (fun s => s = s0) (ConditionalDistribution_q_distribution classes self).
Proof.
  intros s r s' -> Hr. symmetry. symmetry.
  exact (q_distribution_read_only _ _ _ _ Hr).
Qed.

Lemma base_elbo_term_read_only self s r s' :
  ConditionalDistribution_elbo_term classes self s = Some (r, s') -> s' = s.
Proof.
  intros Hr.
  cut (preserves (fun s1 => s1 = s) (ConditionalDistribution_elbo_term classes self)).
  { intros Hp. exact (Hp s r s' eq_refl Hr). }
  unfold ConditionalDistribution_elbo_term.
  apply preserves_bind; [pres|]. intros n.
  apply preserves_bind.
  { apply preserves_for_each. intros [nm p] _. pres. apply preserves_eq_q_distribution. }
  intros qs. apply preserves_bind; [apply preserves_eq_q_distribution|]. intros q.
  apply preserves_bind; [pres|]. intros n1.
  apply preserves_bind; [pres|]. intros d.
  apply preserves_bind.
  { apply preserves_for_each. intros [k r0] _. pres. }
  intros qs'. pres. destruct (minibatch_scale_factor _); pres.
Qed.

Lemma elbo_term_read_only self hack s r s' :
  elbo_term self hack s = Some (r, s') -> s' = s.
Proof.
  intros Hr.
  assert (Hbase : preserves (fun s1 => s1 = s)
                    (ConditionalDistribution_elbo_term classes self)).
  { intros s1 r1 s2 -> H1. exact (base_elbo_term_read_only _ _ _ _ H1). }
  cut (preserves (fun s1 => s1 = s) (elbo_term self hack)).
  { intros Hp. exact (Hp s r s' eq_refl Hr). }
  unfold elbo_term. apply preserves_bind; [pres|]. intros n.
  destruct (cls n);
    unfold NoisyGaussianMatrixProduct_elbo_term, NoisyLatentFeatures_elbo_term,
           GMMClustering_elbo_term;
    try (destruct hack; [pres|exact Hbase]);
    (apply preserves_bind; [exact Hbase|]; intros [E Hn];
     destruct (match hack with Some b => b | None => true end); pres).
Qed.

Lemma q_distribution_outcome self s r s' :
  q_distribution self s = Some (r, s') ->
  s' = s /\
  exists n, nodes s !! self = Some n /\
    r = match _q_distribution n with
        | Some q => Val q
        | None => Raise (PyException "default Q distribution not implemented!")
        end.
Proof.
  intros Hr. split; [exact (q_distribution_read_only _ _ _ _ Hr)|].
  destruct (nodes s !! self) as [n|] eqn:Hn.
  - exists n. split; [reflexivity|].
    rewrite (q_distribution_cases _ _ _ Hn) in Hr.
    destruct (_q_distribution n); inversion Hr; reflexivity.
  - unfold q_distribution, ConditionalDistribution_q_distribution in Hr.
    unfold bind at 1, get_node in Hr. rewrite Hn in Hr. discriminate.
Qed.

(** X5. None of the six node classes provides [default_q], so
    [q_distribution] never attaches anything: it returns the posterior of
    the slot or raises, and neither it nor [elbo_term] (with or without the
    [symmetry_correction_hack] keyword) ever changes the store. *)
Theorem elbo_term_never_writes (self : node_id) (s s' : state) :
  (forall r, q_distribution self s = Some (r, s') ->
     s' = s /\
     exists n, nodes s !! self = Some n /\
       r = match _q_distribution n with
           | Some q => Val q
           | None => Raise (PyException "default Q distribution not implemented!")
           end) /\
  (forall hack r, elbo_term self hack s = Some (r, s') -> s' = s).
Proof.
  split.
  - intros r Hr. exact (q_distribution_outcome _ _ _ _ Hr).
  - intros hack r Hr. exact (elbo_term_read_only _ _ _ _ _ Hr).
Qed.

(** The posteriors of the parents, as [elbo_term] collects them. *)
Lemma parents_q_distribution (ins : kwargs node_id) s :
  Forall (fun kp : string * node_id => is_Some (nodes s !! snd kp)) ins ->
  (exists qs,
     for_each (fun '(nm, p) =>
                 q <- ConditionalDistribution_q_distribution classes p ;;
                 ret ("q_" +:+ nm, q)) ins s = Some (Val qs, s) /\
     Forall2 (fun (kp : string * node_id) (kq : string * q_ref) =>
                fst kq = "q_" +:+ fst kp /\
                node_has (snd kp) (fun m => _q_distribution m = Some (snd kq)) (nodes s))
             ins qs) \/
  (for_each (fun '(nm, p) =>
               q <- ConditionalDistribution_q_distribution classes p ;;
               ret ("q_" +:+ nm, q)) ins s
   = Some (Raise (PyException "default Q distribution not implemented!"), s) /\
   Exists (fun kp : string * node_id =>
             node_has (snd kp) (fun m => _q_distribution m = None) (nodes s)) ins).
Proof.
  induction ins as [|[nm p] ins IH]; intros HF.
  - left. exists []. split; [reflexivity|constructor].
  - inversion HF as [|? ? [pn Hpn] HF']; subst. cbn in Hpn.
    cbn [for_each].
    pose proof (q_distribution_cases p s pn Hpn) as Hq. unfold q_distribution in Hq.
    destruct (_q_distribution pn) as [q|] eqn:Hslot.
    + rewrite (bind_eq_Val _ _ _ _ _
                 (bind_eq_Val _ (fun q0 => ret ("q_" +:+ nm, q0)) _ _ _ Hq
                  : (q0 <- ConditionalDistribution_q_distribution classes p ;;
                     ret ("q_" +:+ nm, q0)) s = Some (Val ("q_" +:+ nm, q), s))).
      destruct (IH HF') as [(qs & Hqs & HF2)|[Hraise HE]].
      * left. exists (("q_" +:+ nm, q) :: qs). split.
        -- rewrite (bind_eq_Val _ _ _ _ _ Hqs). reflexivity.
        -- constructor; [|exact HF2]. split; [reflexivity|]. exists pn. auto.
      * right. split.
        -- rewrite (bind_eq_Raise _ _ _ _ _ Hraise). reflexivity.
        -- apply Exists_cons_tl. exact HE.
    + right. split.
      * apply bind_eq_Raise. apply bind_eq_Raise. exact Hq.
      * apply Exists_cons_hd. exists pn. auto.
Qed.

(** The base [elbo_term] on a node whose posterior and whose parents'
    posteriors are attached. *)
Lemma base_elbo_term_attached self s n q d (ds : kwargs qdist) :
  nodes s !! self = Some n ->
  _q_distribution n = Some q ->
  qdists s !! q = Some d ->
  Forall2 (fun (kp : string * node_id) (kd : string * qdist) =>
             fst kd = "q_" +:+ fst kp /\
             exists pn qp, nodes s !! snd kp = Some pn /\
                           _q_distribution pn = Some qp /\
                           qdists s !! qp = Some (snd kd))
          (input_nodes n) ds ->
  ConditionalDistribution_elbo_term classes self s =
    match _expected_logp (classes (cls n)) n (("q_result", d) :: ds) with
    | Val E => Some (Val (scaled (minibatch_scale_factor n) (E, q_entropy d)), s)
    | Raise e => Some (Raise e, s)
    end.
Proof.
  intros Hn Hq Hd HF.
  unfold ConditionalDistribution_elbo_term.
  rewrite (bind_eq_Val _ _ _ _ _ (get_node_eq _ _ _ Hn)).
  assert (Hex : Forall (fun kp : string * node_id => is_Some (nodes s !! snd kp))
                       (input_nodes n)).
  { clear - HF. induction HF as [|kp kd l l' (_ & pn & qp & Hpn & _) _ IH];
      constructor; eauto. }
  destruct (parents_q_distribution _ s Hex) as [(qs & Hqs & HF2)|[_ HE]].
  2:{ exfalso. clear - HF HE.
      induction HF as [|kp kd l l' (_ & pn & qp & Hpn & Hslot & _) _ IH].
      - inversion HE.
      - inversion HE as [? ? (m & Hm & Hnone)|? ? HE']; subst; [|auto].
        rewrite Hpn in Hm. inversion Hm; subst m. congruence. }
  rewrite (bind_eq_Val _ _ _ _ _ Hqs).
  assert (Hself : ConditionalDistribution_q_distribution classes self s = Some (Val q, s)).
  { apply q_distribution_attached. exists n. auto. }
  rewrite (bind_eq_Val _ _ _ _ _ Hself).
  rewrite (bind_eq_Val _ _ _ _ _ (get_node_eq _ _ _ Hn)).
  rewrite (bind_eq_Val _ _ _ _ _ (get_q_eq _ _ _ Hd)).
  assert (Hds : for_each (fun '(k, r) => d0 <- get_q r ;; ret (k, d0)) qs s
                = Some (Val ds, s)).
  { clear - HF HF2. revert qs HF2.
    induction HF as [|kp kd l l' (Hk & pn & qp & Hpn & Hslot & Hqp) _ IH];
      intros qs HF2; inversion HF2 as [|? kq ? qs' (Hk2 & m & Hm & Hmq) HF2']; subst.
    - reflexivity.
    - rewrite Hpn in Hm. inversion Hm; subst m. rewrite Hslot in Hmq.
      inversion Hmq as [Hq]. destruct kq as [k r], kd as [k' d']. cbn in *. subst.
      cbn [for_each].
      rewrite (bind_eq_Val _ _ _ _ _
                 (bind_eq_Val _ (fun d0 => ret ("q_" +:+ fst kp, d0)) _ _ _
                    (get_q_eq _ _ _ Hqp)
                  : (d0 <- get_q r ;; ret ("q_" +:+ fst kp, d0)) s
                    = Some (Val ("q_" +:+ fst kp, d'), s))).
      rewrite (bind_eq_Val _ _ _ _ _ (IH _ HF2')). reflexivity. }
  rewrite (bind_eq_Val _ _ _ _ _ Hds).
  destruct (_expected_logp _ _ _) as [E|e]; [|reflexivity].
  cbn [lift]. unfold bind at 1. cbn [ret].
  rewrite (bind_eq_Val _ _ _ _ _ (get_q_eq _ _ _ Hd)).
  rewrite (bind_eq_Val _ _ _ _ _ (get_node_eq _ _ _ Hn)).
  destruct (minibatch_scale_factor n); reflexivity.
Qed.

End posteriors_more.


Section elbo_more.
Context `{Backend}.

(** The classes whose [elbo_term] takes the keyword. *)
Lemma elbo_term_raise_of_base self hack s n e s' :
  nodes s !! self = Some n ->
  accepts_hack n hack ->
  ConditionalDistribution_elbo_term classes self s = Some (Raise e, s') ->
  elbo_term self hack s = Some (Raise e, s').
Proof.
  intros Hn Hacc Hb. unfold elbo_term.
  rewrite (bind_eq_Val _ _ _ _ _ (get_node_eq _ _ _ Hn)).
  unfold accepts_hack in Hacc.
  destruct (cls n);
    unfold NoisyGaussianMatrixProduct_elbo_term, NoisyLatentFeatures_elbo_term,
           GMMClustering_elbo_term;
    try (subst hack; exact Hb);
    apply bind_eq_Raise; exact Hb.
Qed.

Lemma base_elbo_term_unattached self s n :
  nodes s !! self = Some n ->
  Forall (fun kp : string * node_id => is_Some (nodes s !! snd kp)) (input_nodes n) ->
  _q_distribution n = None \/
  Exists (fun kp : string * node_id =>
            node_has (snd kp) (fun m => _q_distribution m = None) (nodes s))
         (input_nodes n) ->
  ConditionalDistribution_elbo_term classes self s
  = Some (Raise (PyException "default Q distribution not implemented!"), s).
Proof.
  intros Hn Hex Hmiss.
  unfold ConditionalDistribution_elbo_term.
  rewrite (bind_eq_Val _ _ _ _ _ (get_node_eq _ _ _ Hn)).
  destruct (parents_q_distribution _ s Hex) as [(qs & Hqs & HF2)|[Hraise _]].
  2:{ apply bind_eq_Raise. exact Hraise. }
  rewrite (bind_eq_Val _ _ _ _ _ Hqs).
  destruct Hmiss as [Hnone|HE].
  - apply bind_eq_Raise.
    pose proof (q_distribution_cases self s n Hn) as Hq. rewrite Hnone in Hq. exact Hq.
  - exfalso. clear - HF2 HE.
    induction HF2 as [|kp kq l l' (_ & m & Hm & Hslot) _ IH].
    + inversion HE.
    + inversion HE as [? ? (m' & Hm' & Hnone)|? ? HE']; subst; [|auto].
      rewrite Hm in Hm'. inversion Hm'; subst m'. congruence.
Qed.

(** X6. [elbo_term] needs a posterior on the node and on each of its
    parents: when one is missing it raises "default Q distribution not
    implemented!" and leaves the store as it is; when it returns a pair, the
    node and all its parents have a posterior attached. *)
Theorem elbo_term_needs_posteriors (self : node_id) (hack : option bool)
    (s : state) (n : node) :
  nodes s !! self = Some n ->
  Forall (fun kp : string * node_id => is_Some (nodes s !! snd kp)) (input_nodes n) ->
  accepts_hack n hack ->
  (_q_distribution n = None \/
   Exists (fun kp : string * node_id =>
             node_has (snd kp) (fun m => _q_distribution m = None) (nodes s))
          (input_nodes n) ->
   elbo_term self hack s
   = Some (Raise (PyException "default Q distribution not implemented!"), s)) /\
  (forall r s', elbo_term self hack s = Some (Val r, s') ->
     _q_distribution n <> None /\
     Forall (fun kp : string * node_id =>
               node_has (snd kp) (fun m => _q_distribution m <> None) (nodes s))
            (input_nodes n)).
Proof.
  intros Hn Hex Hacc. split.
  - intros Hmiss. apply (elbo_term_raise_of_base _ _ _ _ _ _ Hn Hacc).
    apply base_elbo_term_unattached with (n := n); auto.
  - intros r s' Hr.
    destruct (elbo_term_via_base _ _ _ _ _ _ Hn Hr) as (_ & r0 & Hb & _).
    split.
    + intros Hnone.
      rewrite (base_elbo_term_unattached _ _ _ Hn Hex (or_introl Hnone)) in Hb.
      discriminate.
    + destruct (parents_q_distribution _ s Hex) as [(qs & _ & HF2)|[_ HE]].
      * clear - HF2. induction HF2 as [|kp kq l l' (_ & m & Hm & Hslot) _ IH];
          constructor; [|exact IH].
        exists m. split; [exact Hm|]. congruence.
      * rewrite (base_elbo_term_unattached _ _ _ Hn Hex (or_intror HE)) in Hb.
        discriminate.
Qed.

(** X7. With the posteriors attached, [elbo_term] is a function of them:
    the expected log-probability is [_expected_logp] of the node's class on
    the node's posterior, as [q_result], and each parent's posterior, as
    [q_<input>]; the entropy is that of the node's posterior; both are
    multiplied by the scale factor when there is one, and the class's
    symmetry correction is added last.  It raises exactly when
    [_expected_logp] does. *)
Theorem elbo_term_of_attached_posteriors (self : node_id) (hack : option bool)
    (s : state) (n : node) (q : q_ref) (d : qdist) (ds : kwargs qdist) :
  nodes s !! self = Some n ->
  _q_distribution n = Some q ->
  qdists s !! q = Some d ->
  Forall2 (fun (kp : string * node_id) (kd : string * qdist) =>
             fst kd = "q_" +:+ fst kp /\
             exists pn qp, nodes s !! snd kp = Some pn /\
                           _q_distribution pn = Some qp /\
                           qdists s !! qp = Some (snd kd))
          (input_nodes n) ds ->
  accepts_hack n hack ->
  correction_defined n hack ->
  elbo_term self hack s =
    match _expected_logp (classes (cls n)) n (("q_result", d) :: ds) with
    | Val E =>
        Some (Val ((fst (scaled (minibatch_scale_factor n) (E, q_entropy d))
                    + symmetry_correction n hack)%R,
                   snd (scaled (minibatch_scale_factor n) (E, q_entropy d))), s)
    | Raise e => Some (Raise e, s)
    end.
Proof.
  intros Hn Hq Hd HF Hacc Hcorr.
  pose proof (base_elbo_term_attached _ _ _ _ _ _ Hn Hq Hd HF) as Hb.
  destruct (_expected_logp _ _ _) as [E|e].
  - exact (elbo_term_of_base _ _ _ _ _ _ Hn Hcorr Hb).
  - exact (elbo_term_raise_of_base _ _ _ _ _ _ Hn Hacc Hb).
Qed.

Lemma substring_all (k : string) : String.substring 0 (String.length k) k = k.
Proof. induction k as [|c k IH]; cbn; [reflexivity|]. rewrite IH. reflexivity. Qed.

Lemma q_prefix (k : string) : String.prefix "q_" ("q_" +:+ k) = true.
Proof. unfold String.app. simpl. destruct k; reflexivity. Qed.

Lemma q_strip (k : string) :
  String.substring 2 (String.length ("q_" +:+ k) - 2) ("q_" +:+ k) = k.
Proof. unfold String.app. simpl. rewrite Nat.sub_0_r. apply substring_all. Qed.

Lemma posterior_samples_prefixed (kws : kwargs qdist) (acc : kwargs array) :
  posterior_samples (map (fun kd => ("q_" +:+ fst kd, snd kd)) kws) acc
  = Val (fold_left (fun a kd => dict_set (fst kd) (q_sample (snd kd)) a) kws acc).
Proof.
  revert acc. induction kws as [|[k d] kws IH]; intros acc; [reflexivity|].
  cbn [map fst snd posterior_samples fold_left].
  rewrite q_prefix, q_strip. cbn [py_assert result_bind]. apply IH.
Qed.

(** X8. The Monte Carlo default of [_expected_logp] evaluates [_logp] at
    the samples of the posteriors, each passed under its keyword without the
    [q_] prefix, and fails the assertion on a keyword without the prefix.
    FlatDistribution, GMMClustering and MultiplicativeGaussianNoise have no
    [_expected_logp] of their own: theirs is [_logp] at the posterior
    samples, which for FlatDistribution is the constant 0. *)
Theorem monte_carlo_expected_logp :
  (forall (_logp : kwargs array -> result R) (kws : kwargs qdist),
     ConditionalDistribution__expected_logp _logp
       (map (fun kd => ("q_" +:+ fst kd, snd kd)) kws)
     = _logp (fold_left (fun a kd => dict_set (fst kd) (q_sample (snd kd)) a) kws [])) /\
  (forall (_logp : kwargs array -> result R) k d rest,
     String.prefix "q_" k = false ->
     ConditionalDistribution__expected_logp _logp ((k, d) :: rest)
     = Raise AssertionError) /\
  (forall n d dA dS,
     _expected_logp MultiplicativeGaussianNoise_class n
       [("q_result", d); ("q_A", dA); ("q_std", dS)]
     = MultiplicativeGaussianNoise__logp n (q_sample d) (q_sample dA) (q_sample dS)) /\
  (forall n d dW dC dS,
     _expected_logp GMMClustering_class n
       [("q_result", d); ("q_weights", dW); ("q_centers", dC); ("q_std", dS)]
     = GMMClustering__logp n (q_sample d) (q_sample dW) (q_sample dC) (q_sample dS)) /\
  (forall n d, _expected_logp FlatDistribution_class n [("q_result", d)] = Val 0%R).
Proof.
  split; [|split; [|split; [|split]]].
  - intros _logp kws. unfold ConditionalDistribution__expected_logp.
    rewrite posterior_samples_prefixed. reflexivity.
  - intros _logp k d rest Hk. unfold ConditionalDistribution__expected_logp.
    cbn [posterior_samples]. rewrite Hk. reflexivity.
  - intros n d dA dS. reflexivity.
  - intros n d dW dC dS. reflexivity.
  - intros n d. reflexivity.
Qed.

Lemma log_factorial_S k : log_factorial (S k) = (log_factorial k + ln (INR (S k)))%R.
Proof.
  unfold log_factorial. rewrite seq_S. rewrite map_app, fold_right_app.
  cbn [map fold_right]. replace (1 + k) with (S k) by lia.
  generalize (map (fun i => ln (INR i)) (seq 1 k)). intros l.
  induction l as [|a l IH]; cbn [fold_right].
  - lra.
  - rewrite IH. lra.
Qed.

Lemma log_factorial_fact k : log_factorial k = ln (INR (fact k)).
Proof.
  induction k as [|k IH].
  - cbn. rewrite ln_1. reflexivity.
  - rewrite log_factorial_S, IH.
    change (fact (S k)) with (S k * fact k). rewrite mult_INR.
    rewrite ln_mult.
    + lra.
    + apply lt_0_INR. lia.
    + apply lt_0_INR. apply lt_O_fact.
Qed.

(** X9. [NoisyLatentFeatures.elbo_term] adds the permutation correction
    [ln(K!)], and nothing for the sign, to the expected log-probability of
    the base [elbo_term] when [symmetry_correction_hack] is true or left
    out, and adds nothing when it is false; the entropy is the base one.
    The sum of logarithms the code computes is [ln(K!)] for every [K], so
    the correction is never negative. *)
Theorem NoisyLatentFeatures_elbo_term_correction (self : node_id) (s s' : state)
    (n : node) (k : nat) (E Hn : R) :
  nodes s !! self = Some n ->
  cls n = NoisyLatentFeatures ->
  K n = Some k ->
  ConditionalDistribution_elbo_term classes self s = Some (Val (E, Hn), s') ->
  elbo_term self (Some true) s = Some (Val ((E + ln (INR (fact k)))%R, Hn), s') /\
  elbo_term self None s = Some (Val ((E + ln (INR (fact k)))%R, Hn), s') /\
  elbo_term self (Some false) s = Some (Val (E, Hn), s') /\
  (0 <= ln (INR (fact k)))%R /\
  (forall j, log_factorial j = ln (INR (fact j))).
Proof.
  intros Hnode Hcls HK Hb.
  assert (Hc : forall h, correction_defined n h).
  { intros h. unfold correction_defined. rewrite Hcls, HK. discriminate. }
  split; [|split; [|split; [|split]]].
  - rewrite (elbo_term_of_base _ _ _ _ _ _ Hnode (Hc _) Hb).
    unfold symmetry_correction. rewrite Hcls, HK, log_factorial_fact. reflexivity.
  - rewrite (elbo_term_of_base _ _ _ _ _ _ Hnode (Hc _) Hb).
    unfold symmetry_correction. rewrite Hcls, HK, log_factorial_fact. reflexivity.
  - rewrite (elbo_term_of_base _ _ _ _ _ _ Hnode (Hc _) Hb).
    unfold symmetry_correction. apply elbo_result_eq; cbn; [lra|reflexivity].
  - rewrite <- log_factorial_fact. apply log_factorial_nonneg.
  - apply log_factorial_fact.
Qed.

End elbo_more.


Section observation.
Context `{Backend}.

Lemma insert_last {A : Type} (l : list A) (x y : A) :
  <[length l := y]> (l ++ [x])%list = (l ++ [y])%list.
Proof. rewrite insert_app_r_alt by lia. rewrite Nat.sub_diag. reflexivity. Qed.

Lemma lookup_last {A : Type} (l : list A) (x : A) : ((l ++ [x])%list : list A) !! length l = Some x.
Proof. rewrite lookup_app_r by lia. rewrite Nat.sub_diag. reflexivity. Qed.

(** X10. [observe(v)] on a node with an empty slot and the shape of [v]
    creates the observed posterior of [v], attaches it and returns it: it is
    then what [q_distribution] returns, and no other node and no existing
    posterior is touched.  On a node that has a posterior it raises, and on
    a node of another shape it fails the assertion of [attach_q]; the nodes
    are then as before. *)
Theorem observe_attaches_the_observation (self : node_id) (v : array) (s : state)
    (n : node) :
  nodes s !! self = Some n ->
  (_q_distribution n = None -> output_shape n = np_shape v ->
   exists s',
     observe self v s = Some (Val (length (qdists s)), s') /\
     qdists s' = (qdists s ++ [ObservedQDistribution v])%list /\
     nodes s' = <[self := set_q_distribution (Some (length (qdists s))) n]> (nodes s) /\
     rng s' = rng s /\
     q_distribution self s' = Some (Val (length (qdists s)), s')) /\
  (_q_distribution n <> None ->
   exists msg s',
     observe self v s = Some (Raise (PyException msg), s') /\ nodes s' = nodes s) /\
  (_q_distribution n = None -> output_shape n <> np_shape v ->
   exists s', observe self v s = Some (Raise AssertionError, s') /\ nodes s' = nodes s).
Proof.
  intros Hn.
  set (s0 := mk_state (nodes s) (qdists s ++ [ObservedQDistribution v])%list (rng s)).
  assert (Halloc : alloc_q (ObservedQDistribution v) s = Some (Val (length (qdists s)), s0))
    by reflexivity.
  assert (Hn0 : nodes s0 !! self = Some n) by exact Hn.
  pose proof (attach_q_cases self (length (qdists s)) s0 n Hn0) as Hatt.
  assert (Hq0 : qdists s0 !! length (qdists s) = Some (ObservedQDistribution v))
    by apply lookup_last.
  unfold observe, ConditionalDistribution_observe.
  rewrite (bind_eq_Val _ _ _ _ _ Halloc).
  split; [|split].
  - intros Hslot Hshape. rewrite Hslot, Hq0 in Hatt.
    rewrite bool_decide_eq_true_2 in Hatt by exact Hshape.
    rewrite (bind_eq_Val _ _ _ _ _ Hatt).
    eexists. split; [reflexivity|]. cbn [nodes qdists rng s0].
    split; [reflexivity|]. split; [reflexivity|]. split; [reflexivity|].
    apply q_distribution_attached. eexists. cbn [nodes]. split.
    + apply list_lookup_insert_eq. eapply lookup_lt_Some; eauto.
    + reflexivity.
  - intros Hslot. destruct (_q_distribution n) as [q0|]; [|congruence].
    rewrite (bind_eq_Raise _ _ _ _ _ Hatt). eauto.
  - intros Hslot Hshape. rewrite Hslot, Hq0 in Hatt.
    rewrite bool_decide_eq_false_2 in Hatt by exact Hshape.
    rewrite (bind_eq_Raise _ _ _ _ _ Hatt). eauto.
Qed.

End observation.

Section flat.
Context `{Backend}.

Lemma init_after_inputs_flat (dt : np_dtype) (a : array) (shp : shape)
    (dtype_arg : option np_dtype) (msf : option R) (nm : string) (s : state) :
  init_after_inputs FlatDistribution FlatDistribution_class (Some dt) (Some a)
    (Some shp) dtype_arg msf nm [] s
  = Some (Val (length (nodes s)),
          mk_state (nodes s ++
                    [mk_node FlatDistribution nm msf [] shp
                       (match dtype_arg with Some d => d | None => dt end)
                       ({[length (nodes s)]} ∪ ⋃ []) None None None (Some a)
                       None None None])%list
                   (qdists s) (rng s)).
Proof. destruct dtype_arg; reflexivity. Qed.

(** What [FlatDistribution(value, fixed, **kw)] does, case by case. *)
Lemma FlatDistribution___init___cases (v : raw) (fixed : bool) (kw : init_kwargs) (s : state) :
  FlatDistribution___init__ v fixed kw s =
    match np_asarray v (value_dtype v) with
    | Raise e => Some (Raise e, s)
    | Val a =>
        match kw_output_shape kw with
        | Some _ =>
            Some (Raise (TypeError "multiple values for keyword argument output_shape"), s)
        | None =>
            let n := new_flat_node v a kw (length (nodes s)) in
            if fixed
            then Some (Val (length (nodes s)),
                       mk_state (nodes s ++ [set_q_distribution (Some (length (qdists s))) n])%list
                                (qdists s ++ [ObservedQDistribution a])%list (rng s))
            else Some (Val (length (nodes s)), mk_state (nodes s ++ [n])%list (qdists s) (rng s))
        end
    end.
Proof.
  unfold FlatDistribution___init__, value_dtype.
  destruct (np_asarray v _) as [a|e]; [|reflexivity].
  cbn [lift]. unfold bind at 1. cbn [ret].
  destruct (kw_output_shape kw) as [shp|]; [reflexivity|].
  unfold bind at 1. cbn [ret].
  rewrite (bind_eq_Val _ _ _ _ _ (init_after_inputs_flat _ _ _ _ _ _ _)).
  destruct fixed; [|reflexivity].
  unfold bind at 1. unfold bind at 1. unfold alloc_q at 1. cbn [nodes qdists rng].
  match goal with
  | |- context [ConditionalDistribution_attach_q ?i ?q ?st] =>
      pose proof (attach_q_cases i q st _ (lookup_last (nodes s) _)) as Hatt
  end.
  cbn [_q_distribution qdists nodes] in Hatt.
  rewrite lookup_last in Hatt.
  rewrite bool_decide_eq_true_2 in Hatt by reflexivity.
  rewrite Hatt. cbn [ret rng qdists nodes]. rewrite insert_last. reflexivity.
Qed.

End flat.


Section flat_behaviour.
Context `{Backend}.

(** X11. [FlatDistribution(value, fixed, **kw)], when numpy converts the
    value, creates one node: its value is the converted array, its shape the
    array's, it has no inputs and is its only ancestor, its cache is empty;
    its [dtype] attribute is the [dtype] keyword when there is one, else the
    dtype the value was converted with.  With [fixed] the observed posterior
    of the value is created and attached (the assertion of [attach_q] cannot
    fail), without it nothing is attached.  An [output_shape] keyword is a
    TypeError and creates nothing. *)
Theorem FlatDistribution_constructor (v : raw) (fixed : bool) (kw : init_kwargs)
    (s : state) (a : array) :
  np_asarray v (value_dtype v) = Val a ->
  (kw_output_shape kw = None ->
   exists n s',
     FlatDistribution___init__ v fixed kw s = Some (Val (length (nodes s)), s') /\
     nodes s' = (nodes s ++ [n])%list /\ rng s' = rng s /\
     cls n = FlatDistribution /\
     name n = resolve_name FlatDistribution (kw_name kw) (kw_uuid kw) /\
     value n = Some a /\ output_shape n = np_shape a /\
     dtype n = match kw_dtype kw with Some d => d | None => value_dtype v end /\
     minibatch_scale_factor n = kw_minibatch_scale_factor kw /\
     input_nodes n = [] /\ ancestors n = {[length (nodes s)]} /\
     _sampled_value n = None /\ _sampled_value_seed n = None /\
     if fixed
     then _q_distribution n = Some (length (qdists s)) /\
          qdists s' = (qdists s ++ [ObservedQDistribution a])%list
     else _q_distribution n = None /\ qdists s' = qdists s) /\
  (kw_output_shape kw <> None ->
   exists msg, FlatDistribution___init__ v fixed kw s = Some (Raise (TypeError msg), s)).
Proof.
  intros Ha. rewrite FlatDistribution___init___cases, Ha. split.
  - intros ->. cbv zeta. destruct fixed.
    + eexists _, _. split; [reflexivity|]. cbn.
      repeat (split; [reflexivity|]).
      split; [|repeat (split; [reflexivity|]); split; reflexivity].
      cbn. apply (right_id_L (∅ : gset node_id) (∪)).
    + eexists _, _. split; [reflexivity|]. cbn.
      repeat (split; [reflexivity|]).
      split; [|repeat (split; [reflexivity|]); split; reflexivity].
      cbn. apply (right_id_L (∅ : gset node_id) (∪)).
  - intros Hshape. destruct (kw_output_shape kw); [eauto|congruence].
Qed.

(** A node that holds a constant, with a cache that, when filled, holds the
    constant. *)
Lemma constant_sample (self : node_id) (seed : Z) (fuel : nat) (s : state) (n : node)
    (a : array) :
  nodes s !! self = Some n ->
  holds_constant a n ->
  exists s1 n1,
    sample (S fuel) self seed s = Some (Val (Some a), s1) /\
    nodes s1 !! self = Some n1 /\ holds_constant a n1.
Proof.
  intros Hn (Hcls & Hins & Hval & Hcache).
  destruct (decide (_sampled_value_seed n = Some seed)) as [Hs|Hs].
  { unfold sample. rewrite (sample_cached _ _ _ _ _ _ Hn Hs).
    rewrite Hcache by congruence. exists s, n. repeat split; auto. }
  assert (Hlt : self < length (nodes s)) by (eapply lookup_lt_Some; eauto).
  unfold sample. cbn [ConditionalDistribution_sample].
  rewrite (bind_eq_Val _ _ _ _ _ (get_node_eq _ _ _ Hn)).
  rewrite bool_decide_eq_true_2 by congruence.
  rewrite Hins. cbn [for_each]. unfold bind at 1. unfold bind at 1. cbn [ret].
  unfold bind at 1. cbn [set_rng]. unfold bind at 1. unfold modify_node at 1.
  cbn [nodes]. rewrite Hn. unfold bind at 1. unfold get_node at 1. cbn [nodes].
  rewrite list_lookup_insert_eq by exact Hlt.
  unfold bind at 1. unfold with_rng. cbn [rng qdists nodes cls].
  change (cls (set_sampled_value_seed (Some seed) n)) with (cls n).
  rewrite Hcls. cbn [classes _sample FlatDistribution_class call0 FlatDistribution__sample].
  change (FlatDistribution__sample (set_sampled_value_seed (Some seed) n))
    with (getattr "value" (value n)).
  rewrite Hval. cbn [getattr].
  unfold modify_node. cbn [nodes qdists rng].
  rewrite list_lookup_insert_eq by exact Hlt.
  unfold bind at 1. unfold get_node. cbn [nodes].
  rewrite list_lookup_insert_eq by (rewrite length_insert; exact Hlt).
  eexists _, _. split; [reflexivity|]. cbn [nodes]. split.
  - apply list_lookup_insert_eq. rewrite length_insert. exact Hlt.
  - repeat split; auto.
Qed.

Lemma constant_samples (self : node_id) (a : array) (seeds : list Z) :
  forall s n,
    nodes s !! self = Some n ->
    holds_constant a n ->
    exists s1,
      for_each (fun seed => sample 1 self seed) seeds s
      = Some (Val (map (fun _ => Some a) seeds), s1).
Proof.
  induction seeds as [|seed seeds IH]; intros s n Hn Hc.
  - exists s. reflexivity.
  - destruct (constant_sample self seed 0 s n a Hn Hc) as (s1 & n1 & Hs & Hn1 & Hc1).
    destruct (IH s1 n1 Hn1 Hc1) as (s2 & Hs2).
    exists s2. cbn [for_each map].
    rewrite (bind_eq_Val _ _ _ _ _ Hs). rewrite (bind_eq_Val _ _ _ _ _ Hs2). reflexivity.
Qed.

(** X12. A node made by [FlatDistribution(value, fixed=True)] is a constant:
    [sample] returns the converted value for every seed, call after call;
    [elbo_term] returns an expected log-probability of 0 (times the scale
    factor) with the entropy of the observed posterior, and changes nothing;
    and the node takes no other posterior: [attach_q] and [observe] raise. *)
Theorem fixed_constant_node (v : raw) (kw : init_kwargs) (s s' : state) (self : node_id) :
  FlatDistribution___init__ v true kw s = Some (Val self, s') ->
  exists a,
    np_asarray v (value_dtype v) = Val a /\
    (forall seeds : list Z,
       exists s1,
         for_each (fun seed => sample 1 self seed) seeds s'
         = Some (Val (map (fun _ => Some a) seeds), s1)) /\
    elbo_term self None s'
    = Some (Val (scaled (kw_minibatch_scale_factor kw)
                        (0%R, q_entropy (ObservedQDistribution a))), s') /\
    (forall q, exists msg, attach_q self q s' = Some (Raise (PyException msg), s')) /\
    (forall w, exists msg s'',
       observe self w s' = Some (Raise (PyException msg), s'') /\ nodes s'' = nodes s').
Proof.
  intros Hinit. rewrite FlatDistribution___init___cases in Hinit.
  destruct (np_asarray v (value_dtype v)) as [a|e]; [|discriminate].
  destruct (kw_output_shape kw); [discriminate|]. cbv zeta in Hinit.
  inversion Hinit; subst self s'; clear Hinit.
  set (n := set_q_distribution (Some (length (qdists s)))
              (new_flat_node v a kw (length (nodes s)))).
  set (s' := mk_state (nodes s ++ [n])%list
                      (qdists s ++ [ObservedQDistribution a])%list (rng s)).
  assert (Hn : nodes s' !! length (nodes s) = Some n) by apply lookup_last.
  assert (Hq : qdists s' !! length (qdists s) = Some (ObservedQDistribution a))
    by apply lookup_last.
  exists a. split; [reflexivity|]. split; [|split; [|split]].
  - intros seeds. apply constant_samples with (n := n); [exact Hn|].
    repeat split; try reflexivity. intros Hc. exfalso. apply Hc. reflexivity.
  - unfold elbo_term. rewrite (bind_eq_Val _ _ _ _ _ (get_node_eq _ _ _ Hn)).
    cbn [cls n set_q_distribution new_flat_node].
    rewrite (base_elbo_term_attached _ _ n _ _ [] Hn eq_refl Hq); [reflexivity|].
    constructor.
  - intros q. unfold attach_q. rewrite (attach_q_cases _ _ _ _ Hn). cbn. eauto.
  - intros w. unfold observe, ConditionalDistribution_observe.
    set (s0 := mk_state (nodes s') (qdists s' ++ [ObservedQDistribution w])%list (rng s')).
    assert (Halloc : alloc_q (ObservedQDistribution w) s' = Some (Val (length (qdists s')), s0))
      by reflexivity.
    rewrite (bind_eq_Val _ _ _ _ _ Halloc).
    pose proof (attach_q_cases (length (nodes s)) (length (qdists s')) s0 n Hn) as Hatt.
    cbn [_q_distribution n set_q_distribution] in Hatt.
    rewrite (bind_eq_Raise _ _ _ _ _ Hatt). eauto.
Qed.

End flat_behaviour.


Section init_q.
Context `{Backend}.

Lemma init_q_true_frame (s0 : state) (fuel : nat) :
  forall self s r s',
    keeps_observations s0 s ->
    init_q_true fuel self s = Some (r, s') ->
    keeps_observations s0 s' /\
    forall e, r = Raise e -> e = PyException "default Q distribution not implemented!".
Proof.
  induction fuel as [|fuel IH]; intros self s r s' HI Hr; [discriminate|].
  unfold init_q_true in Hr. cbn [ConditionalDistribution_init_q_true] in Hr.
  apply bind_Some in Hr as [(n & s1 & Hg & Hr)|(e & Hg & _)].
  2:{ apply get_node_Some in Hg as (? & _ & ? & _). discriminate. }
  apply get_node_Some in Hg as (n' & Hn & [= <-] & ->).
  assert (Hloop : forall ins s1 r1 s2,
            keeps_observations s0 s1 ->
            for_each (A := string * node_id)
                     (fun '(_, p) => ConditionalDistribution_init_q_true classes fuel p)
                     ins s1 = Some (r1, s2) ->
            keeps_observations s0 s2 /\
            forall e, r1 = Raise e ->
                      e = PyException "default Q distribution not implemented!").
  { induction ins as [|[nm p] ins IHl]; intros s1 r1 s2 H1 Hf.
    - inversion Hf; subst. split; [exact H1|discriminate].
    - cbn [for_each] in Hf.
      apply bind_Some in Hf as [([] & s3 & Hp & Hf)|(e & Hp & ->)].
      + destruct (IH _ _ _ _ H1 Hp) as [H3 _].
        apply bind_Some in Hf as [(bs & s4 & Hbs & Hret)|(e & Hbs & ->)].
        * inversion Hret; subst. destruct (IHl _ _ _ H3 Hbs) as [H4 _].
          split; [exact H4|discriminate].
        * destruct (IHl _ _ _ H3 Hbs) as [H4 He]. split; [exact H4|].
          intros e' [= <-]. apply He. reflexivity.
      + destruct (IH _ _ _ _ H1 Hp) as [H3 He]. split; [exact H3|].
        intros e' [= <-]. apply He. reflexivity. }
  apply bind_Some in Hr as [(u & s1 & Hf & Hr)|(e & Hf & ->)].
  2:{ destruct (Hloop _ _ _ _ HI Hf) as [H1 He]. split; [exact H1|].
      intros e' [= <-]. apply He. reflexivity. }
  destruct (Hloop _ _ _ _ HI Hf) as [H1 _].
  apply bind_Some in Hr as [(q & s2 & Hq & Hr)|(e & Hq & ->)].
  2:{ pose proof (q_distribution_read_only _ _ _ _ Hq) as ->. split; [exact H1|].
      intros e' [= <-].
      destruct (q_distribution_outcome _ _ _ _ Hq) as (_ & m & _ & Hm).
      destruct (_q_distribution m); [discriminate|]. inversion Hm. reflexivity. }
  pose proof (q_distribution_read_only _ _ _ _ Hq) as ->.
  apply bind_Some in Hr as [(d & s2 & Hd & Hr)|(e & Hd & _)].
  2:{ apply get_q_Some in Hd as (? & _ & ? & _). discriminate. }
  apply get_q_Some in Hd as (d' & Hd & [= <-] & ->).
  destruct (q_observed d) eqn:Hobs.
  { inversion Hr; subst. split; [exact H1|discriminate]. }
  unfold try_except in Hr.
  match type of Hr with
  | match ?m with _ => _ end = _ => destruct m as [[r2 s3]|] eqn:Hin; [|discriminate]
  end.
  inversion Hr; subst r s'; clear Hr. split; [|discriminate].
  apply bind_Some in Hin as [(n2 & s4 & Hg & Hin)|(e & Hg & _)].
  2:{ apply get_node_Some in Hg as (? & _ & ? & _). discriminate. }
  apply get_node_Some in Hg as (n2' & Hn2 & [= <-] & ->).
  apply bind_Some in Hin as [(d2 & s4 & Hl & Hin)|(e & Hl & _)].
  2:{ apply lift_Some in Hl as [_ ->]. exact H1. }
  apply lift_Some in Hl as [_ ->].
  unfold put_q in Hin. rewrite Hd in Hin. inversion Hin; subst s3; clear Hin.
  destruct H1 as (HN & HG & HL & HO).
  split; [exact HN|]. split; [exact HG|]. cbn [qdists]. split.
  - rewrite length_insert. exact HL.
  - intros q0 d0 Hq0 Hobs0. specialize (HO _ _ Hq0 Hobs0).
    rewrite list_lookup_insert_ne; [exact HO|].
    intros ->. rewrite Hd in HO. inversion HO; subst. congruence.
Qed.

(** X13. [init_q_true] writes posteriors only: the nodes, the generator and
    the number of posteriors are as before, and every observed posterior is
    left as it is.  The only exception it lets through is the one of a
    missing posterior; what [initialize_to_value] raises is swallowed. *)
Theorem init_q_true_keeps_observations (fuel : nat) (self : node_id) (s s' : state)
    (r : result unit) :
  init_q_true fuel self s = Some (r, s') ->
  keeps_observations s s' /\
  forall e, r = Raise e -> e = PyException "default Q distribution not implemented!".
Proof.
  intros Hr. apply (init_q_true_frame s fuel self s r s'); [|exact Hr].
  repeat split; auto.
Qed.

Lemma init_q_true_leaf (fuel : nat) (self : node_id) (s : state) (n : node)
    (q : q_ref) (d : qdist) :
  nodes s !! self = Some n ->
  input_nodes n = [] ->
  _q_distribution n = Some q ->
  qdists s !! q = Some d ->
  init_q_true (S fuel) self s =
    Some (Val tt,
          if q_observed d then s
          else match q_initialize_to_value d (_sampled_value n) with
               | Val d' => mk_state (nodes s) (<[q := d']> (qdists s)) (rng s)
               | Raise _ => s
               end).
Proof.
  intros Hn Hins Hslot Hd.
  unfold init_q_true. cbn [ConditionalDistribution_init_q_true].
  rewrite (bind_eq_Val _ _ _ _ _ (get_node_eq _ _ _ Hn)).
  rewrite Hins. cbn [for_each]. unfold bind at 1. cbn [ret].
  assert (Hq : ConditionalDistribution_q_distribution classes self s = Some (Val q, s)).
  { apply q_distribution_attached. exists n. auto. }
  rewrite (bind_eq_Val _ _ _ _ _ Hq).
  rewrite (bind_eq_Val _ _ _ _ _ (get_q_eq _ _ _ Hd)).
  destruct (q_observed d); [reflexivity|].
  unfold try_except.
  rewrite (bind_eq_Val _ _ _ _ _ (get_node_eq _ _ _ Hn)).
  destruct (q_initialize_to_value d (_sampled_value n)) as [d'|e]; [|reflexivity].
  cbn [lift]. unfold bind at 1. cbn [ret]. unfold put_q. rewrite Hd. reflexivity.
Qed.

Lemma init_q_true_total (fuel : nat) :
  forall self s n,
    graph_ok (nodes s) ->
    nodes s !! self = Some n ->
    self < fuel ->
    (forall j, j ∈ ancestors n -> node_has j (has_posterior s) (nodes s)) ->
    exists s', init_q_true fuel self s = Some (Val tt, s').
Proof.
  induction fuel as [|fuel IH]; intros self s n Hok Hn Hf Hall; [lia|].
  unfold init_q_true. cbn [ConditionalDistribution_init_q_true].
  rewrite (bind_eq_Val _ _ _ _ _ (get_node_eq _ _ _ Hn)).
  assert (Hloop : forall ins s1,
            Forall (fun kp : string * node_id =>
                      snd kp < self /\ snd kp ∈ ancestors n) ins ->
            keeps_observations s s1 ->
            exists bs s2,
              for_each (A := string * node_id)
                (fun '(_, p) => ConditionalDistribution_init_q_true classes fuel p)
                ins s1 = Some (Val bs, s2) /\
              keeps_observations s s2).
  { induction ins as [|[nm p] ins IHl]; intros s1 HF H1.
    - exists [], s1. split; [reflexivity|exact H1].
    - inversion HF as [|? ? [Hp Hpa] HF']; subst. cbn in Hp, Hpa.
      destruct H1 as (HN & HG & HL & HO).
      destruct (ancestors_older _ _ _ _ Hok Hn Hpa) as (_ & pn & Hpn & Hsub).
      destruct (IH p s1 pn) as (s2 & Hs2).
      + rewrite HN. exact Hok.
      + rewrite HN. exact Hpn.
      + lia.
      + intros j Hj. rewrite HN.
        destruct (Hall j (Hsub _ Hj)) as (m & Hm & qm & Hqm & Hlt).
        exists m. split; [exact Hm|]. exists qm. split; [exact Hqm|]. lia.
      + destruct (init_q_true_frame s fuel p s1 (Val tt) s2) as [H2 _];
          [repeat split; auto|exact Hs2|].
        destruct (IHl s2 HF' H2) as (bs & s3 & Hbs & H3).
        exists (tt :: bs), s3. split; [|exact H3].
        cbn [for_each]. unfold init_q_true in Hs2.
        rewrite (bind_eq_Val _ _ _ _ _ Hs2). rewrite (bind_eq_Val _ _ _ _ _ Hbs).
        reflexivity. }
  assert (Hpar : Forall (fun kp : string * node_id =>
                           snd kp < self /\ snd kp ∈ ancestors n) (input_nodes n)).
  { apply Forall_forall. intros [k p] Hin. cbn. split.
    - pose proof (proj1 Hok _ _ Hn) as HF. rewrite Forall_forall in HF.
      apply (HF (k, p) Hin).
    - destruct (closed_at_parent _ _ _ _ _ (proj2 Hok _ _ Hn) Hin) as (pn & Hpn & Hsub).
      apply Hsub. apply closed_at_self with (l := nodes s). apply (proj2 Hok). exact Hpn. }
  destruct (Hloop _ s Hpar) as (bs & s1 & Hbs & (HN & HG & HL & HO)).
  { repeat split; auto. }
  rewrite (bind_eq_Val _ _ _ _ _ Hbs).
  destruct (Hall self (closed_at_self _ _ _ (proj2 Hok _ _ Hn)))
    as (m & Hm & q & Hq & Hlt).
  rewrite Hn in Hm. inversion Hm; subst m.
  assert (Hn1 : nodes s1 !! self = Some n) by (rewrite HN; exact Hn).
  assert (Hqd : ConditionalDistribution_q_distribution classes self s1 = Some (Val q, s1)).
  { apply q_distribution_attached. exists n. auto. }
  rewrite (bind_eq_Val _ _ _ _ _ Hqd).
  destruct (lookup_lt_is_Some_2 (qdists s1) q) as [d Hd]; [lia|].
  rewrite (bind_eq_Val _ _ _ _ _ (get_q_eq _ _ _ Hd)).
  destruct (q_observed d); [eexists; reflexivity|].
  unfold try_except.
  rewrite (bind_eq_Val _ _ _ _ _ (get_node_eq _ _ _ Hn1)).
  destruct (q_initialize_to_value d (_sampled_value n)) as [d'|e].
  - cbn [lift]. unfold bind at 1. cbn [ret]. unfold put_q. rewrite Hd. eauto.
  - cbn [lift]. unfold bind at 1. cbn [raise]. eauto.
Qed.

(** X14. On a store that satisfies the graph invariant, [init_q_true] on a
    node all of whose ancestors have a posterior returns normally, whatever
    [initialize_to_value] does.  On a node without inputs it replaces the
    node's posterior by the one initialised to the cached sample when the
    posterior is not an observation and the initialisation returns, and
    changes nothing otherwise (an initialisation that raises is taken to
    leave the posterior as it was: the posterior classes are outside the two
    files). *)
Theorem init_q_true_returns (fuel : nat) (self : node_id) (s : state) (n : node) :
  graph_ok (nodes s) ->
  nodes s !! self = Some n ->
  self < fuel ->
  (forall j, j ∈ ancestors n -> node_has j (has_posterior s) (nodes s)) ->
  (exists s', init_q_true fuel self s = Some (Val tt, s')) /\
  (input_nodes n = [] ->
   forall q d, _q_distribution n = Some q -> qdists s !! q = Some d ->
     init_q_true fuel self s =
       Some (Val tt,
             if q_observed d then s
             else match q_initialize_to_value d (_sampled_value n) with
                  | Val d' => mk_state (nodes s) (<[q := d']> (qdists s)) (rng s)
                  | Raise _ => s
                  end)).
Proof.
  intros Hok Hn Hf Hall. split.
  - eapply init_q_true_total; eauto.
  - intros Hins q d Hslot Hd. destruct fuel as [|fuel]; [lia|].
    apply init_q_true_leaf; auto.
Qed.

End init_q.


Section constructors.
Context `{Backend}.

Lemma for_each_get_node_eq {B : Type} (g : string -> node -> B) (ins : kwargs node_id)
    (pns : list node) (s : state) :
  Forall2 (fun (kp : string * node_id) pn => nodes s !! snd kp = Some pn) ins pns ->
  for_each (fun '(nm, p) => n <- get_node p ;; ret (g nm n)) ins s
  = Some (Val (zip_with (fun (kp : string * node_id) pn => g (fst kp) pn) ins pns), s).
Proof.
  intros HF. induction HF as [|kp pn ins pns Hp _ IH]; [reflexivity|].
  destruct kp as [nm p]. cbn [for_each zip_with fst]. cbn in Hp.
  rewrite (bind_eq_Val _ _ _ _ _
             (bind_eq_Val _ (fun n => ret (g nm n)) _ _ _ (get_node_eq _ _ _ Hp)
              : (n <- get_node p ;; ret (g nm n)) s = Some (Val (g nm pn), s))).
  rewrite (bind_eq_Val _ _ _ _ _ IH). reflexivity.
Qed.

Lemma init_after_inputs_cases (c : kind) (C : node_class) (pd : option np_dtype)
    (pv : option array) (shp_arg : option shape) (dt_arg : option np_dtype)
    (msf : option R) (nm : string) (ins : kwargs node_id) (pns : list node) (s : state) :
  Forall2 (fun (kp : string * node_id) pn => nodes s !! snd kp = Some pn) ins pns ->
  init_after_inputs c C pd pv shp_arg dt_arg msf nm ins s =
    match given_or shp_arg
            (_compute_shape C
               (zip_with (fun (kp : string * node_id) pn =>
                            (fst kp +:+ "_shape", output_shape pn)) ins pns)) with
    | Raise e => Some (Raise e, s)
    | Val shp =>
        match given_or dt_arg
                (_compute_dtype C pd
                   (zip_with (fun (kp : string * node_id) pn =>
                                (fst kp +:+ "_dtype", dtype pn)) ins pns)) with
        | Raise e => Some (Raise e, s)
        | Val dt =>
            Some (Val (length (nodes s)),
                  with_new_node s
                    (mk_node c nm msf ins shp dt
                       ({[length (nodes s)]} ∪ ⋃ (map ancestors pns))
                       None None None pv None None None))
        end
    end.
Proof.
  intros HF. unfold init_after_inputs.
  assert (Hshp : (match shp_arg with
                  | Some s0 => ret s0
                  | None =>
                      input_shapes <-
                        for_each (fun '(nm0, p) =>
                                    n <- get_node p ;; ret (nm0 +:+ "_shape", output_shape n))
                                 ins ;;
                      lift (_compute_shape C input_shapes)
                  end) s
                 = lift (given_or shp_arg
                           (_compute_shape C
                              (zip_with (fun (kp : string * node_id) pn =>
                                           (fst kp +:+ "_shape", output_shape pn))
                                        ins pns))) s).
  { destruct shp_arg; [reflexivity|].
    rewrite (bind_eq_Val _ _ _ _ _
               (for_each_get_node_eq (fun nm0 n => (nm0 +:+ "_shape", output_shape n))
                  _ _ _ HF)).
    reflexivity. }
  unfold bind at 1. rewrite Hshp.
  destruct (given_or shp_arg _) as [shp|e]; [|reflexivity]. cbn [lift ret].
  assert (Hdt : (match dt_arg with
                 | Some d => ret d
                 | None =>
                     input_dtypes <-
                       for_each (fun '(nm0, p) =>
                                   n <- get_node p ;; ret (nm0 +:+ "_dtype", dtype n))
                                ins ;;
                     lift (_compute_dtype C pd input_dtypes)
                 end) s
                = lift (given_or dt_arg
                          (_compute_dtype C pd
                             (zip_with (fun (kp : string * node_id) pn =>
                                          (fst kp +:+ "_dtype", dtype pn))
                                       ins pns))) s).
  { destruct dt_arg; [reflexivity|].
    rewrite (bind_eq_Val _ _ _ _ _
               (for_each_get_node_eq (fun nm0 n => (nm0 +:+ "_dtype", dtype n))
                  _ _ _ HF)).
    reflexivity. }
  unfold bind at 1. rewrite Hdt.
  destruct (given_or dt_arg _) as [dt|e]; [|reflexivity]. cbn [lift ret].
  assert (Hanc : for_each (fun '(_, p) => n <- get_node p ;; ret (ancestors n)) ins s
                 = Some (Val (map ancestors pns), s)).
  { rewrite (for_each_get_node_eq (fun _ n => ancestors n) _ _ _ HF). f_equal. f_equal.
    f_equal. clear - HF. induction HF as [|kp pn ins pns _ _ IH]; [reflexivity|].
    cbn. f_equal. exact IH. }
  rewrite (bind_eq_Val _ _ _ _ _ Hanc). reflexivity.
Qed.

(** The loop of the base constructor when every declared input is given as a
    node of the store or as [None]. *)
Lemma wire_inputs_nodes (nm : string) (kws : kwargs pyarg) (s : state) (names : list string) :
  forall acc,
    Forall (fun name => (exists p, kw_get name kws = Some (ArgNode p) /\
                                   is_Some (nodes s !! p)) \/
                        kw_get name kws = Some ArgNone) names ->
    wire_inputs nm names kws acc s
    = Some (Val (fold_left (fun acc0 name =>
                              match kw_get name kws with
                              | Some (ArgNode p) => dict_set name p acc0
                              | _ => acc0
                              end) names acc), s).
Proof.
  induction names as [|name names IH]; intros acc HF; [reflexivity|].
  inversion HF as [|? ? [(p & Hp & [pn Hpn])|Hp] HF']; subst;
    cbn [wire_inputs fold_left]; rewrite Hp.
  - rewrite (bind_eq_Val _ _ _ _ _ (get_node_eq _ _ _ Hpn)). apply IH. exact HF'.
  - apply IH. exact HF'.
Qed.

End constructors.


Section subclass_constructors.
Context `{Backend}.

(** The base constructor when every declared input is given as a node or as
    [None]. *)
Lemma base___init___nodes (c : kind) (kw : init_kwargs) (kws : kwargs pyarg)
    (ins : kwargs node_id) (pns : list node) (s : state) :
  Forall (fun name => (exists p, kw_get name kws = Some (ArgNode p) /\
                                 is_Some (nodes s !! p)) \/
                      kw_get name kws = Some ArgNone) (inputs (classes c)) ->
  fold_left (fun acc0 name =>
               match kw_get name kws with
               | Some (ArgNode p) => dict_set name p acc0
               | _ => acc0
               end) (inputs (classes c)) [] = ins ->
  Forall2 (fun (kp : string * node_id) pn => nodes s !! snd kp = Some pn) ins pns ->
  ConditionalDistribution___init__ classes c kw kws s =
    match given_or (kw_output_shape kw)
            (_compute_shape (classes c)
               (zip_with (fun (kp : string * node_id) pn =>
                            (fst kp +:+ "_shape", output_shape pn)) ins pns)) with
    | Raise e => Some (Raise e, s)
    | Val shp =>
        match given_or (kw_dtype kw)
                (_compute_dtype (classes c) None
                   (zip_with (fun (kp : string * node_id) pn =>
                                (fst kp +:+ "_dtype", dtype pn)) ins pns)) with
        | Raise e => Some (Raise e, s)
        | Val dt =>
            Some (Val (length (nodes s)),
                  with_new_node s
                    (new_node c kw ins shp dt (map ancestors pns) (length (nodes s))))
        end
    end.
Proof.
  intros Hnames Hins HF. unfold ConditionalDistribution___init__.
  rewrite (bind_eq_Val _ _ _ _ _ (wire_inputs_nodes _ _ _ _ _ Hnames)).
  rewrite Hins. apply init_after_inputs_cases. exact HF.
Qed.

(** A subclass constructor reads a dimension of an input node after the base
    constructor has returned the new node. *)
Lemma read_dimension_after {X : Type} (s : state) (n : node) (p : node_id) (pn : node)
    (i : nat) (set : nat -> node -> node) (rest : M X) :
  nodes s !! p = Some pn ->
  (shp <- arg_output_shape (ArgNode p) ;;
   k <- lift (tuple_get shp i) ;;
   modify_node (length (nodes s)) (set k) ;;;
   rest) (with_new_node s n)
  = match tuple_get (output_shape pn) i with
    | Val k => rest (with_new_node s (set k n))
    | Raise e => Some (Raise e, with_new_node s n)
    end.
Proof.
  intros Hp.
  assert (Hp' : nodes (with_new_node s n) !! p = Some pn).
  { cbn [nodes with_new_node]. apply lookup_app_l_Some. exact Hp. }
  cbn [arg_output_shape].
  rewrite (bind_eq_Val _ _ _ _ _
             (bind_eq_Val _ (fun m => ret (output_shape m)) _ _ _ (get_node_eq _ _ _ Hp')
              : (m <- get_node p ;; ret (output_shape m)) (with_new_node s n)
                = Some (Val (output_shape pn), with_new_node s n))).
  destruct (tuple_get (output_shape pn) i) as [k|e]; [|reflexivity].
  cbn [lift]. unfold bind at 1. cbn [ret].
  unfold bind at 1. unfold modify_node at 1. unfold with_new_node at 1 2 3. cbn [nodes qdists rng].
  rewrite lookup_last, insert_last. reflexivity.
Qed.

Lemma modify_new_node {X : Type} (s : state) (n : node) (f : node -> node) (rest : M X) :
  (modify_node (length (nodes s)) f ;;; rest) (with_new_node s n)
  = rest (with_new_node s (f n)).
Proof.
  unfold bind at 1. unfold modify_node at 1. unfold with_new_node at 1 2 3.
  cbn [nodes qdists rng]. rewrite lookup_last, insert_last. reflexivity.
Qed.

Lemma NoisyGaussianMatrixProduct___init___nodes (a b c : node_id) (rescale_arg : bool)
    (kw : init_kwargs) (s : state) (na nb nc : node) :
  nodes s !! a = Some na -> nodes s !! b = Some nb -> nodes s !! c = Some nc ->
  NoisyGaussianMatrixProduct___init__ (ArgNode a) (ArgNode b) (ArgNode c) rescale_arg kw s =
    match given_or (kw_output_shape kw)
            (NoisyGaussianMatrixProduct__compute_shape
               (output_shape na) (output_shape nb) (output_shape nc)) with
    | Raise e => Some (Raise e, s)
    | Val shp =>
        match given_or (kw_dtype kw)
                (NoisyGaussianMatrixProduct__compute_dtype (dtype na) (dtype nb) (dtype nc)) with
        | Raise e => Some (Raise e, s)
        | Val dt =>
            let n := new_node NoisyGaussianMatrixProduct kw
                       [("A", a); ("B", b); ("std", c)] shp dt
                       [ancestors na; ancestors nb; ancestors nc] (length (nodes s)) in
            match tuple_get (output_shape na) 1 with
            | Val k =>
                Some (Val (length (nodes s)),
                      with_new_node s (set_rescale rescale_arg (set_K k n)))
            | Raise e => Some (Raise e, with_new_node s n)
            end
        end
    end.
Proof.
  intros Ha Hb Hc. unfold NoisyGaussianMatrixProduct___init__.
  pose proof (base___init___nodes NoisyGaussianMatrixProduct kw
                [("A", ArgNode a); ("B", ArgNode b); ("std", ArgNode c)]
                [("A", a); ("B", b); ("std", c)] [na; nb; nc] s) as Hbase.
  cbn [zip_with fst map] in Hbase.
  change (_compute_shape (classes NoisyGaussianMatrixProduct)
            [("A" +:+ "_shape", output_shape na); ("B" +:+ "_shape", output_shape nb);
             ("std" +:+ "_shape", output_shape nc)])
    with (NoisyGaussianMatrixProduct__compute_shape
            (output_shape na) (output_shape nb) (output_shape nc)) in Hbase.
  change (_compute_dtype (classes NoisyGaussianMatrixProduct) None
            [("A" +:+ "_dtype", dtype na); ("B" +:+ "_dtype", dtype nb);
             ("std" +:+ "_dtype", dtype nc)])
    with (NoisyGaussianMatrixProduct__compute_dtype (dtype na) (dtype nb) (dtype nc))
    in Hbase.
  unfold bind at 1. rewrite Hbase; clear Hbase.
  2:{ repeat constructor; eexists; (split; [reflexivity|eauto]). }
  2:{ reflexivity. }
  2:{ repeat constructor; assumption. }
  destruct (given_or (kw_output_shape kw) _) as [shp|e]; [|reflexivity].
  destruct (given_or (kw_dtype kw) _) as [dt|e]; [|reflexivity].
  cbv zeta. rewrite (read_dimension_after _ _ _ _ _ _ _ Ha).
  destruct (tuple_get (output_shape na) 1) as [k|e]; [|reflexivity].
  rewrite modify_new_node. reflexivity.
Qed.

(** X15. [NoisyGaussianMatrixProduct(A, B, std)] on three nodes, without
    [output_shape] and [dtype]: for [A : (N, K)] and [B : (M, K2)] it creates
    one node of shape [(N, M)] and of the dtype of [A], with [K] the inner
    dimension, the given [rescale], the three inputs, and the ancestors of
    the three, exactly when [K = K2] and the three dtypes agree; otherwise an
    assertion fails and the store is as before.  A shape that is not a pair
    is a ValueError.  With [output_shape] and [dtype] given, nothing is
    checked: the node gets them, and [K] is the second dimension of [A]. *)
Theorem NoisyGaussianMatrixProduct_constructor (a b c : node_id) (rescale_arg : bool)
    (kw : init_kwargs) (s : state) (na nb nc : node) :
  nodes s !! a = Some na -> nodes s !! b = Some nb -> nodes s !! c = Some nc ->
  let built shp dt k :=
    with_new_node s
      (set_rescale rescale_arg
         (set_K k (new_node NoisyGaussianMatrixProduct kw
                     [("A", a); ("B", b); ("std", c)] shp dt
                     [ancestors na; ancestors nb; ancestors nc] (length (nodes s))))) in
  (kw_output_shape kw = None -> kw_dtype kw = None ->
   forall N k M k2, output_shape na = [N; k] -> output_shape nb = [M; k2] ->
     NoisyGaussianMatrixProduct___init__ (ArgNode a) (ArgNode b) (ArgNode c) rescale_arg kw s
     = if bool_decide (k = k2 /\ dtype na = dtype nb /\ dtype na = dtype nc)
       then Some (Val (length (nodes s)), built [N; M] (dtype na) k)
       else Some (Raise AssertionError, s)) /\
  (kw_output_shape kw = None ->
   (forall N k, output_shape na <> [N; k]) \/ (forall M k, output_shape nb <> [M; k]) ->
   NoisyGaussianMatrixProduct___init__ (ArgNode a) (ArgNode b) (ArgNode c) rescale_arg kw s
   = Some (Raise (ValueError "unpack"), s)) /\
  (forall shp dt N k rest,
     kw_output_shape kw = Some shp -> kw_dtype kw = Some dt ->
     output_shape na = N :: k :: rest ->
     NoisyGaussianMatrixProduct___init__ (ArgNode a) (ArgNode b) (ArgNode c) rescale_arg kw s
     = Some (Val (length (nodes s)), built shp dt k)).
Proof.
  intros Ha Hb Hc built.
  rewrite (NoisyGaussianMatrixProduct___init___nodes _ _ _ _ _ _ _ _ _ Ha Hb Hc).
  split; [|split].
  - intros -> -> N k M k2 HA HB. rewrite HA, HB. cbn [given_or].
    unfold NoisyGaussianMatrixProduct__compute_shape, NoisyGaussianMatrixProduct__compute_dtype.
    cbn [unpack2 result_bind fst snd].
    destruct (decide (k = k2)) as [->|Hk].
    2:{ rewrite bool_decide_eq_false_2 by exact Hk. cbn.
        rewrite bool_decide_eq_false_2 by tauto. reflexivity. }
    rewrite (bool_decide_eq_true_2 (k2 = k2)) by reflexivity. cbn [py_assert result_bind].
    destruct (decide (dtype na = dtype nb)) as [Hab|Hab].
    2:{ rewrite (bool_decide_eq_false_2 (dtype na = dtype nb)) by exact Hab. cbn.
        rewrite bool_decide_eq_false_2 by tauto. reflexivity. }
    rewrite (bool_decide_eq_true_2 (dtype na = dtype nb)) by exact Hab.
    cbn [py_assert result_bind].
    destruct (decide (dtype na = dtype nc)) as [Hac|Hac].
    2:{ rewrite (bool_decide_eq_false_2 (dtype na = dtype nc)) by exact Hac. cbn.
        rewrite bool_decide_eq_false_2 by tauto. reflexivity. }
    rewrite (bool_decide_eq_true_2 (dtype na = dtype nc)) by exact Hac.
    cbn [py_assert result_bind tuple_get nth_error].
    rewrite bool_decide_eq_true_2 by tauto. reflexivity.
  - intros -> Hbad. cbn [given_or].
    unfold NoisyGaussianMatrixProduct__compute_shape.
    destruct Hbad as [Hbad|Hbad].
    + destruct (output_shape na) as [|N [|k [|x l]]]; try reflexivity.
      exfalso. apply (Hbad N k). reflexivity.
    + destruct (output_shape na) as [|N [|k [|x l]]]; try reflexivity.
      cbn [unpack2 result_bind].
      destruct (output_shape nb) as [|M [|k2 [|x l]]]; try reflexivity.
      exfalso. apply (Hbad M k2). reflexivity.
  - intros shp dt N k rest -> -> HA. rewrite HA. reflexivity.
Qed.

Lemma NoisyLatentFeatures___init___nodes (b g c : node_id) (kw : init_kwargs) (s : state)
    (nb ng nc : node) :
  nodes s !! b = Some nb -> nodes s !! g = Some ng -> nodes s !! c = Some nc ->
  NoisyLatentFeatures___init__ (ArgNode b) (ArgNode g) (ArgNode c) kw s =
    match given_or (kw_output_shape kw)
            (NoisyLatentFeatures__compute_shape
               (output_shape nb) (output_shape ng) (output_shape nc)) with
    | Raise e => Some (Raise e, s)
    | Val shp =>
        match given_or (kw_dtype kw)
                (NoisyLatentFeatures__compute_dtype (dtype nb) (dtype ng) (dtype nc)) with
        | Raise e => Some (Raise e, s)
        | Val dt =>
            let n := new_node NoisyLatentFeatures kw
                       [("B", b); ("G", g); ("std", c)] shp dt
                       [ancestors nb; ancestors ng; ancestors nc] (length (nodes s)) in
            match tuple_get (output_shape nb) 1 with
            | Val k => Some (Val (length (nodes s)), with_new_node s (set_K k n))
            | Raise e => Some (Raise e, with_new_node s n)
            end
        end
    end.
Proof.
  intros Hb Hg Hc. unfold NoisyLatentFeatures___init__.
  pose proof (base___init___nodes NoisyLatentFeatures kw
                [("B", ArgNode b); ("G", ArgNode g); ("std", ArgNode c)]
                [("B", b); ("G", g); ("std", c)] [nb; ng; nc] s) as Hbase.
  cbn [zip_with fst map] in Hbase.
  change (_compute_shape (classes NoisyLatentFeatures)
            [("B" +:+ "_shape", output_shape nb); ("G" +:+ "_shape", output_shape ng);
             ("std" +:+ "_shape", output_shape nc)])
    with (NoisyLatentFeatures__compute_shape
            (output_shape nb) (output_shape ng) (output_shape nc)) in Hbase.
  change (_compute_dtype (classes NoisyLatentFeatures) None
            [("B" +:+ "_dtype", dtype nb); ("G" +:+ "_dtype", dtype ng);
             ("std" +:+ "_dtype", dtype nc)])
    with (NoisyLatentFeatures__compute_dtype (dtype nb) (dtype ng) (dtype nc)) in Hbase.
  unfold bind at 1. rewrite Hbase; clear Hbase.
  2:{ repeat constructor; eexists; (split; [reflexivity|eauto]). }
  2:{ reflexivity. }
  2:{ repeat constructor; assumption. }
  destruct (given_or (kw_output_shape kw) _) as [shp|e]; [|reflexivity].
  destruct (given_or (kw_dtype kw) _) as [dt|e]; [|reflexivity].
  cbv zeta.
  pose proof (read_dimension_after s
                (new_node NoisyLatentFeatures kw [("B", b); ("G", g); ("std", c)] shp dt
                   [ancestors nb; ancestors ng; ancestors nc] (length (nodes s)))
                b nb 1 set_K (ret (length (nodes s))) Hb) as Hdim.
  rewrite Hdim. destruct (tuple_get (output_shape nb) 1); reflexivity.
Qed.

(** X16. [NoisyLatentFeatures(B, G, std)] on three nodes, without
    [output_shape] and [dtype]: for [B : (N, K)] and [G : (K2, M)] it creates
    one node of shape [(N, M)], with [K] the second dimension of [B], exactly
    when [K = K2] and the dtypes of [G] and [std] agree; the node takes the
    dtype of [G], and the dtype of [B] is not looked at.  Otherwise an
    assertion fails and the store is as before. *)
Theorem NoisyLatentFeatures_constructor (b g c : node_id) (kw : init_kwargs) (s : state)
    (nb ng nc : node) (N k k2 M : nat) :
  nodes s !! b = Some nb -> nodes s !! g = Some ng -> nodes s !! c = Some nc ->
  kw_output_shape kw = None -> kw_dtype kw = None ->
  output_shape nb = [N; k] -> output_shape ng = [k2; M] ->
  NoisyLatentFeatures___init__ (ArgNode b) (ArgNode g) (ArgNode c) kw s
  = if bool_decide (k = k2 /\ dtype ng = dtype nc)
    then Some (Val (length (nodes s)),
               with_new_node s
                 (set_K k (new_node NoisyLatentFeatures kw
                             [("B", b); ("G", g); ("std", c)] [N; M] (dtype ng)
                             [ancestors nb; ancestors ng; ancestors nc]
                             (length (nodes s)))))
    else Some (Raise AssertionError, s).
Proof.
  intros Hb Hg Hc Hshp Hdt HB HG.
  rewrite (NoisyLatentFeatures___init___nodes _ _ _ _ _ _ _ _ Hb Hg Hc).
  rewrite Hshp, Hdt, HB, HG. cbn [given_or].
  unfold NoisyLatentFeatures__compute_shape, NoisyLatentFeatures__compute_dtype.
  cbn [unpack2 result_bind fst snd].
  destruct (decide (k = k2)) as [->|Hk].
  2:{ rewrite bool_decide_eq_false_2 by exact Hk. cbn.
      rewrite bool_decide_eq_false_2 by tauto. reflexivity. }
  rewrite (bool_decide_eq_true_2 (k2 = k2)) by reflexivity. cbn [py_assert result_bind].
  destruct (decide (dtype ng = dtype nc)) as [Hgc|Hgc].
  2:{ rewrite (bool_decide_eq_false_2 (dtype ng = dtype nc)) by exact Hgc. cbn.
      rewrite bool_decide_eq_false_2 by tauto. reflexivity. }
  rewrite (bool_decide_eq_true_2 (dtype ng = dtype nc)) by exact Hgc.
  cbn [py_assert result_bind tuple_get nth_error].
  rewrite bool_decide_eq_true_2 by tauto. reflexivity.
Qed.

Lemma two_input___init___nodes (c : kind) (a b : node_id) (kw : init_kwargs) (s : state)
    (na nb : node) :
  c = NoisyCumulativeSum \/ c = MultiplicativeGaussianNoise ->
  nodes s !! a = Some na -> nodes s !! b = Some nb ->
  ConditionalDistribution___init__ classes c kw [("A", ArgNode a); ("std", ArgNode b)] s =
    match given_or (kw_dtype kw)
            (if bool_decide (dtype na = dtype nb) then Val (dtype na)
             else Raise AssertionError) with
    | Raise e => Some (Raise e, s)
    | Val dt =>
        Some (Val (length (nodes s)),
              with_new_node s
                (new_node c kw [("A", a); ("std", b)]
                   (match kw_output_shape kw with
                    | Some shp => shp
                    | None => output_shape na
                    end) dt [ancestors na; ancestors nb] (length (nodes s))))
    end.
Proof.
  intros Hc Ha Hb.
  pose proof (base___init___nodes c kw [("A", ArgNode a); ("std", ArgNode b)]
                [("A", a); ("std", b)] [na; nb] s) as Hbase.
  cbn [zip_with fst map] in Hbase.
  rewrite Hbase; clear Hbase.
  2:{ destruct Hc as [-> | ->];
        repeat constructor; eexists; (split; [reflexivity|eauto]). }
  2:{ destruct Hc as [-> | ->]; reflexivity. }
  2:{ repeat constructor; assumption. }
  assert (Hs : _compute_shape (classes c)
                 [("A" +:+ "_shape", output_shape na); ("std" +:+ "_shape", output_shape nb)]
               = Val (output_shape na)).
  { destruct Hc as [-> | ->]; reflexivity. }
  assert (Hd : _compute_dtype (classes c) None
                 [("A" +:+ "_dtype", dtype na); ("std" +:+ "_dtype", dtype nb)]
               = if bool_decide (dtype na = dtype nb) then Val (dtype na)
                 else Raise AssertionError).
  { destruct Hc as [-> | ->].
    - change (NoisyCumulativeSum__compute_dtype (dtype na) (dtype nb)
              = if bool_decide (dtype na = dtype nb) then Val (dtype na)
                else Raise AssertionError).
      unfold NoisyCumulativeSum__compute_dtype.
      destruct (bool_decide (dtype na = dtype nb)); reflexivity.
    - change (MultiplicativeGaussianNoise__compute_dtype (dtype na) (dtype nb)
              = if bool_decide (dtype na = dtype nb) then Val (dtype na)
                else Raise AssertionError).
      unfold MultiplicativeGaussianNoise__compute_dtype.
      destruct (bool_decide (dtype na = dtype nb)); reflexivity. }
  rewrite Hs, Hd. destruct (kw_output_shape kw); reflexivity.
Qed.

(** X17. [NoisyCumulativeSum(A, std)] and [MultiplicativeGaussianNoise(A,
    std)] on two nodes create one node of the shape of [A] (or of the given
    [output_shape]) with the two inputs and their ancestors; without a
    [dtype] keyword the dtypes of [A] and [std] must agree, else an assertion
    fails and the store is as before. *)
Theorem cumulative_sum_and_noise_constructors (a b : node_id) (kw : init_kwargs)
    (s : state) (na nb : node) :
  nodes s !! a = Some na -> nodes s !! b = Some nb ->
  let outcome c :=
    match given_or (kw_dtype kw)
            (if bool_decide (dtype na = dtype nb) then Val (dtype na)
             else Raise AssertionError) with
    | Raise e => Some (Raise e, s)
    | Val dt =>
        Some (Val (length (nodes s)),
              with_new_node s
                (new_node c kw [("A", a); ("std", b)]
                   (match kw_output_shape kw with
                    | Some shp => shp
                    | None => output_shape na
                    end) dt [ancestors na; ancestors nb] (length (nodes s))))
    end in
  NoisyCumulativeSum___init__ (ArgNode a) (ArgNode b) kw s = outcome NoisyCumulativeSum /\
  MultiplicativeGaussianNoise___init__ (ArgNode a) (ArgNode b) kw s
  = outcome MultiplicativeGaussianNoise.
Proof.
  intros Ha Hb outcome. split.
  - apply two_input___init___nodes; auto.
  - apply two_input___init___nodes; auto.
Qed.

(** X18. [GMMClustering(weights, centers, std, output_shape=shp)] on three
    nodes creates one node of the given shape whose [n_clusters] is the first
    dimension of [centers]; without a [dtype] keyword the dtypes of
    [centers] and [std] must agree and the node takes that of [centers]; the
    shape and the dtype of [weights] are not looked at.  When [centers] has
    no dimension the IndexError comes after the node has been built. *)
Theorem GMMClustering_constructor (w ce c : node_id) (kw : init_kwargs) (s : state)
    (nw nce nc : node) (shp : shape) :
  nodes s !! w = Some nw -> nodes s !! ce = Some nce -> nodes s !! c = Some nc ->
  kw_output_shape kw = Some shp ->
  GMMClustering___init__ (ArgNode w) (ArgNode ce) (ArgNode c) kw s =
    match given_or (kw_dtype kw)
            (if bool_decide (dtype nce = dtype nc) then Val (dtype nce)
             else Raise AssertionError) with
    | Raise e => Some (Raise e, s)
    | Val dt =>
        let n := new_node GMMClustering kw
                   [("weights", w); ("centers", ce); ("std", c)] shp dt
                   [ancestors nw; ancestors nce; ancestors nc] (length (nodes s)) in
        match output_shape nce with
        | k :: _ => Some (Val (length (nodes s)), with_new_node s (set_n_clusters k n))
        | [] => Some (Raise IndexError, with_new_node s n)
        end
    end.
Proof.
  intros Hw Hce Hc Hshp. unfold GMMClustering___init__.
  pose proof (base___init___nodes GMMClustering kw
                [("weights", ArgNode w); ("centers", ArgNode ce); ("std", ArgNode c)]
                [("weights", w); ("centers", ce); ("std", c)] [nw; nce; nc] s) as Hbase.
  cbn [zip_with fst map] in Hbase. rewrite Hshp in Hbase. cbn [given_or] in Hbase.
  change (_compute_dtype (classes GMMClustering) None
            [("weights" +:+ "_dtype", dtype nw); ("centers" +:+ "_dtype", dtype nce);
             ("std" +:+ "_dtype", dtype nc)])
    with (GMMClustering__compute_dtype (dtype nw) (dtype nce) (dtype nc)) in Hbase.
  unfold bind at 1. rewrite Hbase; clear Hbase.
  2:{ repeat constructor; eexists; (split; [reflexivity|eauto]). }
  2:{ reflexivity. }
  2:{ repeat constructor; assumption. }
  assert (Hd : GMMClustering__compute_dtype (dtype nw) (dtype nce) (dtype nc)
               = if bool_decide (dtype nce = dtype nc) then Val (dtype nce)
                 else Raise AssertionError).
  { unfold GMMClustering__compute_dtype.
    destruct (bool_decide (dtype nce = dtype nc)); reflexivity. }
  rewrite Hd.
  destruct (given_or (kw_dtype kw) _) as [dt|e]; [|reflexivity].
  cbv zeta.
  pose proof (read_dimension_after s
                (new_node GMMClustering kw [("weights", w); ("centers", ce); ("std", c)]
                   shp dt [ancestors nw; ancestors nce; ancestors nc] (length (nodes s)))
                ce nce 0 set_n_clusters (ret (length (nodes s))) Hce) as Hdim.
  rewrite Hdim. unfold tuple_get. destruct (output_shape nce); reflexivity.
Qed.

End subclass_constructors.


Section wrapping.
Context `{Backend}.

(** The node that wraps the constant given for the input [input_name] of
    the node named [nm]. *)
Lemma wrap_constant (nm input_name : string) (v : raw) (a : array) (s : state) :
  np_asarray v (value_dtype v) = Val a ->
  FlatDistribution___init__ v true (named (nm +:+ "_" +:+ input_name +:+ "_fixed")) s
  = Some (Val (length (nodes s)),
          mk_state (nodes s ++ [wrapped_constant nm input_name v a
                                  (length (nodes s)) (length (qdists s))])%list
                   (qdists s ++ [ObservedQDistribution a])%list (rng s)).
Proof.
  intros Ha. rewrite FlatDistribution___init___cases, Ha. reflexivity.
Qed.

(** X19. [NoisyCumulativeSum] and [MultiplicativeGaussianNoise] given two
    constants that numpy converts, of one dtype: each constant is wrapped in
    a new FlatDistribution node named [<name>_<input>_fixed] with the
    observed posterior of the constant attached, and the node is built on
    the two wrappers, with the shape of the constant [A]. *)
Theorem constants_are_wrapped (c : kind) (va vs : raw) (kw : init_kwargs) (s : state)
    (aa a_s : array) :
  c = NoisyCumulativeSum \/ c = MultiplicativeGaussianNoise ->
  np_asarray va (value_dtype va) = Val aa ->
  np_asarray vs (value_dtype vs) = Val a_s ->
  value_dtype va = value_dtype vs ->
  kw_output_shape kw = None -> kw_dtype kw = None ->
  let nm := resolve_name c (kw_name kw) (kw_uuid kw) in
  let l := length (nodes s) in
  let ql := length (qdists s) in
  ConditionalDistribution___init__ classes c kw [("A", ArgRaw va); ("std", ArgRaw vs)] s
  = Some (Val (S (S l)),
          mk_state
            (nodes s ++
             [wrapped_constant nm "A" va aa l ql;
              wrapped_constant nm "std" vs a_s (S l) (S ql);
              new_node c kw [("A", l); ("std", S l)] (np_shape aa) (value_dtype va)
                [{[l]} ∪ ⋃ []; {[S l]} ∪ ⋃ []] (S (S l))])%list
            (qdists s ++ [ObservedQDistribution aa; ObservedQDistribution a_s])%list
            (rng s)).
Proof.
  intros Hc Ha Hs Hdt Hshp Hkdt nm l ql.
  unfold ConditionalDistribution___init__. fold nm.
  assert (Hin : inputs (classes c) = ["A"; "std"]) by (destruct Hc as [-> | ->]; reflexivity).
  rewrite Hin. cbn [wire_inputs kw_get String.eqb Ascii.eqb Bool.eqb].
  set (s1 := mk_state (nodes s ++ [wrapped_constant nm "A" va aa l ql])%list
                      (qdists s ++ [ObservedQDistribution aa])%list (rng s)).
  set (s2 := mk_state (nodes s1 ++ [wrapped_constant nm "std" vs a_s (S l) (S ql)])%list
                      (qdists s1 ++ [ObservedQDistribution a_s])%list (rng s1)).
  assert (H1 : FlatDistribution___init__ va true (named (nm +:+ "_" +:+ "A" +:+ "_fixed")) s
               = Some (Val l, s1)) by (apply wrap_constant; exact Ha).
  assert (H2 : FlatDistribution___init__ vs true (named (nm +:+ "_" +:+ "std" +:+ "_fixed")) s1
               = Some (Val (S l), s2)).
  { rewrite (wrap_constant nm "std" vs a_s s1 Hs). unfold s2, s1. cbn [nodes qdists rng].
    rewrite !length_app. cbn [length]. rewrite !Nat.add_1_r. reflexivity. }
  unfold bind at 1. unfold bind at 1. rewrite H1.
  cbn [dict_set]. unfold bind at 1. rewrite H2. cbn [dict_set String.eqb Ascii.eqb Bool.eqb ret].
  rewrite (init_after_inputs_cases c (classes c) None None (kw_output_shape kw) (kw_dtype kw)
             (kw_minibatch_scale_factor kw) nm [("A", l); ("std", S l)]
             [wrapped_constant nm "A" va aa l ql; wrapped_constant nm "std" vs a_s (S l) (S ql)]
             s2).
  2:{ constructor; [|constructor; [|constructor]]; cbn [snd nodes s2 s1].
      - apply lookup_app_l_Some. apply lookup_last.
      - replace (S l) with (length (nodes s ++ [wrapped_constant nm "A" va aa l ql])%list)
          by (rewrite length_app; cbn; unfold l; lia).
        apply lookup_last. }
  rewrite Hshp, Hkdt. cbn [given_or zip_with fst map].
  assert (Hcs : _compute_shape (classes c)
                  [("A" +:+ "_shape", output_shape (wrapped_constant nm "A" va aa l ql));
                   ("std" +:+ "_shape",
                    output_shape (wrapped_constant nm "std" vs a_s (S l) (S ql)))]
                = Val (np_shape aa)).
  { destruct Hc as [-> | ->]; reflexivity. }
  assert (Hcd : _compute_dtype (classes c) None
                  [("A" +:+ "_dtype", dtype (wrapped_constant nm "A" va aa l ql));
                   ("std" +:+ "_dtype",
                    dtype (wrapped_constant nm "std" vs a_s (S l) (S ql)))]
                = Val (value_dtype va)).
  { assert (Hb : bool_decide (value_dtype va = value_dtype vs) = true)
      by (apply bool_decide_eq_true_2; exact Hdt).
    destruct Hc as [-> | ->].
    - change (NoisyCumulativeSum__compute_dtype (value_dtype va) (value_dtype vs)
              = Val (value_dtype va)).
      unfold NoisyCumulativeSum__compute_dtype. rewrite Hb. reflexivity.
    - change (MultiplicativeGaussianNoise__compute_dtype (value_dtype va) (value_dtype vs)
              = Val (value_dtype va)).
      unfold MultiplicativeGaussianNoise__compute_dtype. rewrite Hb. reflexivity. }
  rewrite Hcs, Hcd. unfold with_new_node, s2, s1. cbn [nodes qdists rng].
  rewrite !length_app. cbn [length]. rewrite !Nat.add_1_r.
  rewrite <- !app_assoc. reflexivity.
Qed.

End wrapping.


Section noise.
Context `{Backend}.

Lemma draw_then_state {A X : Type} (d : rng_state -> result A * rng_state)
    (k : A -> result X) (g : rng_state) :
  snd (draw_then d k g) = snd (d g).
Proof. unfold draw_then. destruct (d g). reflexivity. Qed.

Lemma draw_then_raise {A X : Type} (d : rng_state -> result A * rng_state)
    (k : A -> result X) (g : rng_state) (e : exn) :
  fst (d g) = Raise e -> fst (draw_then d k g) = Raise e.
Proof. unfold draw_then. destruct (d g) as [r g']. cbn. intros ->. reflexivity. Qed.

Lemma draw_noise_state (n : node) (g : rng_state) :
  snd (draw_noise n g) = snd (np_random_randn (output_shape n) g).
Proof. unfold draw_noise. apply draw_then_state. Qed.

(** X20. [_sample] of the four Gaussian-noise classes draws the noise
    first: the generator is advanced by one [randn] of the node's
    [output_shape] and by nothing else, whatever the inputs are and whether
    or not the computation that follows raises; when the draw, or its
    conversion to the node's dtype, raises, that exception is the outcome.
    [GMMClustering._sample] draws the same noise first; when the steps up to
    reading [n_clusters] succeed it makes one further draw, the cluster
    choice.  [FlatDistribution._sample] does not use the generator. *)
Theorem noise_is_drawn_first (n : node) (g : rng_state) :
  (forall A B std,
     snd (NoisyGaussianMatrixProduct__sample n A B std g)
     = snd (np_random_randn (output_shape n) g) /\
     forall e, fst (draw_noise n g) = Raise e ->
               fst (NoisyGaussianMatrixProduct__sample n A B std g) = Raise e) /\
  (forall A std,
     snd (NoisyCumulativeSum__sample n A std g)
     = snd (np_random_randn (output_shape n) g) /\
     forall e, fst (draw_noise n g) = Raise e ->
               fst (NoisyCumulativeSum__sample n A std g) = Raise e) /\
  (forall B G std,
     snd (NoisyLatentFeatures__sample n B G std g)
     = snd (np_random_randn (output_shape n) g) /\
     forall e, fst (draw_noise n g) = Raise e ->
               fst (NoisyLatentFeatures__sample n B G std g) = Raise e) /\
  (forall A std,
     snd (MultiplicativeGaussianNoise__sample n A std g)
     = snd (np_random_randn (output_shape n) g) /\
     forall e, fst (draw_noise n g) = Raise e ->
               fst (MultiplicativeGaussianNoise__sample n A std g) = Raise e) /\
  (forall weights centers std,
     (forall e, fst (draw_noise n g) = Raise e ->
        GMMClustering__sample n weights centers std g
        = (Raise e, snd (np_random_randn (output_shape n) g))) /\
     (forall z s_ noise N D k,
        fst (draw_noise n g) = Val z -> std = Some s_ ->
        np_binop Mul z s_ = Val noise -> output_shape n = [N; D] ->
        n_clusters n = Some k ->
        snd (GMMClustering__sample n weights centers std g)
        = snd (np_random_choice (np_arange k) N weights
                 (snd (np_random_randn (output_shape n) g))))) /\
  (forall kws, snd (_sample FlatDistribution_class n kws g) = g).
Proof.
  split; [|split; [|split; [|split; [|split]]]].
  - intros A B std. split.
    + unfold NoisyGaussianMatrixProduct__sample. rewrite draw_then_state.
      apply draw_noise_state.
    + intros e He. apply draw_then_raise. exact He.
  - intros A std. split.
    + unfold NoisyCumulativeSum__sample. rewrite draw_then_state. apply draw_noise_state.
    + intros e He. apply draw_then_raise. exact He.
  - intros B G std. split.
    + unfold NoisyLatentFeatures__sample. rewrite draw_then_state. apply draw_noise_state.
    + intros e He. apply draw_then_raise. exact He.
  - intros A std. split.
    + unfold MultiplicativeGaussianNoise__sample. rewrite draw_then_state.
      apply draw_noise_state.
    + intros e He. apply draw_then_raise. exact He.
  - intros weights centers std. split.
    + intros e He. unfold GMMClustering__sample.
      rewrite <- draw_noise_state. destruct (draw_noise n g) as [r g1].
      cbn in He. subst r. reflexivity.
    + intros z s_ noise N D k Hz -> Hnoise Hshape Hk. unfold GMMClustering__sample.
      rewrite <- draw_noise_state. destruct (draw_noise n g) as [r g1].
      cbn in Hz. subst r. cbn [result_bind operand]. rewrite Hnoise. cbn [result_bind].
      rewrite Hshape, Hk. cbn [unpack2 getattr result_bind fst snd].
      apply draw_then_state.
  - intros kws. reflexivity.
Qed.

End noise.

Section termination.
Context `{Backend}.
Variable methods : kind -> node_class.

Lemma refines_bind {A B : Type} (m m' : M A) (f f' : A -> M B) :
  refines m m' -> (forall a, refines (f a) (f' a)) -> refines (bind m f) (bind m' f').
Proof.
  intros Hm Hf s x Hx. unfold bind in *.
  destruct (m s) as [[[a|e] s1]|] eqn:E; [| |discriminate].
  - rewrite (Hm _ _ E). apply Hf. exact Hx.
  - rewrite (Hm _ _ E). exact Hx.
Qed.

Lemma refines_refl {A : Type} (m : M A) : refines m m.
Proof. intros s x Hx. exact Hx. Qed.

Lemma refines_for_each {A B : Type} (f f' : A -> M B) (l : list A) :
  (forall a, refines (f a) (f' a)) -> refines (for_each f l) (for_each f' l).
Proof.
  intros Hf. induction l as [|a l IH]; [apply refines_refl|].
  cbn [for_each]. apply refines_bind; [apply Hf|]. intros b.
  apply refines_bind; [exact IH|]. intros bs. apply refines_refl.
Qed.

Lemma sample_more_fuel (seed : Z) (fuel : nat) :
  forall self,
    refines (ConditionalDistribution_sample methods fuel self seed)
            (ConditionalDistribution_sample methods (S fuel) self seed).
Proof.
  induction fuel as [|fuel IH]; intros self; [intros s x Hx; discriminate|].
  cbn [ConditionalDistribution_sample].
  apply refines_bind; [apply refines_refl|]. intros n.
  apply refines_bind; [|intros; apply refines_refl].
  destruct (bool_decide _); [|apply refines_refl].
  apply refines_bind; [|intros; apply refines_refl].
  apply refines_for_each. intros [nm p].
  apply refines_bind; [apply IH|]. intros; apply refines_refl.
Qed.

Lemma sample_fuel_le (seed : Z) (fuel fuel' : nat) (self : node_id) :
  fuel <= fuel' ->
  refines (ConditionalDistribution_sample methods fuel self seed)
          (ConditionalDistribution_sample methods fuel' self seed).
Proof.
  induction 1 as [|fuel' _ IH]; [apply refines_refl|].
  intros s x Hx. apply sample_more_fuel. apply IH. exact Hx.
Qed.

(** X21. The recursion of [sample] through the parents ends: on a store that
    satisfies the graph invariant, [sample] on an existing node finishes,
    with a value or an exception, and with the same outcome for every
    recursion budget larger than the node's index. *)
Theorem sample_terminates (self : node_id) (seed : Z) (s : state) :
  graph_ok (nodes s) ->
  self < length (nodes s) ->
  exists r s',
    forall fuel, self < fuel ->
      ConditionalDistribution_sample methods fuel self seed s = Some (r, s').
Proof.
  intros Hok Hlt.
  destruct (sample_total methods seed (S self) self s Hok (Nat.lt_succ_diag_r _) Hlt)
    as (r & s' & Hr & _).
  exists r, s'. intros fuel Hf.
  apply (sample_fuel_le seed (S self) fuel self); [lia|exact Hr].
Qed.

End termination.


Section omitted_inputs.
Context `{Backend}.

Lemma _sample_without_std (c : kind) (n : node) (v : option array) (g : rng_state) :
  c = NoisyCumulativeSum \/ c = MultiplicativeGaussianNoise ->
  exists e g', _sample (classes c) n [("A", v)] g = (Raise e, g').
Proof. intros [-> | ->]; do 2 eexists; reflexivity. Qed.

Lemma sample_keeps_lacks_std (c : kind) (a self : node_id) (seed : Z) (fuel : nat) :
  c = NoisyCumulativeSum \/ c = MultiplicativeGaussianNoise ->
  forall j,
    preserves (on_nodes (node_has self (lacks_std c a)))
              (ConditionalDistribution_sample classes fuel j seed).
Proof.
  intros Hc. induction fuel as [|fuel IH]; intros j.
  - cbn [ConditionalDistribution_sample]. pres.
  - intros s r s' HI Hr.
    assert (Hpar : forall ins,
              preserves (on_nodes (node_has self (lacks_std c a)))
                        (sample_parents classes fuel seed ins)).
    { intros ins. unfold sample_parents. apply preserves_for_each.
      intros [nm p] _. pres. apply IH. }
    destruct (sample_Some_node classes _ _ _ _ _ _ Hr) as [n Hn].
    destruct (decide (_sampled_value_seed n = Some seed)) as [Hs|Hs].
    { rewrite (sample_cached classes _ _ _ _ _ Hn Hs) in Hr. inversion Hr; subst s'.
      exact HI. }
    destruct r as [v|e].
    + destruct (sample_recomputed classes _ _ _ _ _ _ _ Hn Hs Hr)
        as [(e & He)|(ins & sa & na & v0 & g & Hins & Hna & Hsamp & _ & ->)];
        [discriminate He|].
      pose proof (Hpar _ _ _ _ HI Hins) as HIa.
      destruct (decide (j = self)) as [->|Hne].
      * exfalso. destruct HI as (m & Hm & _ & Hi1 & _).
        rewrite Hn in Hm. inversion Hm; subst m. clear Hm.
        destruct HIa as (m' & Hm' & Hc2 & _).
        rewrite Hna in Hm'. inversion Hm'; subst m'. clear Hm'.
        change (cls (set_sampled_value_seed (Some seed) na)) with (cls na) in Hsamp.
        rewrite Hc2 in Hsamp. clear Hc2.
        rewrite Hi1 in Hins.
        pose proof (sample_parents_marked classes _ _ _ _ _ _ Hins) as HF.
        inversion HF as [|kp kv l l' [Hk _] HF']; subst. inversion HF'; subst.
        destruct kv as [k v1]. cbn in Hk. subst k.
        destruct (_sample_without_std c (set_sampled_value_seed (Some seed) na) v1
                    (np_random_seed (local_seed seed n)) Hc) as (e & g' & He).
        rewrite He in Hsamp. discriminate Hsamp.
      * unfold on_nodes. cbn [nodes]. apply node_has_insert_ne; [exact Hne|exact HIa].
    + destruct (sample_raised classes _ _ _ _ _ _ _ Hn Hs Hr)
        as [Hins|(ins & sa & na & g & Hins & Hna & Hsamp & ->)].
      * exact (Hpar _ _ _ _ HI Hins).
      * pose proof (Hpar _ _ _ _ HI Hins) as HIa.
        unfold on_nodes. cbn [nodes].
        apply (node_has_insert _ _ (set_sampled_value_seed (Some seed)));
          [intros m Hm; exact Hm|exact Hna|exact HIa].
Qed.

Lemma run_keeps_lacks_std (c : kind) (a self : node_id) (x : call) (s s' : state) :
  c = NoisyCumulativeSum \/ c = MultiplicativeGaussianNoise ->
  run x s = Some s' ->
  node_has self (lacks_std c a) (nodes s) -> node_has self (lacks_std c a) (nodes s').
Proof.
  intros Hc.
  set (J := node_has self (lacks_std c a)).
  assert (Hsa : forall A (m : M A), preserves (on_nodes J) m ->
            state_after m s = Some s' -> J (nodes s) -> J (nodes s')).
  { intros A m Hm Hs HJ. unfold state_after in Hs.
    destruct (m s) as [[r s0]|] eqn:E; [|discriminate].
    inversion Hs; subst. eapply Hm; eauto. }
  assert (Hset : forall (f : node -> node) i,
            (forall m, lacks_std c a m -> lacks_std c a (f m)) ->
            preserves (on_nodes J) (modify_node i f)).
  { intros f i Hf. apply preserves_modify_node. intros l n Hn HJ.
    apply (node_has_insert _ _ f); assumption. }
  assert (J_attach : forall i q, preserves (on_nodes J) (ConditionalDistribution_attach_q i q)).
  { intros i q. apply preserves_attach_q. intros q' l n Hn HJ.
    apply (node_has_insert _ _ (set_q_distribution q')); [intros m Hm; exact Hm| |]; assumption. }
  assert (J_alloc : forall (l : list node) k nm msf ins shp dt anc pv,
            Forall2 (fun kp b => exists pn, l !! (snd kp) = Some pn /\ b = ancestors pn) ins anc ->
            J l ->
            J (l ++ [mk_node k nm msf ins shp dt ({[length l]} ∪ ⋃ anc)
                             None None None pv None None None])%list).
  { intros. apply node_has_app. assumption. }
  assert (Hdq : forall k n, preserves (on_nodes J) (default_q (classes k) n)).
  { intros [] n; cbn; apply preserves_raise. }
  assert (Hbase : forall i,
            preserves (on_nodes J) (ConditionalDistribution_elbo_term classes i)).
  { intros i. apply preserves_base_elbo_term; auto. }
  destruct x; cbn [run]; apply Hsa.
  - apply preserves_FlatDistribution___init__; auto.
  - unfold NoisyGaussianMatrixProduct___init__. pres;
      first [apply preserves_base___init__; auto | apply preserves_arg_output_shape
            | apply Hset; intros m Hm; exact Hm].
  - apply preserves_base___init__; auto.
  - unfold NoisyLatentFeatures___init__. pres;
      first [apply preserves_base___init__; auto | apply preserves_arg_output_shape
            | apply Hset; intros m Hm; exact Hm].
  - unfold GMMClustering___init__. pres;
      first [apply preserves_base___init__; auto | apply preserves_arg_output_shape
            | apply Hset; intros m Hm; exact Hm].
  - apply preserves_base___init__; auto.
  - pres.
  - apply sample_keeps_lacks_std. exact Hc.
  - unfold elbo_term. pres. rename a0 into n.
    destruct (cls n);
      unfold NoisyGaussianMatrixProduct_elbo_term, NoisyLatentFeatures_elbo_term,
             GMMClustering_elbo_term;
      try (destruct symmetry_correction_hack; pres; apply Hbase).
    all: pres; [apply Hbase|].
    all: destruct a0 as [E Hn];
      destruct (match symmetry_correction_hack with Some b => b | None => true end);
      pres.
  - apply preserves_q_distribution; auto.
  - apply J_attach.
  - apply preserves_observe; auto.
  - apply preserves_init_q_true; auto.
Qed.

Lemma run_all_keeps_lacks_std (c : kind) (a self : node_id) (prog : list call) :
  c = NoisyCumulativeSum \/ c = MultiplicativeGaussianNoise ->
  forall s s', run_all prog s = Some s' ->
    node_has self (lacks_std c a) (nodes s) -> node_has self (lacks_std c a) (nodes s').
Proof.
  intros Hc. induction prog as [|x prog IH]; intros s s' Hr HJ; cbn in Hr.
  - inversion Hr; subst. exact HJ.
  - destruct (run x s) as [s1|] eqn:E; [|discriminate].
    eapply IH; [exact Hr|]. eapply run_keeps_lacks_std; eauto.
Qed.

(** X22. [NoisyCumulativeSum] and [MultiplicativeGaussianNoise] built with
    [std=None] raise a TypeError at construction, from [_compute_shape] or
    [_compute_dtype], unless both [output_shape] and [dtype] are given.  In
    that case the input is left out of [input_nodes] and a node with the
    single input [A] is created.  The first [sample] on the new node raises
    (on a store with the graph invariant it terminates, with an exception).
    Whatever program runs afterwards, [sample] on that node never returns an
    array: it raises, or it returns [None], the cache that was never
    filled (this happens when the marker already equals the seed, after a
    call with that seed has failed in [_sample]). *)
Theorem omitted_input_is_an_error (c : kind) (a : node_id) (kw : init_kwargs)
    (s : state) (na : node) :
  c = NoisyCumulativeSum \/ c = MultiplicativeGaussianNoise ->
  nodes s !! a = Some na ->
  (kw_output_shape kw = None \/ kw_dtype kw = None ->
   exists msg,
     ConditionalDistribution___init__ classes c kw [("A", ArgNode a); ("std", ArgNone)] s
     = Some (Raise (TypeError msg), s)) /\
  (forall shp dt, kw_output_shape kw = Some shp -> kw_dtype kw = Some dt ->
     ConditionalDistribution___init__ classes c kw [("A", ArgNode a); ("std", ArgNone)] s
     = Some (Val (length (nodes s)),
             with_new_node s (new_node c kw [("A", a)] shp dt [ancestors na]
                                (length (nodes s)))) /\
     (forall fuel seed r s1,
        sample fuel (length (nodes s)) seed
          (with_new_node s (new_node c kw [("A", a)] shp dt [ancestors na]
                              (length (nodes s)))) = Some (r, s1) ->
        exists e, r = Raise e) /\
     (graph_ok (nodes s) ->
      forall fuel seed, length (nodes s) < fuel ->
        exists e s1,
          sample fuel (length (nodes s)) seed
            (with_new_node s (new_node c kw [("A", a)] shp dt [ancestors na]
                                (length (nodes s)))) = Some (Raise e, s1)) /\
     (forall prog s2 fuel seed r s3,
        run_all prog (with_new_node s (new_node c kw [("A", a)] shp dt [ancestors na]
                                         (length (nodes s)))) = Some s2 ->
        sample fuel (length (nodes s)) seed s2 = Some (r, s3) ->
        r = Val None \/ exists e, r = Raise e)).
Proof.
  intros Hc Ha.
  pose proof (base___init___nodes c kw [("A", ArgNode a); ("std", ArgNone)]
                [("A", a)] [na] s) as Hbase.
  cbn [zip_with fst map] in Hbase.
  assert (Hs : exists msg, _compute_shape (classes c) [("A" +:+ "_shape", output_shape na)]
                           = Raise (TypeError msg)).
  { destruct Hc as [-> | ->]; eexists; reflexivity. }
  assert (Hd : exists msg, _compute_dtype (classes c) None [("A" +:+ "_dtype", dtype na)]
                           = Raise (TypeError msg)).
  { destruct Hc as [-> | ->]; eexists; reflexivity. }
  destruct Hs as [msg1 Hs], Hd as [msg2 Hd]. rewrite Hs, Hd in Hbase.
  rewrite Hbase; clear Hbase.
  2:{ destruct Hc as [-> | ->]; constructor;
        [left; eexists; (split; [reflexivity|eauto])|constructor; [right; reflexivity|constructor]
        |left; eexists; (split; [reflexivity|eauto])|constructor; [right; reflexivity|constructor]]. }
  2:{ destruct Hc as [-> | ->]; reflexivity. }
  2:{ repeat constructor; assumption. }
  split.
  - intros [Hnone|Hnone]; rewrite Hnone; cbn [given_or]; [eauto|].
    destruct (kw_output_shape kw); cbn [given_or]; eauto.
  - intros shp dt -> ->. cbn [given_or]. split; [reflexivity|].
    set (n := new_node c kw [("A", a)] shp dt [ancestors na] (length (nodes s))) in *.
    assert (Hn : nodes (with_new_node s n) !! length (nodes s) = Some n) by apply lookup_last.
    assert (H0 : node_has (length (nodes s)) (lacks_std c a) (nodes (with_new_node s n))).
    { exists n. split; [exact Hn|]. repeat split. }
    assert (Hlater : forall s2 fuel seed r s3,
              node_has (length (nodes s)) (lacks_std c a) (nodes s2) ->
              sample fuel (length (nodes s)) seed s2 = Some (r, s3) ->
              r = Val None \/ exists e, r = Raise e).
    { intros s2 fuel seed r s3 H2 Hr. destruct r as [v|e]; [left|right; eauto].
      pose proof (sample_keeps_lacks_std c a (length (nodes s)) seed fuel Hc
                    (length (nodes s)) s2 (Val v) s3 H2 Hr) as (m & Hm & _ & _ & Hv).
      destruct (sample_post classes _ _ _ _ _ _ Hr) as (n1 & Hn1 & _ & Hv1).
      rewrite Hm in Hn1. inversion Hn1; subst n1. rewrite Hv in Hv1. rewrite Hv1.
      reflexivity. }
    assert (Hfirst : forall fuel seed r s1,
              sample fuel (length (nodes s)) seed (with_new_node s n) = Some (r, s1) ->
              exists e, r = Raise e).
    { intros fuel seed r s1 Hr. destruct r as [v|e]; [exfalso|eauto].
      destruct fuel as [|fuel]; [discriminate Hr|].
      destruct (Hlater _ _ _ _ _ H0 Hr) as [Hv|(e & He)]; [|discriminate He].
      unfold sample in Hr.
      destruct (sample_recomputed classes _ _ _ _ _ _ _ Hn (ltac:(discriminate)) Hr)
        as [(e & He)|(ins & sa & n1 & v0 & g & _ & _ & _ & Hv0 & _)]; [discriminate He|].
      rewrite Hv0 in Hv. discriminate Hv. }
    split; [exact Hfirst|]. split.
    + intros Hok fuel seed Hfuel.
      assert (Hok0 : graph_ok (nodes (with_new_node s n))).
      { apply graph_ok_alloc; [|exact Hok].
        constructor; [|constructor]. exists na. split; [exact Ha|reflexivity]. }
      destruct (sample_total classes seed fuel (length (nodes s)) (with_new_node s n)
                  Hok0 Hfuel) as (r & s1 & Hr & _).
      { cbn [with_new_node nodes]. rewrite length_app. cbn. lia. }
      destruct (Hfirst _ _ _ _ Hr) as [e ->]. exists e, s1. exact Hr.
    + intros prog s2 fuel seed r s3 Hrun Hr.
      apply (Hlater s2 fuel seed r s3); [|exact Hr].
      exact (run_all_keeps_lacks_std c a (length (nodes s)) prog Hc _ _ Hrun H0).
Qed.

End omitted_inputs.


Section salt.
Context `{Backend}.

Lemma _sample_same_law (n1 n2 : node) (sd : option Z) (ins : kwargs (option array))
    (g : rng_state) :
  same_law n1 n2 ->
  _sample (classes (cls n1)) (set_sampled_value_seed sd n1) ins g
  = _sample (classes (cls n2)) (set_sampled_value_seed sd n2) ins g.
Proof.
  intros (Hc & _ & _ & Hs & Hd & Hv & HK & Hr & Hn).
  destruct n1 as [c1 nm1 m1 i1 o1 d1 a1 v1 sd1 q1 va1 k1 r1 nc1].
  destruct n2 as [c2 nm2 m2 i2 o2 d2 a2 v2 sd2 q2 va2 k2 r2 nc2].
  cbn in *. subst. destruct c2; reflexivity.
Qed.

Lemma sample_parents_cached (fuel : nat) (seed : Z) :
  forall (l : kwargs node_id) (ins : kwargs (option array)) s r sa,
    Forall2 (fun (kp : string * node_id) (kv : string * option array) =>
               fst kv = fst kp /\
               node_has (snd kp) (sampled_with seed (snd kv)) (nodes s)) l ins ->
    sample_parents classes fuel seed l s = Some (r, sa) ->
    r = Val ins /\ sa = s.
Proof.
  induction l as [|[nm p] l IH]; intros ins s r sa HF Hr.
  - inversion HF; subst. inversion Hr. auto.
  - inversion HF as [|? [k v] ? ins' (Hk & m & Hm & Hs & Hv) HF']; subst.
    cbn in Hk, Hm, Hs, Hv. subst k.
    unfold sample_parents in Hr. cbn [for_each] in Hr.
    destruct fuel as [|fuel].
    { unfold bind at 1 in Hr. unfold bind at 1 in Hr. discriminate. }
    pose proof (sample_cached classes fuel p seed s m Hm Hs) as Hc.
    rewrite (bind_eq_Val _ _ _ _ _
               (bind_eq_Val _ (fun v0 => ret (nm, v0)) _ _ _ Hc
                : (v0 <- ConditionalDistribution_sample classes (S fuel) p seed ;;
                   ret (nm, v0)) s = Some (Val (nm, _sampled_value m), s))) in Hr.
    apply bind_Some in Hr as [(bs & s2 & Hbs & Hret)|(e & Hbs & ->)].
    + destruct (IH _ _ _ _ HF' Hbs) as [[= ->] ->]. inversion Hret. subst. auto.
    + destruct (IH _ _ _ _ HF' Hbs) as [? _]. discriminate.
Qed.

(** X23. The generator of [sample] is seeded from the seed and the hash of
    the node's name alone.  So two distinct nodes with one name, one class,
    the same inputs and the same attributes do not get independent draws:
    sampled one after the other under the same seed, they return the same
    value. *)
Theorem same_name_same_draw (i j : node_id) (seed : Z) (fuel fuel' : nat)
    (s s1 s2 : state) (ni nj : node) (vi vj : option array) :
  graph_ok (nodes s) ->
  nodes s !! i = Some ni ->
  nodes s !! j = Some nj ->
  i <> j ->
  same_law ni nj ->
  _sampled_value_seed ni <> Some seed ->
  _sampled_value_seed nj <> Some seed ->
  sample (S fuel) i seed s = Some (Val vi, s1) ->
  sample (S fuel') j seed s1 = Some (Val vj, s2) ->
  vi = vj.
Proof.
  intros Hok Hi Hj Hne Hlaw Hsi Hsj Hri Hrj. unfold sample in *.
  destruct Hlaw as (Hc & Hname & Hins & Hrest).
  assert (Hnotin : j ∉ ancestors ni).
  { intros Hin.
    destruct (closed_at_elem _ _ _ _ (proj2 Hok _ _ Hi) Hin)
      as [->|(k & p & pn & Hkp & Hpn & Hjp)]; [congruence|].
    destruct (ancestors_older _ _ _ _ Hok Hpn Hjp) as [Hle _].
    rewrite Hins in Hkp.
    pose proof (proj1 Hok _ _ Hj) as HF. rewrite Forall_forall in HF.
    specialize (HF (k, p) Hkp). cbn in HF. lia. }
  destruct (sample_frame classes _ _ _ _ _ _ _ Hok Hi Hri) as (Hok1 & _ & Hfr).
  assert (Hj1 : nodes s1 !! j = Some nj) by (rewrite Hfr; auto).
  destruct (sample_recomputed classes _ _ _ _ _ _ _ Hi Hsi Hri)
    as [(e & ?)|(ins & sa & na & v0 & g & Hpi & Hna & Hsamp & Hv & Hs1)]; [discriminate|].
  pose proof (proj1 Hok _ _ Hi) as Hold.
  destruct (sample_parents_frame classes i _ _ _ _ _ _ Hok Hold Hpi) as [_ Hfra].
  rewrite Hfra in Hna by lia. rewrite Hi in Hna. inversion Hna; subst na.
  assert (Hmarked : Forall2 (fun (kp : string * node_id) (kv : string * option array) =>
                      fst kv = fst kp /\
                      node_has (snd kp) (sampled_with seed (snd kv)) (nodes s1))
                    (input_nodes ni) ins).
  { pose proof (sample_parents_marked classes _ _ _ _ _ _ Hpi) as HF.
    rewrite Hs1. cbn [nodes]. clear - HF Hold.
    induction HF as [|[k p] kv l l' [Hk Hm] HF IH]; constructor.
    - split; [exact Hk|]. inversion Hold; subst. cbn in *.
      apply node_has_insert_ne; [lia|exact Hm].
    - apply IH. inversion Hold; auto. }
  destruct (sample_recomputed classes _ _ _ _ _ _ _ Hj1 Hsj Hrj)
    as [(e & ?)|(ins' & sa' & na' & v0' & g' & Hpj & Hna' & Hsamp' & Hv' & _)];
    [discriminate|].
  rewrite <- Hins in Hpj.
  destruct (sample_parents_cached _ _ _ _ _ _ _ Hmarked Hpj) as [[= ->] ->].
  rewrite Hj1 in Hna'. inversion Hna'; subst na'.
  assert (Hseed : local_seed seed nj = local_seed seed ni).
  { unfold local_seed. rewrite Hname. reflexivity. }
  rewrite Hseed in Hsamp'.
  rewrite <- (_sample_same_law ni nj (Some seed) ins) in Hsamp'.
  2:{ repeat split; tauto. }
  rewrite Hsamp in Hsamp'. inversion Hsamp'. congruence.
Qed.

End salt.


Section mixture.
Context `{Backend}.

Lemma logp_loop_cons (result_ weights std : array) (i : nat) (center : array)
    (rest : list array) (acc : option array) :
  GMMClustering_logp_loop result_ weights std i (center :: rest) acc
  = (cl <~ cluster_logps result_ weights std i center ;;
     total <~ add_cluster acc cl ;;
     GMMClustering_logp_loop result_ weights std (S i) rest (Some total))%res.
Proof.
  cbn [GMMClustering_logp_loop]. unfold cluster_logps, add_cluster.
  destruct (gaussian_log_density result_ center (Some std) None) as [lls|e]; [|reflexivity].
  cbn [result_bind].
  destruct (tf_reduce_sum_axis lls 1) as [cl|e]; [|reflexivity]. cbn [result_bind].
  destruct (tf_getitem weights i) as [w|e]; [|reflexivity]. cbn [result_bind].
  destruct (tf_log w) as [lw|e]; [|reflexivity]. cbn [result_bind].
  destruct (tf_binop Add lw cl) as [x|e]; reflexivity.
Qed.

Lemma logp_loop_snoc (result_ weights std : array) (cs : list array) :
  forall (i : nat) (center : array) (acc : option array),
    GMMClustering_logp_loop result_ weights std i (cs ++ [center]) acc
    = (t <~ GMMClustering_logp_loop result_ weights std i cs acc ;;
       cl <~ cluster_logps result_ weights std (i + length cs) center ;;
       total <~ add_cluster t cl ;;
       Val (Some total))%res.
Proof.
  induction cs as [|c cs IH]; intros i center acc.
  - cbn [app length]. rewrite logp_loop_cons. cbn [GMMClustering_logp_loop result_bind].
    rewrite Nat.add_0_r.
    destruct (cluster_logps result_ weights std i center) as [cl|e]; [|reflexivity].
    cbn [result_bind]. destruct (add_cluster acc cl); reflexivity.
  - cbn [app length]. rewrite !logp_loop_cons.
    destruct (cluster_logps result_ weights std i c) as [cl|e]; [|reflexivity].
    cbn [result_bind]. destruct (add_cluster acc cl) as [t|e]; [|reflexivity].
    cbn [result_bind]. rewrite IH. replace (S i + length cs) with (i + S (length cs)) by lia.
    reflexivity.
Qed.

Lemma logp_loop_None (result_ weights std : array) (cs : list array) :
  forall (i : nat) (acc r : option array),
    GMMClustering_logp_loop result_ weights std i cs acc = Val r ->
    (r = None <-> cs = [] /\ acc = None).
Proof.
  induction cs as [|c cs IH]; intros i acc r Hr.
  - inversion Hr; subst. split; [auto|intros [_ ?]; assumption].
  - rewrite logp_loop_cons in Hr.
    destruct (cluster_logps result_ weights std i c) as [cl|e]; [|discriminate].
    cbn [result_bind] in Hr. destruct (add_cluster acc cl) as [t|e]; [|discriminate].
    cbn [result_bind] in Hr. apply IH in Hr. split.
    + intros Hn. apply Hr in Hn. destruct Hn as [_ ?]. discriminate.
    + intros [? _]. discriminate.
Qed.

(** X24. The loop of [GMMClustering._logp] folds the clusters from the
    first to the last: the total after the clusters [cs] and one more is the
    [logsumexp] of the total after [cs] and the weighted log-probabilities
    of the last cluster, which uses the weight at the cluster's position; a
    first cluster starts the total.  The total is [None] only when there is
    no cluster, and [_logp] then raises instead of returning a number. *)
Theorem mixture_logp_folds_clusters (self : node) (result_ weights std : array) :
  (forall cs i center acc,
     GMMClustering_logp_loop result_ weights std i (cs ++ [center]) acc
     = (t <~ GMMClustering_logp_loop result_ weights std i cs acc ;;
        cl <~ cluster_logps result_ weights std (i + length cs) center ;;
        total <~ add_cluster t cl ;;
        Val (Some total))%res) /\
  (forall cs i acc r,
     GMMClustering_logp_loop result_ weights std i cs acc = Val r ->
     (r = None <-> cs = [] /\ acc = None)) /\
  (forall center,
     GMMClustering_logp_loop result_ weights std 0 [center] None
     = (cl <~ cluster_logps result_ weights std 0 center ;; Val (Some cl))%res) /\
  (forall centers,
     tf_unpack centers = Val [] ->
     exists e, GMMClustering__logp self result_ weights centers std = Raise e) /\
  (forall centers cs x,
     tf_unpack centers = Val cs ->
     GMMClustering__logp self result_ weights centers std = Val x ->
     exists total,
       GMMClustering_logp_loop result_ weights std 0 cs None = Val (Some total) /\
       tf_reduce_sum total = Val x /\ cs <> []).
Proof.
  split; [|split; [|split; [|split]]].
  - intros cs i center acc. apply logp_loop_snoc.
  - intros cs i acc r. apply logp_loop_None.
  - intros center. rewrite logp_loop_cons.
    destruct (cluster_logps result_ weights std 0 center); reflexivity.
  - intros centers Hc. unfold GMMClustering__logp. rewrite Hc. cbn. eauto.
  - intros centers cs x Hc Hx. unfold GMMClustering__logp in Hx. rewrite Hc in Hx.
    cbn [result_bind] in Hx.
    destruct (GMMClustering_logp_loop result_ weights std 0 cs None) as [r|e] eqn:Hl;
      [|discriminate].
    cbn [result_bind] in Hx. destruct r as [total|]; [|discriminate].
    cbn [operand result_bind] in Hx. exists total. split; [reflexivity|].
    split; [exact Hx|]. intros ->. cbn in Hl. discriminate.
Qed.

End mixture.


(** ** The further properties on the example stores *)

Section more_examples.
#[local] Existing Instance Reference.backend.

Lemma cases_store_reachable : reachable Cases.extended.
Proof.
  apply (reachable_run_all Cases.more Demo.store); [apply example_store_reachable|].
  apply run_all_Some. vm_compute. reflexivity.
Qed.

Example cases_store_nodes :
  map (fun n => (cls n, name n, input_nodes n, _q_distribution n, _sampled_value_seed n,
                 K n, output_shape n))
      (nodes Cases.extended)
  = [(FlatDistribution, "A", [], Some 0, None, None, [1; 4]);
     (FlatDistribution, "B", [], Some 1, None, None, [1; 4]);
     (FlatDistribution, "std", [], Some 2, None, None, []);
     (NoisyGaussianMatrixProduct, "X", [("A", 0); ("B", 1); ("std", 2)], Some 5, None,
      Some 4, [1; 1]);
     (FlatDistribution, "weights", [], Some 3, None, None, [3]);
     (FlatDistribution, "centers", [], Some 4, None, None, [3; 2]);
     (GMMClustering, "G", [("weights", 4); ("centers", 5); ("std", 2)], Some 6, None,
      None, [2; 2]);
     (MultiplicativeGaussianNoise, "M", [("A", 0); ("std", 2)], Some 7, None, None, [1; 4]);
     (NoisyCumulativeSum, "C", [("A", 5)], None, None, None, [3; 2]);
     (FlatDistribution, "free", [], None, None, None, []);
     (NoisyCumulativeSum, "twin", [("A", 5); ("std", 2)], None, None, None, [3; 2]);
     (NoisyCumulativeSum, "twin", [("A", 5); ("std", 2)], None, None, None, [3; 2]);
     (FlatDistribution, "Z", [], Some 8, None, None, [2; 3]);
     (NoisyLatentFeatures, "F", [("B", 12); ("G", 5); ("std", 2)], Some 9, None,
      Some 3, [2; 2])].
Proof. vm_compute. reflexivity. Qed.

Lemma lookup_of_map {A B : Type} (f : A -> B) (l : list A) (L : list B) (i : nat) (x : B) :
  map f l = L -> L !! i = Some x -> exists n, l !! i = Some n /\ f n = x.
Proof.
  intros <- Hx. rewrite list_lookup_fmap in Hx.
  destruct (l !! i) as [n|]; [|discriminate]. inversion Hx. eauto.
Qed.

Lemma cases_store_ok : graph_ok (nodes Cases.extended).
Proof. apply graph_ok_reachable. apply cases_store_reachable. Qed.

Lemma ancestors_are_the_feeding_nodes_witness :
  exists n, nodes Cases.extended !! 13 = Some n /\
    (forall j, j ∈ ancestors n <-> feeds_into (nodes Cases.extended) 13 j) /\
    (forall k p, (k, p) ∈ input_nodes n -> p < 13 /\ p ∈ ancestors n).
Proof.
  destruct (lookup_of_map _ _ _ 13 _ cases_store_nodes eq_refl) as (n & Hn & _).
  exists n. split; [exact Hn|].
  destruct (ancestors_are_the_feeding_nodes Cases.extended 13 n cases_store_reachable Hn)
    as (H1 & _ & H3).
  split; assumption.
Defined.

Lemma sample_touches_only_ancestors_witness :
  exists r s',
    ConditionalDistribution_sample classes 14 13 5 Cases.extended = Some (r, s') /\
    qdists s' = qdists Cases.extended /\
    length (nodes s') = length (nodes Cases.extended) /\
    rng s' <> rng Cases.extended.
Proof.
  assert (Hv : match ConditionalDistribution_sample classes 14 13 5 Cases.extended with
               | Some (_, s') => negb (Z.eqb (rng s') (rng Cases.extended))
               | None => false
               end = true) by (vm_compute; reflexivity).
  destruct (ConditionalDistribution_sample classes 14 13 5 Cases.extended)
    as [[r s']|] eqn:He; [|discriminate Hv].
  exists r, s'. split; [reflexivity|].
  destruct (lookup_of_map _ _ _ 13 _ cases_store_nodes eq_refl) as (n & Hn & _).
  destruct (sample_touches_only_ancestors classes 14 13 5 Cases.extended s' n r
              cases_store_ok Hn He) as (H1 & H2 & _).
  split; [exact H1|]. split; [exact H2|].
  intros Heq. rewrite Heq in Hv. rewrite Z.eqb_refl in Hv. discriminate Hv.
Defined.

Lemma sample_is_a_joint_draw_witness :
  exists n v s1 ins v0,
    nodes Cases.extended !! 13 = Some n /\
    ConditionalDistribution_sample classes 14 13 5 Cases.extended = Some (Val v, s1) /\
    v = Some v0 /\
    Forall2 (fun (kp : string * node_id) (kv : string * option array) =>
               fst kv = fst kp /\
               node_has (snd kp) (sampled_with 5 (snd kv)) (nodes s1))
            (input_nodes n) ins /\
    nodes s1 !! 13 = Some (with_sample 5 v0 n).
Proof.
  assert (Hv : returns_value (ConditionalDistribution_sample classes 14 13 5 Cases.extended)
               = true) by (vm_compute; reflexivity).
  destruct (ConditionalDistribution_sample classes 14 13 5 Cases.extended)
    as [[[v|e] s1]|] eqn:He; try discriminate Hv.
  destruct (lookup_of_map _ _ _ 13 _ cases_store_nodes eq_refl)
    as (n & Hn & [= _ _ _ _ Hseed _ _]).
  destruct (sample_is_a_joint_draw classes 13 13 5 Cases.extended s1 n v cases_store_ok Hn)
    as (ins & v0 & Hv0 & HF & _ & Hself); [rewrite Hseed; discriminate|exact He|].
  exists n, v, s1, ins, v0. auto.
Defined.

Lemma sample_failure_is_remembered_witness :
  exists n e s1,
    nodes Cases.extended !! 8 = Some n /\
    ConditionalDistribution_sample classes 9 8 5 Cases.extended = Some (Raise e, s1) /\
    nodes s1 !! 8 = Some (set_sampled_value_seed (Some 5%Z) n) /\
    ConditionalDistribution_sample classes 9 8 5 s1 = Some (Val None, s1).
Proof.
  assert (Hv : match ConditionalDistribution_sample classes 9 8 5 Cases.extended with
               | Some (Raise _, s1) =>
                   match nodes s1 !! 8 with
                   | Some n1 => bool_decide (_sampled_value_seed n1 = Some 5%Z)
                   | None => false
                   end
               | _ => false
               end = true) by (vm_compute; reflexivity).
  destruct (ConditionalDistribution_sample classes 9 8 5 Cases.extended)
    as [[[v|e] s1]|] eqn:He; try discriminate Hv.
  destruct (nodes s1 !! 8) as [n1|] eqn:Hn1; [|discriminate Hv].
  apply bool_decide_eq_true in Hv.
  destruct (lookup_of_map _ _ _ 8 _ cases_store_nodes eq_refl)
    as (n & Hn & [= _ _ _ _ Hseed _ _]).
  assert (Hval : (fun o => match o with Some m => Some (match _sampled_value m with
                                                        | Some _ => true | None => false end)
                                   | None => None end) (nodes Cases.extended !! 8)
                 = Some false) by (vm_compute; reflexivity).
  cbv beta in Hval. rewrite Hn in Hval.
  destruct (_sampled_value n) as [x|] eqn:Hcache; [discriminate Hval|].
  destruct (sample_failure_is_remembered classes 8 8 5 Cases.extended s1 n e cases_store_ok Hn)
    as [[_ Hsame]|(ins & sa & g & _ & _ & Hself & Hagain)];
    [rewrite Hseed; discriminate|exact He| |].
  - exfalso. rewrite Hsame in Hn1. inversion Hn1; subst n1. congruence.
  - exists n, e, s1. split; [exact Hn|]. split; [reflexivity|].
    split; [exact Hself|]. rewrite <- Hcache. apply Hagain.
Defined.

Lemma cases_store_posteriors : length (qdists Cases.extended) = 10.
Proof. vm_compute. reflexivity. Qed.

Lemma elbo_term_never_writes_witness :
  exists r s', elbo_term 13 None Cases.extended = Some (r, s') /\ s' = Cases.extended.
Proof.
  assert (Hv : match elbo_term 13 None Cases.extended with Some _ => true | None => false end
               = true) by (vm_compute; reflexivity).
  destruct (elbo_term 13 None Cases.extended) as [[r s']|] eqn:He; [|discriminate Hv].
  exists r, s'. split; [reflexivity|].
  exact (proj2 (elbo_term_never_writes 13 Cases.extended s') None r He).
Defined.

Lemma elbo_term_needs_posteriors_witness :
  elbo_term 10 None Cases.extended
  = Some (Raise (PyException "default Q distribution not implemented!"), Cases.extended).
Proof.
  destruct (lookup_of_map _ _ _ 10 _ cases_store_nodes eq_refl)
    as (n & Hn & [= Hcls _ Hins Hslot _ _ _]).
  destruct (lookup_of_map _ _ _ 5 _ cases_store_nodes eq_refl) as (n5 & Hn5 & _).
  destruct (lookup_of_map _ _ _ 2 _ cases_store_nodes eq_refl) as (n2 & Hn2 & _).
  apply (proj1 (elbo_term_needs_posteriors 10 None Cases.extended n Hn
                  ltac:(rewrite Hins; repeat constructor; cbn; eauto)
                  ltac:(unfold accepts_hack; rewrite Hcls; reflexivity))).
  left. exact Hslot.
Defined.

Lemma elbo_term_of_attached_posteriors_witness :
  exists n d d0 d2,
    nodes Cases.extended !! 7 = Some n /\
    qdists Cases.extended !! 7 = Some d /\
    qdists Cases.extended !! 0 = Some d0 /\
    qdists Cases.extended !! 2 = Some d2 /\
    elbo_term 7 None Cases.extended =
      match _expected_logp (classes (cls n)) n
              [("q_result", d); ("q_A", d0); ("q_std", d2)] with
      | Val E =>
          Some (Val ((fst (scaled (minibatch_scale_factor n) (E, q_entropy d))
                      + symmetry_correction n None)%R,
                     snd (scaled (minibatch_scale_factor n) (E, q_entropy d))),
                Cases.extended)
      | Raise e => Some (Raise e, Cases.extended)
      end.
Proof.
  destruct (lookup_of_map _ _ _ 7 _ cases_store_nodes eq_refl)
    as (n & Hn & [= Hcls _ Hins Hslot _ _ _]).
  destruct (lookup_of_map _ _ _ 0 _ cases_store_nodes eq_refl)
    as (n0 & Hn0 & [= _ _ _ Hslot0 _ _ _]).
  destruct (lookup_of_map _ _ _ 2 _ cases_store_nodes eq_refl)
    as (n2 & Hn2 & [= _ _ _ Hslot2 _ _ _]).
  pose proof cases_store_posteriors as Hlen.
  destruct (lookup_lt_is_Some_2 (qdists Cases.extended) 7) as [d Hd]; [rewrite Hlen; lia|].
  destruct (lookup_lt_is_Some_2 (qdists Cases.extended) 0) as [d0 Hd0]; [rewrite Hlen; lia|].
  destruct (lookup_lt_is_Some_2 (qdists Cases.extended) 2) as [d2 Hd2]; [rewrite Hlen; lia|].
  exists n, d, d0, d2. repeat (split; [assumption|]).
  apply (elbo_term_of_attached_posteriors 7 None Cases.extended n 7 d
           [("q_A", d0); ("q_std", d2)] Hn Hslot Hd).
  - rewrite Hins. constructor; [|constructor; [|constructor]].
    + split; [reflexivity|]. exists n0, 0. auto.
    + split; [reflexivity|]. exists n2, 2. auto.
  - unfold accepts_hack. rewrite Hcls. reflexivity.
  - unfold correction_defined. rewrite Hcls. reflexivity.
Defined.

Lemma NoisyLatentFeatures_elbo_term_correction_witness :
  exists E Hn s',
    ConditionalDistribution_elbo_term classes 13 Cases.extended = Some (Val (E, Hn), s') /\
    elbo_term 13 None Cases.extended = Some (Val ((E + ln (INR (fact 3)))%R, Hn), s') /\
    elbo_term 13 (Some false) Cases.extended = Some (Val (E, Hn), s').
Proof.
  assert (Hv : returns_value (ConditionalDistribution_elbo_term classes 13 Cases.extended)
               = true) by (vm_compute; reflexivity).
  destruct (ConditionalDistribution_elbo_term classes 13 Cases.extended)
    as [[[[E Hn]|e] s']|] eqn:He; try discriminate Hv.
  exists E, Hn, s'. split; [reflexivity|].
  destruct (lookup_of_map _ _ _ 13 _ cases_store_nodes eq_refl)
    as (n & Hnode & [= Hcls _ _ _ _ HK _]).
  destruct (NoisyLatentFeatures_elbo_term_correction 13 Cases.extended s' n 3 E Hn
              Hnode Hcls HK He) as (_ & H2 & H3 & _).
  split; assumption.
Defined.

Lemma observe_attaches_the_observation_witness :
  exists s',
    observe 10 (Reference.RMatrix [[1; 1]; [2; 2]; [3; 3]]%R) Cases.extended
    = Some (Val (length (qdists Cases.extended)), s') /\
    q_distribution 10 s' = Some (Val (length (qdists Cases.extended)), s').
Proof.
  destruct (lookup_of_map _ _ _ 10 _ cases_store_nodes eq_refl)
    as (n & Hn & [= _ _ _ Hslot _ _ Hshape]).
  destruct (proj1 (@observe_attaches_the_observation Reference.backend 10
                     (Reference.RMatrix [[1; 1]; [2; 2]; [3; 3]]%R) Cases.extended n Hn)
              Hslot) as (s' & Hobs & _ & _ & _ & Hq).
  { rewrite Hshape. reflexivity. }
  exists s'. split; assumption.
Defined.

Lemma FlatDistribution_constructor_witness :
  exists n s',
    FlatDistribution___init__ Demo.A true (named "A2") Cases.extended
    = Some (Val (length (nodes Cases.extended)), s') /\
    nodes s' = (nodes Cases.extended ++ [n])%list /\
    value n = Some (fst Demo.A) /\
    _q_distribution n = Some (length (qdists Cases.extended)).
Proof.
  destruct (proj1 (FlatDistribution_constructor Demo.A true (named "A2") Cases.extended
                     (fst Demo.A) eq_refl) eq_refl)
    as (n & s' & Hinit & Hnodes & _ & _ & _ & Hval & _ & _ & _ & _ & _ & _ & _ & Hq & _).
  exists n, s'. auto.
Defined.

Lemma fixed_constant_node_witness :
  exists self s' a s1,
    FlatDistribution___init__ Demo.A true (named "A2") Cases.extended = Some (Val self, s') /\
    for_each (fun seed => sample 1 self seed) [5; 6; 5]%Z s'
    = Some (Val [Some a; Some a; Some a], s1) /\
    elbo_term self None s'
    = Some (Val (scaled None (0%R, q_entropy (ObservedQDistribution a))), s').
Proof.
  assert (Hv : returns_value (FlatDistribution___init__ Demo.A true (named "A2") Cases.extended)
               = true) by (vm_compute; reflexivity).
  destruct (FlatDistribution___init__ Demo.A true (named "A2") Cases.extended)
    as [[[self|e] s']|] eqn:He; try discriminate Hv.
  destruct (fixed_constant_node Demo.A (named "A2") Cases.extended s' self He)
    as (a & _ & Hsamples & Helbo & _).
  destruct (Hsamples [5; 6; 5]%Z) as (s1 & Hs1).
  exists self, s', a, s1. split; [reflexivity|]. split; [exact Hs1|exact Helbo].
Defined.

Lemma init_q_true_keeps_observations_witness :
  exists r s',
    init_q_true 14 13 Cases.extended = Some (r, s') /\
    keeps_observations Cases.extended s'.
Proof.
  assert (Hv : match init_q_true 14 13 Cases.extended with Some _ => true | None => false end
               = true) by (vm_compute; reflexivity).
  destruct (init_q_true 14 13 Cases.extended) as [[r s']|] eqn:He; [|discriminate Hv].
  exists r, s'. split; [reflexivity|].
  exact (proj1 (init_q_true_keeps_observations 14 13 Cases.extended s' r He)).
Defined.

Lemma init_q_true_returns_witness :
  exists n d,
    nodes Cases.extended !! 12 = Some n /\
    qdists Cases.extended !! 8 = Some d /\
    init_q_true 13 12 Cases.extended =
      Some (Val tt,
            if q_observed d then Cases.extended
            else match q_initialize_to_value d (_sampled_value n) with
                 | Val d' => mk_state (nodes Cases.extended) (<[8 := d']> (qdists Cases.extended))
                                      (rng Cases.extended)
                 | Raise _ => Cases.extended
                 end).
Proof.
  destruct (lookup_of_map _ _ _ 12 _ cases_store_nodes eq_refl)
    as (n & Hn & [= _ _ Hins Hslot _ _ _]).
  pose proof cases_store_posteriors as Hlen.
  destruct (lookup_lt_is_Some_2 (qdists Cases.extended) 8) as [d Hd]; [rewrite Hlen; lia|].
  exists n, d. split; [exact Hn|]. split; [exact Hd|].
  apply (proj2 (init_q_true_returns 13 12 Cases.extended n cases_store_ok Hn
                  ltac:(lia)
                  ltac:(intros j Hj;
                        destruct (closed_at_elem _ _ _ _ (proj2 cases_store_ok _ _ Hn) Hj)
                          as [->|(k & p & pn & Hin & _)];
                        [exists n; split; [exact Hn|]; exists 8; split; [exact Hslot|];
                         rewrite Hlen; lia
                        |rewrite Hins in Hin; inversion Hin])));
    assumption.
Defined.

Lemma NoisyGaussianMatrixProduct_constructor_witness :
  NoisyGaussianMatrixProduct___init__ (ArgNode 0) (ArgNode 1) (ArgNode 2) true (named "X")
    Cases.shapes
  = Some (Val 5,
          with_new_node Cases.shapes
            (set_rescale true
               (set_K 3 (new_node NoisyGaussianMatrixProduct (named "X")
                           [("A", 0); ("B", 1); ("std", 2)] [5; 4] float32
                           [{[0]}; {[1]}; {[2]}] 5)))) /\
  NoisyGaussianMatrixProduct___init__ (ArgNode 0) (ArgNode 3) (ArgNode 2) true (named "X")
    Cases.shapes
  = Some (Raise AssertionError, Cases.shapes).
Proof.
  split.
  - rewrite (proj1 (NoisyGaussianMatrixProduct_constructor 0 1 2 true (named "X")
                      Cases.shapes _ _ _ eq_refl eq_refl eq_refl)
               eq_refl eq_refl 5 3 4 3 eq_refl eq_refl).
    reflexivity.
  - rewrite (proj1 (NoisyGaussianMatrixProduct_constructor 0 3 2 true (named "X")
                      Cases.shapes _ _ _ eq_refl eq_refl eq_refl)
               eq_refl eq_refl 5 3 3 2 eq_refl eq_refl).
    reflexivity.
Defined.

Lemma NoisyLatentFeatures_constructor_witness :
  NoisyLatentFeatures___init__ (ArgNode 4) (ArgNode 3) (ArgNode 2) (named "F") Cases.shapes
  = Some (Val 5,
          with_new_node Cases.shapes
            (set_K 3 (new_node NoisyLatentFeatures (named "F")
                        [("B", 4); ("G", 3); ("std", 2)] [5; 2] float32
                        [{[4]}; {[3]}; {[2]}] 5))).
Proof.
  rewrite (NoisyLatentFeatures_constructor 4 3 2 (named "F") Cases.shapes _ _ _ 5 3 3 2
             eq_refl eq_refl eq_refl eq_refl eq_refl eq_refl eq_refl).
  reflexivity.
Defined.

Lemma cumulative_sum_and_noise_constructors_witness :
  NoisyCumulativeSum___init__ (ArgNode 0) (ArgNode 2) (named "C") Cases.shapes
  = Some (Val 5,
          with_new_node Cases.shapes
            (new_node NoisyCumulativeSum (named "C") [("A", 0); ("std", 2)] [5; 3] float32
               [{[0]}; {[2]}] 5)) /\
  MultiplicativeGaussianNoise___init__ (ArgNode 0) (ArgNode 4) (named "M") Cases.shapes
  = Some (Raise AssertionError, Cases.shapes).
Proof.
  split.
  - rewrite (proj1 (cumulative_sum_and_noise_constructors 0 2 (named "C") Cases.shapes
                      _ _ eq_refl eq_refl)).
    reflexivity.
  - rewrite (proj2 (cumulative_sum_and_noise_constructors 0 4 (named "M") Cases.shapes
                      _ _ eq_refl eq_refl)).
    reflexivity.
Defined.

Lemma GMMClustering_constructor_witness :
  GMMClustering___init__ (ArgNode 2) (ArgNode 3) (ArgNode 2)
    (mk_init_kwargs (Some [7; 2]) None None (Some "G") EmptyString) Cases.shapes
  = Some (Val 5,
          with_new_node Cases.shapes
            (set_n_clusters 3
               (new_node GMMClustering
                  (mk_init_kwargs (Some [7; 2]) None None (Some "G") EmptyString)
                  [("weights", 2); ("centers", 3); ("std", 2)] [7; 2] float32
                  [{[2]}; {[3]}; {[2]}] 5))).
Proof.
  rewrite (GMMClustering_constructor 2 3 2
             (mk_init_kwargs (Some [7; 2]) None None (Some "G") EmptyString)
             Cases.shapes _ _ _ [7; 2] eq_refl eq_refl eq_refl eq_refl).
  reflexivity.
Defined.

Lemma constants_are_wrapped_witness :
  exists s',
    NoisyCumulativeSum___init__ (ArgRaw Demo.centers) (ArgRaw Demo.std) (named "W")
      initial_state = Some (Val 2, s') /\
    map (fun n => (cls n, name n, input_nodes n, _q_distribution n, output_shape n))
        (nodes s')
    = [(FlatDistribution, "W_A_fixed", [], Some 0, [3; 2]);
       (FlatDistribution, "W_std_fixed", [], Some 1, []);
       (NoisyCumulativeSum, "W", [("A", 0); ("std", 1)], None, [3; 2])].
Proof.
  eexists. split.
  - exact (constants_are_wrapped NoisyCumulativeSum Demo.centers Demo.std (named "W")
             initial_state (fst Demo.centers) (fst Demo.std)
             (or_introl eq_refl) eq_refl eq_refl eq_refl eq_refl eq_refl).
  - reflexivity.
Defined.

Lemma sample_terminates_witness :
  exists r s',
    forall fuel, 13 < fuel ->
      ConditionalDistribution_sample classes fuel 13 5 Cases.extended = Some (r, s').
Proof.
  apply (sample_terminates classes 13 5 Cases.extended cases_store_ok).
  assert (Hl : length (nodes Cases.extended) = 14) by (vm_compute; reflexivity).
  rewrite Hl. lia.
Defined.

Lemma omitted_input_is_an_error_witness :
  (exists msg,
     ConditionalDistribution___init__ classes NoisyCumulativeSum (named "C")
       [("A", ArgNode 0); ("std", ArgNone)] Cases.shapes
     = Some (Raise (TypeError msg), Cases.shapes)) /\
  (exists s0 e s1,
     ConditionalDistribution___init__ classes NoisyCumulativeSum (Cases.shaped "D")
       [("A", ArgNode 5); ("std", ArgNone)] Cases.extended = Some (Val 14, s0) /\
     ConditionalDistribution_sample classes 15 14 5 s0 = Some (Raise e, s1) /\
     ConditionalDistribution_sample classes 15 14 5 s1 = Some (Val None, s1)).
Proof.
  split.
  { apply (proj1 (omitted_input_is_an_error NoisyCumulativeSum 0 (named "C") Cases.shapes _
                    (or_introl eq_refl) eq_refl)).
    left. reflexivity. }
  assert (Hv : match ConditionalDistribution___init__ classes NoisyCumulativeSum
                       (Cases.shaped "D") [("A", ArgNode 5); ("std", ArgNone)]
                       Cases.extended with
               | Some (Val self, s0) =>
                   Nat.eqb self 14 &&
                   match ConditionalDistribution_sample classes 15 14 5 s0 with
                   | Some (Raise _, s1) =>
                       match nodes s1 !! 14 with
                       | Some n1 =>
                           bool_decide (_sampled_value_seed n1 = Some 5%Z) &&
                           match _sampled_value n1 with None => true | Some _ => false end
                       | None => false
                       end
                   | _ => false
                   end
               | _ => false
               end = true) by (vm_compute; reflexivity).
  destruct (ConditionalDistribution___init__ classes NoisyCumulativeSum
              (Cases.shaped "D") [("A", ArgNode 5); ("std", ArgNone)] Cases.extended)
    as [[[self|e0] s0]|] eqn:Hi; try discriminate Hv.
  apply andb_true_iff in Hv as [Hself Hv]. apply Nat.eqb_eq in Hself. subst self.
  destruct (ConditionalDistribution_sample classes 15 14 5 s0)
    as [[[v|e] s1]|] eqn:He; try discriminate Hv.
  destruct (nodes s1 !! 14) as [n1|] eqn:Hn1; [|discriminate Hv].
  apply andb_true_iff in Hv as [Hm Hval]. apply bool_decide_eq_true in Hm.
  destruct (_sampled_value n1) as [x|] eqn:Hcache; [discriminate Hval|].
  exists s0, e, s1. split; [reflexivity|]. split; [exact He|].
  rewrite (sample_cached classes 14 14 5 s1 n1 Hn1 Hm). rewrite Hcache. reflexivity.
Defined.

Example cases_store_attributes :
  map (fun n => (dtype n, rescale n, n_clusters n,
                 match value n with Some _ => true | None => false end))
      (nodes Cases.extended)
  = [(float32, None, None, true); (float32, None, None, true); (float32, None, None, true);
     (float32, Some true, None, false); (float32, None, None, true);
     (float32, None, None, true); (float32, None, Some 3, false);
     (float32, None, None, false); (float32, None, None, false);
     (float32, None, None, true); (float32, None, None, false);
     (float32, None, None, false); (bool_, None, None, true);
     (float32, None, None, false)].
Proof. vm_compute. reflexivity. Qed.

Lemma same_name_same_draw_witness :
  exists vi vj s1 s2,
    sample 11 10 5 Cases.extended = Some (Val vi, s1) /\
    sample 12 11 5 s1 = Some (Val vj, s2) /\
    vi = vj.
Proof.
  assert (Hv : match sample 11 10 5 Cases.extended with
               | Some (Val _, s1) => returns_value (sample 12 11 5 s1)
               | _ => false
               end = true) by (vm_compute; reflexivity).
  destruct (sample 11 10 5 Cases.extended) as [[[vi|e] s1]|] eqn:Hi; try discriminate Hv.
  destruct (sample 12 11 5 s1) as [[[vj|e] s2]|] eqn:Hj; try discriminate Hv.
  exists vi, vj, s1, s2. split; [reflexivity|]. split; [exact Hj|].
  destruct (lookup_of_map _ _ _ 10 _ cases_store_nodes eq_refl)
    as (ni & Hni & [= Hc1 Hnm1 Hin1 _ Hsd1 HK1 Hsh1]).
  destruct (lookup_of_map _ _ _ 11 _ cases_store_nodes eq_refl)
    as (nj & Hnj & [= Hc2 Hnm2 Hin2 _ Hsd2 HK2 Hsh2]).
  destruct (lookup_of_map _ _ _ 10 _ cases_store_attributes eq_refl)
    as (ni' & Hni' & [= Hd1 Hr1 Hcl1 Hv1]).
  destruct (lookup_of_map _ _ _ 11 _ cases_store_attributes eq_refl)
    as (nj' & Hnj' & [= Hd2 Hr2 Hcl2 Hv2]).
  rewrite Hni in Hni'. injection Hni' as <-.
  rewrite Hnj in Hnj'. injection Hnj' as <-.
  assert (Hlaw : same_law ni nj).
  { unfold same_law.
    destruct (value ni); [discriminate Hv1|]. destruct (value nj); [discriminate Hv2|].
    repeat split; congruence. }
  assert (Hm1 : _sampled_value_seed ni <> Some 5%Z) by (rewrite Hsd1; discriminate).
  assert (Hm2 : _sampled_value_seed nj <> Some 5%Z) by (rewrite Hsd2; discriminate).
  exact (same_name_same_draw 10 11 5 10 11 Cases.extended s1 s2 ni nj vi vj
           cases_store_ok Hni Hnj ltac:(lia) Hlaw Hm1 Hm2 Hi Hj).
Defined.

Lemma monte_carlo_expected_logp_witness :
  ConditionalDistribution__expected_logp (fun _ => Val 0%R) [("result", Demo.posterior_X)]
  = Raise AssertionError.
Proof.
  exact (proj1 (proj2 (@monte_carlo_expected_logp Reference.backend))
           (fun _ => Val 0%R) "result" Demo.posterior_X [] eq_refl).
Defined.

Lemma noise_is_drawn_first_witness :
  exists e,
    fst (NoisyCumulativeSum__sample (Cases.constant "T" [2; 2; 2] float32 0) None None 0%Z)
    = Raise e.
Proof.
  eexists.
  exact (proj2 (proj1 (proj2 (@noise_is_drawn_first Reference.backend
                                (Cases.constant "T" [2; 2; 2] float32 0) 0%Z)) None None)
           _ eq_refl).
Defined.

Lemma mixture_logp_folds_clusters_witness :
  exists e,
    GMMClustering__logp (Cases.constant "G" [2; 2] float32 0)
      (Reference.RMatrix [[0; 0]; [1; 1]]%R) (Reference.RVector []) (Reference.RMatrix [])
      (Reference.RScalar 1%R)
    = Raise e.
Proof.
  exact (proj1 (proj2 (proj2 (proj2
           (@mixture_logp_folds_clusters Reference.backend
              (Cases.constant "G" [2; 2] float32 0)
              (Reference.RMatrix [[0; 0]; [1; 1]]%R) (Reference.RVector [])
              (Reference.RScalar 1%R)))))
           (Reference.RMatrix []) eq_refl).
Defined.

End more_examples.
